(** * Apophenia: [apop_asst.c], [apop_smoothing.c], [apop_linear_algebra.c]

    A shallow embedding of [apop_generalized_harmonic], [find_min_unsorted],
    [apop_data_sort] and [apop_vector_percentiles], with the properties the
    specification states about them, and of [count_parens],
    [apop_text_paste], [apop_beta_from_mean_var],
    [apop_vector_moving_average], [apop_covariance_matrix],
    [apop_matrix_increment], [apop_matrix_stack] and
    [apop_matrix_rm_columns], with properties read off their code.

    Conventions of the embedding:
    - a C [double] is a binary64 value of the kernel ([PrimFloat.float]); the
      comparisons [<], [<=] and [==] of C are [ltb], [leb] and [eqb];
    - sizes and indices ([size_t], [int]) are natural numbers and integers
      without overflow: a data set is taken to have fewer than 2^31 rows, the
      range in which the conversions the source makes between [size_t], [int]
      and [double] are exact; allocation is taken to succeed;
    - an array is a list, read with [!!!] and written with [<[i:=x]>]; the
      accesses of the source stay inside the arrays on the inputs the
      theorems are about;
    - a [while] loop without a bound is a function with fuel; the theorems
      show that the fuel they are given is enough;
    - a pointer that may be [NULL] is an [option];
    - the GSL routines and the parts of Apophenia that [apop_asst.c] calls
      but does not define are modelled from the specification; each such
      definition says so.  The matrix accessors of GSL follow the block
      layout [data[i * tda + j]] that [apop_matrix_increment] itself uses;
      [gsl_sort_vector], the random draws, [apop_mean],
      [apop_normalize_matrix] and the BLAS product are parameters. *)

From Stdlib Require Import ZArith Floats Ascii String Lia.
From stdpp Require Import base tactics option list sorting gmap.

(** ** IEEE 754 comparisons *)

Module Double.

Abbreviation double := float.

Definition GSL_NAN : double := nan.

(** [isnan(x)] *)
Definition isnan (x : double) : bool := is_nan x.

(** [x < y], [x <= y], [x == y] on doubles *)
Definition lt (x y : double) : bool := (x <? y)%float.
Definition le (x y : double) : bool := (x <=? y)%float.
Definition eq (x y : double) : bool := (x =? y)%float.

End Double.

(** ** The GSL collaborators *)

Module Gsl.
Import Double.

#[global] Instance double_inhabited : Inhabited double := populate GSL_NAN.

(** A [gsl_vector]: [size] is the length of the list. *)
Definition gsl_vector := list double.

Definition gsl_vector_get (v : gsl_vector) (i : nat) : double := v !!! i.

(** The index sort of the specification, step by step.  Stable insertion of
    index [x] in front of the first index whose value is not smaller than the
    value at [x]. *)
Fixpoint insert_index (v : gsl_vector) (x : nat) (p : list nat) : list nat :=
  match p with
  | [] => [x]
  | y :: p' =>
      if lt (gsl_vector_get v y) (gsl_vector_get v x)
      then y :: insert_index v x p'
      else x :: y :: p'
  end.

(** Insertion sort of the indices [l] by their values. *)
Definition sort_slots (v : gsl_vector) (l : list nat) : list nat :=
  foldr (insert_index v) [] l.

(** The positions of [v] (counted from [k]) that hold a comparable value,
    and those that hold a NaN. *)
Fixpoint comparable_slots (v : list double) (k : nat) : list nat :=
  match v with
  | [] => []
  | x :: v' =>
      if isnan x then comparable_slots v' (S k)
      else k :: comparable_slots v' (S k)
  end.

Fixpoint nan_slots (v : list double) (k : nat) : list nat :=
  match v with
  | [] => []
  | x :: v' =>
      if isnan x then k :: nan_slots v' (S k) else nan_slots v' (S k)
  end.

(** Position by position: a NaN position keeps its own index, a comparable
    position takes the next index of [ok]. *)
Fixpoint place (v : list double) (k : nat) (ok : list nat) : list nat :=
  match v with
  | [] => []
  | x :: v' =>
      if isnan x then k :: place v' (S k) ok
      else match ok with
           | o :: ok' => o :: place v' (S k) ok'
           | [] => k :: place v' (S k) []
           end
  end.

(** Modelled from the spec: [gsl_sort_vector_index] belongs to the GSL and is
    not part of the repository.  The specification describes it as a stable
    index sort: the returned permutation lists the indices in ascending order
    of their values, indices of equal values keep their order, and a NaN is
    left at its original position. *)
Definition gsl_sort_vector_index (v : gsl_vector) : list nat :=
  place v 0 (sort_slots v (comparable_slots v 0)).

(** "not greater": the order the index sort establishes. *)
Definition ngt (v : gsl_vector) (a b : nat) : Prop :=
  lt (gsl_vector_get v b) (gsl_vector_get v a) = false.

Definition comparable (v : gsl_vector) (a : nat) : Prop :=
  isnan (gsl_vector_get v a) = false.

(** The same, between indices that both hold comparable values. *)
Definition ordered (v : gsl_vector) (a b : nat) : Prop :=
  comparable v a → comparable v b → ngt v a b.

(** A run that is in ascending order wherever its values are comparable. *)
Definition ascending (w : list double) : Prop :=
  ∀ i j x y, i < j → w !! i = Some x → w !! j = Some y →
    isnan x = false → isnan y = false → lt y x = false.

(** A run whose every value is smaller than all values before it. *)
Definition strictly_descending (w : list double) : Prop :=
  ∀ i j x y, i < j → w !! i = Some x → w !! j = Some y → lt y x = true.

(** A run whose every value is greater than all values before it. *)
Definition strictly_ascending (w : list double) : Prop :=
  ∀ i j x y, i < j → w !! i = Some x → w !! j = Some y → lt x y = true.

(** What every sort by index gives, however it treats equal values: [perm]
    lists each position of [v] once, and no value it lists is smaller than a
    value listed before it. *)
Definition index_sorted (v : gsl_vector) (perm : list nat) : Prop :=
  perm ≡ₚ seq 0 (length v) ∧
  ∀ i j a b, i < j → perm !! i = Some a → perm !! j = Some b →
    lt (gsl_vector_get v b) (gsl_vector_get v a) = false.

End Gsl.

(** ** The data set and its rows *)

Module Apop.
Import Double Gsl.

(** [apop_data], as far as the specification's rows go: the free-standing
    vector, the matrix (row by row, [size1] rows) and the text grid
    ([textsize[0]] rows); a component that is [NULL] is [None]. *)
Record apop_data := Apop_data {
  vector : option gsl_vector;
  matrix : option (list (list double));
  text : option (list (list string));
}.

(** One row of a data set: its vector entry, matrix row and text row. *)
Record apop_data_row := Apop_row {
  row_vector : option double;
  row_matrix : option (list double);
  row_text : option (list string);
}.

(** Modelled from the spec: [Apop_data_row] ([apop.h], not under src/) reads
    row [i] of every component the data set has. *)
Definition Apop_data_row (d : apop_data) (i : nat) : apop_data_row :=
  {| row_vector := vector d ≫= (.!! i);
     row_matrix := matrix d ≫= (.!! i);
     row_text := text d ≫= (.!! i) |}.

Definition set_entry {A} (c : option (list A)) (x : option A) (i : nat) :
    option (list A) :=
  match x with
  | Some a => (λ l, <[i:=a]> l) <$> c
  | None => c
  end.

(** Modelled from the spec: [apop_data_set_row] ([apop_data.c], not under
    src/) writes every component of the row into row [i] of the data set. *)
Definition apop_data_set_row (d : apop_data) (r : apop_data_row) (i : nat) :
    apop_data :=
  {| vector := set_entry (vector d) (row_vector r) i;
     matrix := set_entry (matrix d) (row_matrix r) i;
     text := set_entry (text d) (row_text r) i |}.

(** [apop_data_copy] of a row view: a snapshot that later writes to the data
    set do not reach. *)
Definition apop_data_copy (r : apop_data_row) : apop_data_row := r.

(** The rows of a data set of the given height, in order. *)
Definition rows (d : apop_data) (height : nat) : list apop_data_row :=
  Apop_data_row d <$> seq 0 height.

(** The number of rows of each component. *)
Definition dims (d : apop_data) : option nat * option nat * option nat :=
  (length <$> vector d, length <$> matrix d, length <$> text d).

(** Consistent row counts: every component the data set has is [height]
    rows long. *)
Definition well_formed (d : apop_data) (height : nat) : Prop :=
  (length <$> vector d = None ∨ length <$> vector d = Some height) ∧
  (length <$> matrix d = None ∨ length <$> matrix d = Some height) ∧
  (length <$> text d = None ∨ length <$> text d = Some height).

(** ** [find_min_unsorted] *)

(** [while (min<height) if (!sorted[min]) return min; else min++; return -1;]
    The loop runs at most [height - min] times. *)
Fixpoint find_min_unsorted_loop (n : nat) (sorted : list nat)
    (height min : nat) : Z :=
  match n with
  | 0 => (-1)%Z
  | S n' =>
      if decide (min < height) then
        if decide (sorted !!! min = 0) then Z.of_nat min
        else find_min_unsorted_loop n' sorted height (S min)
      else (-1)%Z
  end.

Definition find_min_unsorted (sorted : list nat) (height min : nat) : Z :=
  find_min_unsorted_loop (height - min) sorted height min.

(** ** [apop_data_sort] *)

(** [APOP_COL(data, sortby, v)]: column [sortby] of the matrix. *)
Definition APOP_COL (d : apop_data) (sortby : nat) : option gsl_vector :=
  m ← matrix d; mapM (.!! sortby) m.

(** One step of the reversal: [t = perm[j]; perm[j] = perm[height-1-j];
    perm[height-1-j] = t].  (The source keeps [t] in a [double]; an index
    survives that unchanged.) *)
Definition swap_perm (height : nat) (perm : list nat) (j : nat) : list nat :=
  let t := perm !!! j in
  let perm := <[j := perm !!! (height - 1 - j)]> perm in
  <[height - 1 - j := t]> perm.

(** [for (size_t j=0; j< height/2; j++) ...] *)
Definition reverse_perm (height : nat) (perm : list nat) : list nat :=
  foldl (swap_perm height) perm (seq 0 (height / 2)).

(** The inner loop [while (perm[i]!=start) {...}]: returns the data set, the
    markers and the last [i]; [None] when the fuel runs out. *)
Fixpoint follow_cycle (fuel : nat) (perm : list nat) (start : nat)
    (data : apop_data) (sorted : list nat) (i : nat) :
    option (apop_data * list nat * nat) :=
  match fuel with
  | 0 => None
  | S fuel' =>
      if decide (perm !!! i = start) then Some (data, sorted, i)
      else
        let onerow := Apop_data_row data (perm !!! i) in
        let data := apop_data_set_row data onerow i in
        let sorted := <[perm !!! i := S (sorted !!! (perm !!! i))]> sorted in
        follow_cycle fuel' perm start data sorted (perm !!! i)
  end.

(** The outer loop [while (1) {...}]; [cfuel] bounds each inner loop. *)
Fixpoint apply_perm (fuel cfuel : nat) (perm : list nat) (height : nat)
    (data : apop_data) (sorted : list nat) (start : nat) : option apop_data :=
  match fuel with
  | 0 => None
  | S fuel' =>
      let r := find_min_unsorted sorted height start in
      if decide (r = (-1)%Z) then Some data
      else
        let start := Z.to_nat r in
        let firstrow := Apop_data_row data start in
        let first_row_storage := apop_data_copy firstrow in
        let sorted := <[start := S (sorted !!! start)]> sorted in
        '(data, sorted, i) ← follow_cycle cfuel perm start data sorted start;
        let data := apop_data_set_row data first_row_storage i in
        apply_perm fuel' cfuel perm height data sorted start
  end.

Definition is_descending (asc : ascii) : bool :=
  (asc =? "d")%char || (asc =? "D")%char.

(** The sort key: the vector for [sortby == -1], else a matrix column. *)
Definition sort_key (d : apop_data) (sortby : Z) : option gsl_vector :=
  if decide (sortby = (-1)%Z) then vector d
  else if decide (sortby < 0)%Z then None
  else APOP_COL d (Z.to_nat sortby).

(** The permutation the rows are moved by. *)
Definition sort_perm (v : gsl_vector) (height : nat) (asc : ascii) : list nat :=
  let perm := gsl_sort_vector_index v in
  if is_descending asc then reverse_perm height perm else perm.

(** The direction test, on any index array: [if (asc=='d' || asc=='D')] the
    reversal loop runs.  [sort_perm v height asc] is
    [oriented_perm height asc (gsl_sort_vector_index v)]. *)
Definition oriented_perm (height : nat) (asc : ascii) (perm : list nat)
    : list nat :=
  if is_descending asc then reverse_perm height perm else perm.

(** The body of [apop_data_sort], after the argument defaults.  [None] is a
    run with no defined result: a [NULL] component is dereferenced, the
    column does not exist, or a loop does not finish within the fuel. *)
Definition apop_data_sort_base (fuel : nat) (data : apop_data) (sortby : Z)
    (asc : ascii) : option apop_data :=
  height ← (if decide (sortby = (-1)%Z) then length <$> vector data
            else length <$> matrix data);
  let sorted := replicate height 0 in
  v ← sort_key data sortby;
  let perm := sort_perm v height asc in
  apply_perm fuel fuel perm height data sorted 0.

(** [apop_opts.verbose] *)
Record apop_opts_type := Apop_opts { verbose : Z }.

(** The data sets in memory, by address, and what was written to the log. *)
Record memory := Memory {
  tables : gmap nat apop_data;
  log : list string;
}.

(** Modelled from the spec: [Apop_notify] ([apop.h], not under src/) emits
    the diagnostic when [apop_opts.verbose] is at least the level. *)
Definition Apop_notify (opts : apop_opts_type) (level : Z) (msg : string)
    (m : memory) : memory :=
  if decide (level ≤ verbose opts)%Z
  then {| tables := tables m; log := log m ++ [msg] |}
  else m.

(** The key selector after the defaults: [apop_varad_var(sortby, 0)], then
    [if (sortby==0 && !data->matrix && data->vector) sortby = -1]. *)
Definition resolve_sortby (d : apop_data) (sortby : option Z) : Z :=
  let sortby := default 0%Z sortby in
  if decide (sortby = 0%Z ∧ matrix d = None ∧ vector d ≠ None) then (-1)%Z
  else sortby.

(** [apop_data_sort(data, sortby, asc)]: [data] is a pointer ([None] for
    [NULL]), an argument left out is [None].  The result is the memory after
    the call and the returned pointer. *)
Definition apop_data_sort (fuel : nat) (opts : apop_opts_type) (m : memory)
    (data : option nat) (sortby : option Z) (asc : option ascii) :
    option (memory * option nat) :=
  match data with
  | None =>
      Some (Apop_notify opts 1
              "You gave me NULL data to sort. Returning NULL" m, None)
  | Some p =>
      d ← tables m !! p;
      let sortby := resolve_sortby d sortby in
      let asc := default "000"%char asc in
      d' ← apop_data_sort_base fuel d sortby asc;
      Some ({| tables := <[p := d']> (tables m); log := log m |}, Some p)
  end.

(** ** The invariants of the cycle-following loop *)

(** Row [j] has received its final content. *)
Definition marked (sorted : list nat) (j : nat) : Prop := sorted !!! j ≠ 0.

(** How many rows are still to be placed. *)
Definition unmarked (sorted : list nat) : nat :=
  length (filter (λ x, x = 0) sorted).

(** Between two cycles: every marked row holds its final content, every
    other row its original content, the marked rows are closed under the
    permutation, and the scan position has only marked rows before it. *)
Record outer_inv (d0 : apop_data) (perm : list nat) (h : nat)
    (d : apop_data) (sorted : list nat) (start : nat) : Prop := {
  outer_dims : dims d = dims d0;
  outer_length : length sorted = h;
  outer_done : ∀ j, j < h → marked sorted j →
    marked sorted (perm !!! j) ∧
    Apop_data_row d j = Apop_data_row d0 (perm !!! j);
  outer_todo : ∀ j, j < h → ¬ marked sorted j →
    Apop_data_row d j = Apop_data_row d0 j;
  outer_closed : ∀ j, j < h → marked sorted (perm !!! j) → marked sorted j;
  outer_before : ∀ j, j < start → j < h → marked sorted j;
}.

(** Inside the cycle that began at [start], standing at row [i]: row [i] is
    marked but still holds its original content. *)
Record cycle_inv (d0 : apop_data) (perm : list nat) (h : nat) (start : nat)
    (d : apop_data) (sorted : list nat) (i : nat) : Prop := {
  cycle_dims : dims d = dims d0;
  cycle_length : length sorted = h;
  cycle_i : i < h;
  cycle_start : start < h;
  cycle_marked_i : marked sorted i;
  cycle_marked_start : marked sorted start;
  cycle_done : ∀ j, j < h → marked sorted j → j ≠ i →
    marked sorted (perm !!! j) ∧
    Apop_data_row d j = Apop_data_row d0 (perm !!! j);
  cycle_todo : ∀ j, j < h → ¬ marked sorted j →
    Apop_data_row d j = Apop_data_row d0 j;
  cycle_here : Apop_data_row d i = Apop_data_row d0 i;
  cycle_closed : ∀ j, j < h → marked sorted (perm !!! j) →
    perm !!! j ≠ start → marked sorted j ∧ j ≠ i;
  cycle_before : ∀ j, j < start → j < h → marked sorted j;
}.

Arguments outer_dims {_ _ _ _ _ _}.
Arguments outer_length {_ _ _ _ _ _}.
Arguments outer_done {_ _ _ _ _ _}.
Arguments outer_todo {_ _ _ _ _ _}.
Arguments outer_closed {_ _ _ _ _ _}.
Arguments outer_before {_ _ _ _ _ _}.
Arguments cycle_length {_ _ _ _ _ _ _}.
Arguments cycle_i {_ _ _ _ _ _ _}.

(** ** Reference notions of the specification *)

(** The out-of-place application of a permutation, in the specification's
    words: every row [perm[i]] of the original is copied into row [i] of a
    fresh table of the same shape. *)
Definition permute_rows_naive (d : apop_data) (perm : list nat)
    (height : nat) : apop_data :=
  foldl (λ fresh i, apop_data_set_row fresh (Apop_data_row d (perm !!! i)) i)
    d (seq 0 height).

(** A well-formed input: consistent row counts, and the key selector names
    a component the data set has ([height] is the number of its rows). *)
Definition sortable (d : apop_data) (sortby : Z) (height : nat) : Prop :=
  well_formed d height ∧
  (if decide (sortby = (-1)%Z) then length <$> vector d
   else length <$> matrix d) = Some height ∧
  is_Some (sort_key d sortby).

(** The key value of a row. *)
Definition row_key (sortby : Z) (r : apop_data_row) : option double :=
  if decide (sortby = (-1)%Z) then row_vector r
  else row_matrix r ≫= (.!! Z.to_nat sortby).

(** ** The scenarios of the specification *)

(** Rows (3,"c"), (1,"a"), (2,"b"): the key in matrix column 0. *)
Definition scenario_table : apop_data :=
  {| vector := None;
     matrix := Some [[3%float]; [1%float]; [2%float]];
     text := Some [["c"%string]; ["a"%string]; ["b"%string]] |}.

(** Rows (NaN,"x"), (1,"a"), (NaN,"y"). *)
Definition nan_table : apop_data :=
  {| vector := None;
     matrix := Some [[GSL_NAN]; [1%float]; [GSL_NAN]];
     text := Some [["x"%string]; ["a"%string]; ["y"%string]] |}.

(** Two rows with the same key in the vector: (2,"a"), (2,"b"). *)
Definition tie_table : apop_data :=
  {| vector := Some [2%float; 2%float];
     matrix := None;
     text := Some [["a"%string]; ["b"%string]] |}.

(** The same two rows, exchanged. *)
Definition tie_table_swapped : apop_data :=
  {| vector := Some [2%float; 2%float];
     matrix := None;
     text := Some [["b"%string]; ["a"%string]] |}.

(** A memory that holds one data set, at address [p]. *)
Definition memory_with (p : nat) (d : apop_data) : memory :=
  {| tables := {[ p := d ]}; log := [] |}.

(** A run that never increases where its values are comparable. *)
Definition descending (w : list double) : Prop :=
  ∀ i j x y, i < j → w !! i = Some x → w !! j = Some y →
    isnan x = false → isnan y = false → lt x y = false.

(** "Already sorted by this key and direction". *)
Definition key_sorted (asc : ascii) (w : list double) : Prop :=
  if is_descending asc then descending w else ascending w.

End Apop.

(** ** [apop_generalized_harmonic] *)

Module Harmonic.
Import Double Gsl.

(** The static variables of the function: row [i] of [precalced] holds the
    sums for the exponent [eses[i]], [lengths[i]] of them when the row was
    made. *)
Record harmonic_state := Harmonic_state {
  eses : list double;
  lengths : list nat;
  count : nat;
  precalced : list (list double);
}.

(** [eses = NULL], [lengths = NULL], [count = 0], [precalced = NULL] *)
Definition harmonic_init : harmonic_state :=
  {| eses := []; lengths := []; count := 0; precalced := [] |}.

(** An [int] as a [double]. *)
Definition double_of_int (n : Z) : double :=
  PrimFloat.of_uint63 (Uint63.of_Z n).

(** [realloc]: the first [n] elements are kept, new ones hold [fill]. *)
Definition realloc {A} (fill : A) (l : list A) (n : nat) : list A :=
  take n l ++ replicate (n - length l) fill.

Section harmonic.

(** [pow] of the C library, and what [malloc] and [realloc] leave in fresh
    memory. *)
Variable pow : double → double → double.
Variable uninit : double.

(** [1/pow(n, s)] *)
Definition term (n : nat) (s : double) : double :=
  (1 / pow (double_of_int (Z.of_nat n)) s)%float.

(** [for (i=0; i< count; i++) if (eses == NULL || eses[i] == s) break;] *)
Fixpoint search_s (n : nat) (eses : list double) (s : double)
    (count i : nat) : nat :=
  match n with
  | 0 => i
  | S n' =>
      if decide (i < count) then
        if bool_decide (eses = []) || eq (eses !!! i) s then i
        else search_s n' eses s count (S i)
      else i
  end.

(** [for (j=old_len; j<N; j++)
      precalced[i][j] = precalced[i][j-1] + 1/pow((j+1),s);] *)
Fixpoint extend_row (steps : nat) (row : list double) (s : double)
    (j : nat) : list double :=
  match steps with
  | 0 => row
  | S steps' =>
      extend_row steps'
        (<[j := (row !!! (j - 1)%nat + term (j + 1)%nat s)%float]> row) s (S j)
  end.

(** The call on the state [st] of the static variables: the value returned
    and the state left behind.  (The diagnostic for [N <= 0] is not part of
    the model.) *)
Definition apop_generalized_harmonic (st : harmonic_state) (N : Z)
    (s : double) : double * harmonic_state :=
  if decide (N ≤ 0)%Z then (GSL_NAN, st)
  else
    let n := Z.to_nat N in
    let i := search_s (count st) (eses st) s (count st) 0 in
    let '(st, i, old_len) :=
      if decide (i = count st) then
        let count := S (count st) in
        let i := count - 1 in
        let precalced := realloc [] (precalced st) count in
        let lengths := realloc 0 (lengths st) count in
        let eses := realloc uninit (eses st) count in
        let precalced := <[i := replicate n uninit]> precalced in
        let lengths := <[i := n]> lengths in
        let eses := <[i := s]> eses in
        let precalced :=
          <[i := <[0 := 1%float]> (precalced !!! i)]> precalced in
        ({| eses := eses; lengths := lengths; count := count;
            precalced := precalced |}, i, 1)
      else (st, i, lengths st !!! i) in
    let st :=
      if decide (old_len ≤ n - 1) then
        let row := realloc uninit (precalced st !!! i) n in
        let row := extend_row (n - old_len) row s old_len in
        {| eses := eses st; lengths := lengths st; count := count st;
           precalced := <[i := row]> (precalced st) |}
      else st in
    ((precalced st !!! i) !!! (n - 1), st).

(** The states the static variables can be in: after any sequence of calls. *)
Inductive reachable : harmonic_state → Prop :=
  | reachable_init : reachable harmonic_init
  | reachable_call st N s :
      reachable st → reachable (apop_generalized_harmonic st N s).2.

(** The reference: the sum of [1/n^s] for [n] from 1 to [N], added in this
    order. *)
Fixpoint harmonic_sum (N : nat) (s : double) : double :=
  match N with
  | 0 => 0%float
  | S n => (harmonic_sum n s + term (S n) s)%float
  end.

(** The table is sound: every stored row starts with the sums for its
    exponent. *)
Record harmonic_inv (st : harmonic_state) : Prop := {
  inv_eses : length (eses st) = count st;
  inv_lengths : length (lengths st) = count st;
  inv_precalced : length (precalced st) = count st;
  inv_rows : ∀ i, i < count st →
    1 ≤ lengths st !!! i ∧
    lengths st !!! i ≤ length (precalced st !!! i) ∧
    ∀ k, k < lengths st !!! i →
      (precalced st !!! i) !!! k = harmonic_sum (S k) (eses st !!! i);
}.

End harmonic.

(** An instance of [pow], exact for the exponents 0, 1 and 2. *)
Definition pow_sample (x s : double) : double :=
  if eq s 0%float then 1%float
  else if eq x 1%float then 1%float
  else if eq s 1%float then x
  else if eq s 2%float then (x * x)%float
  else GSL_NAN.

End Harmonic.

(** ** [apop_vector_percentiles] *)

Module Percentiles.
Import Double Gsl.

(** Entry [i] of the result.  [q] is [i*(data->size-1)], so that the double
    [i*(data->size-1)/100.0] is [q/100]: its truncation to [int] is the
    integer quotient, and [index] differs from it when [100*index] is not
    [q]. *)
Definition percentile (sorted : gsl_vector) (size : nat) (rounding : ascii)
    (i : nat) : double :=
  let q := (Z.of_nat i * (Z.of_nat size - 1))%Z in
  let index := (q / 100)%Z in
  let index :=
    if (rounding =? "u")%char && negb (100 * index =? q)%Z
    then (index + 1)%Z else index in
  if (rounding =? "a")%char && negb (100 * index =? q)%Z
  then ((gsl_vector_get sorted (Z.to_nat index)
         + gsl_vector_get sorted (Z.to_nat index + 1)%nat) / 2)%float
  else gsl_vector_get sorted (Z.to_nat index).

Section percentiles.

(** [gsl_sort_vector] belongs to the GSL and is not part of the repository:
    it is a parameter.  The theorems say what they need of it. *)
Variable gsl_sort_vector : gsl_vector → gsl_vector.

(** The vectors of a call: the caller's [data] and the local [sorted]. *)
Record vectors := Vectors { v_data : gsl_vector; v_sorted : gsl_vector }.

(** [gsl_vector_memcpy(sorted, data)] and [gsl_sort_vector(sorted)] *)
Definition memcpy_sorted (vs : vectors) : vectors :=
  {| v_data := v_data vs; v_sorted := v_data vs |}.

Definition sort_sorted (vs : vectors) : vectors :=
  {| v_data := v_data vs; v_sorted := gsl_sort_vector (v_sorted vs) |}.

(** [apop_vector_percentiles(data, rounding)]: [None] is the [NULL] returned
    for [NULL] data; otherwise the 101 percentiles and the caller's vector
    as the call leaves it. *)
Definition apop_vector_percentiles (data : option gsl_vector)
    (rounding : option ascii) : option (list double * gsl_vector) :=
  match data with
  | None => None
  | Some data =>
      let rounding := default "d"%char rounding in
      let vs := {| v_data := data; v_sorted := replicate (length data) 0%float |} in
      let vs := memcpy_sorted vs in
      let vs := sort_sorted vs in
      let pctiles :=
        percentile (v_sorted vs) (length (v_data vs)) rounding <$> seq 0 101 in
      Some (pctiles, v_data vs)
  end.

End percentiles.

(** [m] is the minimum of the data: one of its entries, [<=] every entry. *)
Definition is_minimum (m : double) (data : gsl_vector) : Prop :=
  m ∈ data ∧ ∀ x, x ∈ data → le m x = true.

(** [m] is the maximum of the data: one of its entries, [>=] every entry. *)
Definition is_maximum (m : double) (data : gsl_vector) : Prop :=
  m ∈ data ∧ ∀ x, x ∈ data → le x m = true.

(** The run is in ascending order. *)
Definition in_order (w : gsl_vector) : Prop :=
  ∀ i j x y, i < j → w !! i = Some x → w !! j = Some y → le x y = true.

(** A sort for the examples: the vector read through the index sort. *)
Definition sort_sample (v : gsl_vector) : gsl_vector :=
  gsl_vector_get v <$> gsl_sort_vector_index v.

End Percentiles.

(** ** [count_parens] *)

Module Parens.

(** The loop of [count_parens], from the count [out] and the flag
    [last_was_backslash] it has reached. *)
Fixpoint count_parens_from (s : string) (out : nat)
    (last_was_backslash : bool) : nat :=
  match s with
  | EmptyString => out
  | String step s' =>
      if (step =? "\")%char && negb last_was_backslash
      then count_parens_from s' out true
      else
        let out :=
          if (step =? ")")%char && negb last_was_backslash
          then S out else out in
        count_parens_from s' out false
  end.

Definition count_parens (s : string) : nat := count_parens_from s 0 false.

(** The closing parentheses that stand after an even number of backslashes,
    [run] being the number of backslashes just before the string. *)
Fixpoint unescaped_parens (s : string) (run : nat) : nat :=
  match s with
  | EmptyString => 0
  | String c s' =>
      if (c =? "\")%char then unescaped_parens s' (S run)
      else (if (c =? ")")%char && Nat.even run then 1 else 0)
           + unescaped_parens s' 0
  end.

(** How often a character occurs in a string. *)
Fixpoint occurrences (c : ascii) (s : string) : nat :=
  match s with
  | EmptyString => 0
  | String c' s' => (if (c' =? c)%char then 1 else 0) + occurrences c s'
  end.

End Parens.

(** ** [apop_text_paste] *)

Module Paste.
Import Apop.

#[global] Instance string_inhabited : Inhabited string :=
  populate EmptyString.

(** [apop_tack_on(&in, addme)]: nothing for a [NULL] [addme]; a [NULL] [*in]
    counts as empty. *)
Definition apop_tack_on (in_ addme : option string) : option string :=
  match addme with
  | None => in_
  | Some a => Some (String.append (default EmptyString in_) a)
  end.

(** [textsize[0]] and [textsize[1]] of a data set: the text grid is
    rectangular, and both are 0 when there is no text. *)
Definition textsize0 (d : apop_data) : nat :=
  from_option length 0 (text d).

Definition textsize1 (d : apop_data) : nat :=
  from_option (λ t, from_option length 0 (head t)) 0 (text d).

(** [strings->text[i][j]] *)
Definition text_cell (d : apop_data) (i j : nat) : string :=
  (default [] (text d) !!! i) !!! j.

(** [apop_fn_riip]: the data set, the row and the column (the [void*]
    parameter is left out). *)
Definition apop_fn_riip := apop_data → nat → nat → Z.

(** [prune && !prune(strings, i, j, prune_parameter)] *)
Definition skipped (prune : option apop_fn_riip) (strings : apop_data)
    (i j : nat) : bool :=
  match prune with
  | Some f => bool_decide (f strings i j = 0%Z)
  | None => false
  end.

(** One turn of the inner loop, for column [j] of row [i]. *)
Definition paste_cell (strings : apop_data) (between_cols : string)
    (prune : option apop_fn_riip) (i : nat) (oneline : option string)
    (j : nat) : option string :=
  if skipped prune strings i j then oneline
  else
    let oneline := apop_tack_on oneline (Some (text_cell strings i j)) in
    if decide (j < textsize1 strings - 1)
    then apop_tack_on oneline (Some between_cols) else oneline.

(** One turn of the outer loop, for row [i]; the state is [prior_line],
    [oneline] and [out]. *)
Definition paste_line (strings : apop_data) (between between_cols : string)
    (prune : option apop_fn_riip)
    (st : option string * option string * option string) (i : nat) :
    option string * option string * option string :=
  let '(prior_line, _, out) := st in
  let oneline :=
    foldl (paste_cell strings between_cols prune i) None
      (seq 0 (textsize1 strings)) in
  let out := apop_tack_on out prior_line in
  let out :=
    if bool_decide (is_Some prior_line ∧ is_Some oneline)
    then apop_tack_on out (Some between) else out in
  (oneline, oneline, out).

(** The body of [apop_text_paste]: the string returned ([None] for [NULL])
    and what [Apop_notify(3, ...)] prints. *)
Definition apop_text_paste_base (opts : apop_opts_type) (strings : apop_data)
    (between : string) (before after : option string)
    (between_cols : string) (prune : option apop_fn_riip) :
    option string * list (option string) :=
  let '(_, oneline, out) :=
    foldl (paste_line strings between between_cols prune)
      (None, None, before) (seq 0 (textsize0 strings)) in
  let out := apop_tack_on out oneline in
  let out := apop_tack_on out after in
  (out, if decide (3 ≤ verbose opts)%Z then [out] else []).

(** [apop_text_paste] with its defaults: [between] is a space,
    [between_cols] is [between].  A [NULL] [strings] is dereferenced by the
    body: the call has no defined result ([None]). *)
Definition apop_text_paste (opts : apop_opts_type)
    (strings : option apop_data) (between before after between_cols :
      option string) (prune : option apop_fn_riip) :
    option (option string * list (option string)) :=
  let between := default " "%string between in
  let between_cols := default between between_cols in
  strings ← strings;
  Some (apop_text_paste_base opts strings between before after between_cols
          prune).

(** A text grid of [cols] columns. *)
Definition rectangular (d : apop_data) (grid : list (list string))
    (cols : nat) : Prop :=
  text d = Some grid ∧ Forall (λ row, length row = cols) grid.

(** The grid of two rows [a b] and [c d]. *)
Definition paste_table : apop_data :=
  {| vector := None; matrix := None;
     text := Some [["a"; "b"]; ["c"; "d"]]%string |}.

(** Keeps every cell except those of row [k]. *)
Definition prune_row (k : nat) : apop_fn_riip :=
  λ _ i _, if decide (i = k) then 0%Z else 1%Z.

(** Keeps every cell except those of column [k]. *)
Definition prune_col (k : nat) : apop_fn_riip :=
  λ _ _ j, if decide (j = k) then 0%Z else 1%Z.

End Paste.

(** ** [apop_vector_moving_average] *)

Module Smoothing.
Import Double Gsl.

(** The values [lo], [lo+1], ... a loop variable takes in [n] rounds. *)
Definition zseq (lo : Z) (n : nat) : list Z :=
  (λ k, (lo + Z.of_nat k)%Z) <$> seq 0 n.

(** One entry of the output:
    [for (j=-halfspan; j < halfspan+1; j ++)
        *item += gsl_vector_get(v, j+ i+ halfspan);
     *item /= halfspan*2 +1;] *)
Definition moving_item (v : gsl_vector) (halfspan i : nat) (item : double)
    : double :=
  let item :=
    foldl (λ item j,
             (item + gsl_vector_get v
                       (Z.to_nat (j + Z.of_nat i + Z.of_nat halfspan)))%float)
      item (zseq (- Z.of_nat halfspan) (2 * halfspan + 1)) in
  (item / Harmonic.double_of_int (Z.of_nat halfspan * 2 + 1))%float.

(** [apop_vector_moving_average(v, bandwidth)].  [Some None] is the [NULL]
    returned for a [NULL] vector.  [None] stands for the runs the model
    leaves out: a zero bandwidth, on which the second assertion fires, and a
    vector shorter than [halfspan*2], for which the unsigned size of the
    output wraps around. *)
Definition apop_vector_moving_average (v : option gsl_vector)
    (bandwidth : nat) : option (option gsl_vector) :=
  match v with
  | None => Some None
  | Some v =>
      if decide (bandwidth = 0) then None
      else
        let halfspan := bandwidth / 2 in
        if decide (halfspan * 2 ≤ length v) then
          let vout := replicate (length v - halfspan * 2) 0%float in
          Some (Some (foldl (λ vout i,
                               <[i := moving_item v halfspan i (vout !!! i)]>
                                 vout)
                        vout (seq 0 (length vout))))
        else None
  end.

(** The sum of a window, added from the left onto [0.0], over its length. *)
Definition window_mean (w : list double) : double :=
  (foldl (λ acc x, (acc + x)%float) 0%float w
   / Harmonic.double_of_int (Z.of_nat (length w)))%float.

End Smoothing.

(** ** [apop_beta_from_mean_var] *)

Module Beta.
Import Double.

(** What the caller gets: a copy of the Beta model with [error = 'r'], or
    the Beta model with its two parameters set. *)
Inductive beta_model :=
  | Range_error
  | Parameters (alpha beta : double).

Definition apop_beta_from_mean_var (m v : double) : beta_model :=
  if le 1%float m || le m 0%float then Range_error
  else
    let k := (m * (1 - m) / v - 1)%float in
    let alpha := (m * k)%float in
    let beta := (k * (1 - m))%float in
    Parameters alpha beta.

End Beta.

(** ** Matrices: [apop_covariance_matrix], [apop_matrix_increment],
       [apop_matrix_stack], [apop_matrix_rm_columns] *)

Module Matrix.
Import Double Gsl.

(** A [gsl_matrix]: [size1] rows of [size2] entries in a block of doubles in
    which row [i] starts at [i * tda]. *)
Record gsl_matrix := Gsl_matrix {
  size1 : nat;
  size2 : nat;
  tda : nat;
  data : list double;
}.

Definition set_data (m : gsl_matrix) (d : list double) : gsl_matrix :=
  {| size1 := size1 m; size2 := size2 m; tda := tda m; data := d |}.

(** The accessors of GSL (a library outside the repository), on the layout
    that [apop_matrix_increment] itself relies on: entry (i, j) is
    [data[i * tda + j]]. *)
Definition gsl_matrix_get (m : gsl_matrix) (i j : nat) : double :=
  data m !!! (i * tda m + j).

Definition gsl_matrix_set (m : gsl_matrix) (i j : nat) (x : double)
    : gsl_matrix :=
  set_data m (<[i * tda m + j := x]> (data m)).

(** [gsl_matrix_alloc] gives a block without padding whose entries all hold
    [fill], standing for what the allocator leaves there; [gsl_matrix_calloc]
    gives zeros. *)
Definition gsl_matrix_alloc (fill : double) (n1 n2 : nat) : gsl_matrix :=
  {| size1 := n1; size2 := n2; tda := n2; data := replicate (n1 * n2) fill |}.

Definition gsl_matrix_calloc (n1 n2 : nat) : gsl_matrix :=
  gsl_matrix_alloc 0%float n1 n2.

(** [gsl_matrix_column], [gsl_matrix_get_row]: the entries of a column, of a
    row. *)
Definition gsl_matrix_column (m : gsl_matrix) (j : nat) : gsl_vector :=
  (λ i, gsl_matrix_get m i j) <$> seq 0 (size1 m).

Definition gsl_matrix_get_row (m : gsl_matrix) (i : nat) : gsl_vector :=
  (λ j, gsl_matrix_get m i j) <$> seq 0 (size2 m).

Definition gsl_matrix_get_col (m : gsl_matrix) (j : nat) : gsl_vector :=
  gsl_matrix_column m j.

(** [gsl_matrix_set_row], [gsl_matrix_set_col]: entry after entry. *)
Definition gsl_matrix_set_row (m : gsl_matrix) (i : nat) (v : gsl_vector)
    : gsl_matrix :=
  foldl (λ m j, gsl_matrix_set m i j (gsl_vector_get v j)) m
    (seq 0 (size2 m)).

Definition gsl_matrix_set_col (m : gsl_matrix) (j : nat) (v : gsl_vector)
    : gsl_matrix :=
  foldl (λ m i, gsl_matrix_set m i j (gsl_vector_get v i)) m
    (seq 0 (size1 m)).

(** [gsl_matrix_set_col(m, j, &v.vector)] for the view [v] of column [i] of
    the same matrix: every entry is read from the matrix as it is when its
    turn comes. *)
Definition gsl_matrix_set_col_view (m : gsl_matrix) (j i : nat)
    : gsl_matrix :=
  foldl (λ m k, gsl_matrix_set m k j (gsl_matrix_get m k i)) m
    (seq 0 (size1 m)).

(** [gsl_matrix_scale]: every entry is multiplied by [x]. *)
Definition gsl_matrix_scale (m : gsl_matrix) (x : double) : gsl_matrix :=
  set_data m ((λ e, (e * x)%float) <$> data m).

(** [m->data[i * m->tda +j] += amt;] *)
Definition apop_matrix_increment (m : gsl_matrix) (i j : nat)
    (amt : double) : gsl_matrix :=
  let k := i * tda m + j in
  set_data m (<[k := (data m !!! k + amt)%float]> (data m)).

Section matrix.

(** What the allocator leaves in fresh memory, and the functions of the
    library that are not in the files at hand. *)
Variable uninit : double.
Variable apop_mean : gsl_vector → double.
Variable apop_normalize_matrix : gsl_matrix → gsl_matrix.
Variable gsl_blas_dgemm_trans : gsl_matrix → gsl_matrix → gsl_matrix
                                → gsl_matrix.

(** The body of the loops on [i] and [j]:
    [for(k=0; k< in->size1; k++) apop_matrix_increment(out, i, j, ...);
     if (i != j) gsl_matrix_set(out, j, i, gsl_matrix_get(out, i, j));] *)
Definition covariance_cell (in_ : gsl_matrix) (means : list double)
    (out : gsl_matrix) (i j : nat) : gsl_matrix :=
  let out :=
    foldl (λ out k,
             apop_matrix_increment out i j
               ((gsl_matrix_get in_ k i - means !!! i)
                * (gsl_matrix_get in_ k j - means !!! j))%float)
      out (seq 0 (size1 in_)) in
  if decide (i ≠ j) then gsl_matrix_set out j i (gsl_matrix_get out i j)
  else out.

(** [for(i=0; i< in->size2; i++){ v = gsl_matrix_column(in, i);
      means[i] = apop_mean(&(v.vector)); }] *)
Definition column_means (in_ : gsl_matrix) : list double :=
  foldl (λ means i, <[i := apop_mean (gsl_matrix_column in_ i)]> means)
    (replicate (size2 in_) uninit) (seq 0 (size2 in_)).

(** [apop_covariance_matrix(in, normalize)]: the matrix returned and the
    input as the call leaves it. *)
Definition apop_covariance_matrix (in_ : gsl_matrix) (normalize : Z)
    : gsl_matrix * gsl_matrix :=
  let '(out, in_) :=
    if decide (normalize ≠ 0)%Z then
      let out := gsl_matrix_alloc uninit (size2 in_) (size2 in_) in
      let in_ := apop_normalize_matrix in_ in
      (gsl_blas_dgemm_trans in_ in_ out, in_)
    else
      let out := gsl_matrix_calloc (size2 in_) (size2 in_) in
      let means := column_means in_ in
      let out :=
        foldl (λ out i,
                 foldl (λ out j, covariance_cell in_ means out i j) out
                   (seq i (size2 in_ - i)))
          out (seq 0 (size2 in_)) in
      (out, in_) in
  (gsl_matrix_scale out
     (1 / Harmonic.double_of_int (Z.of_nat (size2 in_)))%float,
   in_).

(** [apop_matrix_stack(m1, m2, posn)]; [None] is the [NULL] returned when
    the shapes do not fit.  (The message printed then is not part of the
    model.) *)
Definition apop_matrix_stack (m1 m2 : gsl_matrix) (posn : ascii)
    : option gsl_matrix :=
  if (posn =? "t")%char then
    if decide (size2 m1 ≠ size2 m2) then None
    else
      let out := gsl_matrix_alloc uninit (size1 m1 + size1 m2) (size2 m1) in
      let out :=
        foldl (λ out i, gsl_matrix_set_row out i (gsl_matrix_get_row m1 i))
          out (seq 0 (size1 m1)) in
      let out :=
        foldl (λ out i,
                 gsl_matrix_set_row out i
                   (gsl_matrix_get_row m2 (i - size1 m1)))
          out (seq (size1 m1) (size1 m2)) in
      Some out
  else
    if decide (size1 m1 ≠ size1 m2) then None
    else
      let out := gsl_matrix_alloc uninit (size1 m1) (size2 m1 + size2 m2) in
      let out :=
        foldl (λ out i, gsl_matrix_set_col out i (gsl_matrix_get_col m1 i))
          out (seq 0 (size2 m1)) in
      let out :=
        foldl (λ out i,
                 gsl_matrix_set_col out i
                   (gsl_matrix_get_col m2 (i - size2 m1)))
          out (seq (size2 m1) (size2 m2)) in
      Some out.

(** [apop_matrix_rm_columns(in, use)]: the matrix returned and the input as
    the call leaves it. *)
Definition apop_matrix_rm_columns (in_ : gsl_matrix) (use : list Z)
    : gsl_matrix * gsl_matrix :=
  let ct :=
    foldl (λ ct i, if decide (use !!! i ≠ 0%Z) then S ct else ct) 0
      (seq 0 (size2 in_)) in
  let out := gsl_matrix_alloc uninit (size1 in_) ct in
  let '(in_, j) :=
    foldl (λ '(in_, j) i,
             if decide (use !!! i ≠ 0%Z)
             then (gsl_matrix_set_col_view in_ j i, S j)
             else (in_, j))
      (in_, 0) (seq 0 (size2 in_)) in
  (out, in_).

(** The sum the loop on [k] builds for the cell (i, j), from [start]. *)
Definition deviation_sum (in_ : gsl_matrix) (i j : nat) (start : double)
    : double :=
  foldl (λ acc k,
           (acc + (gsl_matrix_get in_ k i
                   - apop_mean (gsl_matrix_column in_ i))
                  * (gsl_matrix_get in_ k j
                     - apop_mean (gsl_matrix_column in_ j)))%float)
    start (seq 0 (size1 in_)).

(** Between two cells of the covariance loops: the cells (a, b) and (b, a)
    with [done_ a b] hold the sum for (a, b), the others are still zero. *)
Record covariance_inv (in_ : gsl_matrix) (done_ : nat → nat → Prop)
    (out : gsl_matrix) : Prop := {
  cov_tda : tda out = size2 in_;
  cov_length : length (data out) = size2 in_ * size2 in_;
  cov_done : ∀ a b, a ≤ b → b < size2 in_ → done_ a b →
    gsl_matrix_get out a b = deviation_sum in_ a b 0%float ∧
    gsl_matrix_get out b a = deviation_sum in_ a b 0%float;
  cov_todo : ∀ a b, a ≤ b → b < size2 in_ → ¬ done_ a b →
    gsl_matrix_get out a b = 0%float ∧ gsl_matrix_get out b a = 0%float;
}.

End matrix.

(** [gsl_vector_mul(&v.vector, d)] for the view [v] of column [i], of
    row [i]: entry after entry, in place. *)
Definition mul_column (m : gsl_matrix) (i : nat) (d : gsl_vector)
    : gsl_matrix :=
  foldl (λ m k,
           gsl_matrix_set m k i
             (gsl_matrix_get m k i * gsl_vector_get d k)%float)
    m (seq 0 (size1 m)).

Definition mul_row (m : gsl_matrix) (i : nat) (d : gsl_vector)
    : gsl_matrix :=
  foldl (λ m k,
           gsl_matrix_set m i k
             (gsl_matrix_get m i k * gsl_vector_get d k)%float)
    m (seq 0 (size2 m)).

Section svd.

(** [pow] of the C library. *)
Variable pow : double → double → double.

(** [for (i=0; i<diagonal->size; i++)
      gsl_vector_set(diagonal, i, pow(gsl_vector_get(diagonal,i), .5));] *)
Definition root_diagonal (diagonal : gsl_vector) : gsl_vector :=
  foldl (λ d i, <[i := pow (gsl_vector_get d i) 0.5%float]> d) diagonal
    (seq 0 (length diagonal)).

(** [apop_normalize_for_svd(in)], for a square matrix (on another one GSL
    refuses the copy of the diagonal or the product with a row). *)
Definition apop_normalize_for_svd (in_ : gsl_matrix) : gsl_matrix :=
  let v := (λ k, gsl_matrix_get in_ k k) <$> seq 0 (size1 in_) in
  let diagonal := root_diagonal v in
  foldl (λ in_ i, mul_row (mul_column in_ i diagonal) i diagonal) in_
    (seq 0 (length diagonal)).

(** Entry (a, b) after the columns and rows before [c] were multiplied:
    [x] is the entry at the start, [da] and [db] the roots of the diagonal
    entries of row [a] and of column [b]. *)
Definition scaled_entry (c a b : nat) (x da db : double) : double :=
  if decide (b < c) then
    if decide (a < c) then
      if decide (b ≤ a) then (x * da * db)%float else (x * db * da)%float
    else (x * da)%float
  else
    if decide (a < c) then (x * db)%float else x.

End svd.

(** The sizes of a matrix and of its block. *)
Definition shape (m : gsl_matrix) : nat * nat * nat * nat :=
  (size1 m, size2 m, tda m, length (data m)).

(** A block that holds all its rows, without overlap. *)
Definition valid (m : gsl_matrix) : Prop :=
  size2 m ≤ tda m ∧ size1 m * tda m ≤ length (data m).

(** The columns [use] keeps, in order. *)
Definition kept_columns (use : list Z) (n : nat) : list nat :=
  filter (λ i, use !!! i ≠ 0%Z) (seq 0 n).

End Matrix.

(** ** [apop_rng_GHgB3] *)

Module Rng.
Import Double.

(** An [unsigned int] stored in an [int], as in [int p = gsl_ran_poisson(...)]:
    a value above [INT_MAX] comes back negative. *)
Definition int_of_unsigned (u : Z) : Z :=
  let u := (u mod 2 ^ 32)%Z in
  if decide (u < 2 ^ 31)%Z then u else (u - 2 ^ 32)%Z.

(** An [int] returned as a [double]. *)
Definition double_of_signed (p : Z) : double :=
  if decide (p < 0)%Z then (- Harmonic.double_of_int (- p))%float
  else Harmonic.double_of_int p.

Section rng.

(** The generator and the draws of GSL: each takes the state of the
    generator and gives the value drawn and the state after it;
    [gsl_ran_poisson] gives an [unsigned int]. *)
Variable gsl_rng : Type.
Variable gsl_ran_gamma : gsl_rng → double → double → double * gsl_rng.
Variable gsl_ran_poisson : gsl_rng → double → Z * gsl_rng.

(** [apop_rng_GHgB3(r, a)] for the array [a] of three parameters: the value
    returned and the generator after the call. *)
Definition apop_rng_GHgB3 (r : gsl_rng) (a : list double)
    : double * gsl_rng :=
  if negb (lt 0%float (a !!! 0) && lt 0%float (a !!! 1)
           && lt 0%float (a !!! 2))
  then (GSL_NAN, r)
  else
    let '(aa, r) := gsl_ran_gamma r (a !!! 0) 1%float in
    let '(b, r) := gsl_ran_gamma r (a !!! 1) 1%float in
    let '(c, r) := gsl_ran_gamma r (a !!! 2) 1%float in
    let '(drawn, r) := gsl_ran_poisson r (aa * b / c)%float in
    let p := int_of_unsigned drawn in
    (double_of_signed p, r).

End rng.

End Rng.

(** * Properties *)

(** ** IEEE 754 comparisons *)

Module DoubleFacts.
Import Double.

(** Case analysis on the integer comparisons inside [SFcompare]. *)
Ltac cmp_cases :=
  repeat match goal with
  | |- context [Z.compare ?a ?b] => destruct (Z.compare_spec a b); subst
  | H : context [Z.compare ?a ?b] |- _ =>
      destruct (Z.compare_spec a b); subst
  | |- context [Pos.compare_cont Eq ?a ?b] =>
      change (Pos.compare_cont Eq a b) with (Pos.compare a b);
      destruct (Pos.compare_spec a b); subst
  | H : context [Pos.compare_cont Eq ?a ?b] |- _ =>
      change (Pos.compare_cont Eq a b) with (Pos.compare a b) in H;
      destruct (Pos.compare_spec a b); subst
  end.

Ltac sf_cases x := destruct x as [[]|[]| |[] ? ?].

Lemma SFcompare_refl (x : spec_float) :
  x ≠ S754_nan → SFcompare x x = Some Eq.
Proof.
  destruct x as [[]|[]| |[] m e]; simpl; try done; intros _.
  - by rewrite Z.compare_refl, Pos.compare_cont_refl.
  - by rewrite Z.compare_refl, Pos.compare_cont_refl.
Qed.

Lemma isnan_spec (x : double) : isnan x = true ↔ Prim2SF x = S754_nan.
Proof.
  unfold isnan, is_nan. rewrite FloatAxioms.eqb_spec. unfold SFeqb. split.
  - intros H. destruct (Prim2SF x) eqn:E; try done;
      rewrite SFcompare_refl in H; done.
  - intros ->. done.
Qed.

Lemma isnan_false (x : double) : isnan x = false ↔ Prim2SF x ≠ S754_nan.
Proof.
  rewrite <- isnan_spec. destruct (isnan x); split; done.
Qed.

Lemma SFltb_negtrans (x y z : spec_float) :
  y ≠ S754_nan → SFltb y x = false → SFltb z y = false → SFltb z x = false.
Proof.
  unfold SFltb. sf_cases x; sf_cases y; sf_cases z; simpl; try done;
    intros _; cmp_cases; simpl; try done; try lia.
Qed.

Lemma SFltb_asym (x y : spec_float) : SFltb x y = true → SFltb y x = false.
Proof.
  unfold SFltb. sf_cases x; sf_cases y; simpl; try done;
    cmp_cases; simpl; try done; try lia.
Qed.

Lemma SFleb_ltb (x y : spec_float) :
  x ≠ S754_nan → y ≠ S754_nan → SFleb x y = negb (SFltb y x).
Proof.
  unfold SFleb, SFltb. sf_cases x; sf_cases y; simpl; try done;
    intros _ _; cmp_cases; simpl; try done; try lia.
Qed.

Lemma SFeqb_compat (x y z : spec_float) :
  SFeqb x y = true → SFeqb x z = SFeqb y z ∧ SFltb x z = SFltb y z.
Proof.
  unfold SFeqb, SFltb. sf_cases x; sf_cases y; sf_cases z; simpl; try done;
    cmp_cases; simpl; try done; try lia.
Qed.

(** A NaN compares false with everything. *)
Lemma lt_nan_l (x y : double) : isnan x = true → lt x y = false.
Proof.
  intros H%isnan_spec. unfold lt. rewrite ltb_spec, H. done.
Qed.

Lemma lt_nan_r (x y : double) : isnan y = true → lt x y = false.
Proof.
  intros H%isnan_spec. unfold lt. rewrite ltb_spec, H.
  unfold SFltb. by destruct (Prim2SF x).
Qed.

Lemma lt_asym (x y : double) : lt x y = true → lt y x = false.
Proof. unfold lt. rewrite !ltb_spec. apply SFltb_asym. Qed.

Lemma lt_irrefl (x : double) : lt x x = false.
Proof.
  destruct (lt x x) eqn:E; [|done]. by rewrite (lt_asym _ _ E) in E.
Qed.

(** [<] is negatively transitive through a comparable middle value. *)
Lemma lt_negtrans (x y z : double) :
  isnan y = false → lt y x = false → lt z y = false → lt z x = false.
Proof.
  unfold lt. rewrite !ltb_spec, isnan_false. apply SFltb_negtrans.
Qed.

Lemma lt_trans (x y z : double) : lt x y = true → lt y z = true → lt x z = true.
Proof.
  intros Hxy Hyz. destruct (lt x z) eqn:E; [done|].
  assert (isnan x = false) as Hx.
  { destruct (isnan x) eqn:Hn; [|done]. by rewrite lt_nan_l in Hxy. }
  rewrite (lt_negtrans z x y Hx E (lt_asym _ _ Hxy)) in Hyz. done.
Qed.

(** On comparable values [<=] is the negation of [>]. *)
Lemma le_not_lt (x y : double) :
  isnan x = false → isnan y = false → le x y = negb (lt y x).
Proof.
  unfold le, lt. rewrite leb_spec, ltb_spec, !isnan_false. apply SFleb_ltb.
Qed.

Lemma le_nan_l (y : double) : le GSL_NAN y = false.
Proof. unfold le. rewrite leb_spec. by destruct (Prim2SF y). Qed.

Lemma le_nan_r (x : double) : le x GSL_NAN = false.
Proof.
  unfold le. rewrite leb_spec. by destruct (Prim2SF x) as [| | |[] ? ?].
Qed.

Lemma le_refl (x : double) : isnan x = false → le x x = true.
Proof. intros Hx. rewrite le_not_lt by done. by rewrite lt_irrefl. Qed.

(** Values that compare [==] behave alike in later comparisons. *)
Lemma eq_compat (x y z : double) :
  eq x y = true → eq x z = eq y z ∧ lt x z = lt y z.
Proof.
  unfold eq, lt. rewrite !FloatAxioms.eqb_spec, !ltb_spec. apply SFeqb_compat.
Qed.

End DoubleFacts.

(** ** The index sort *)

Module GslFacts.
Import Double DoubleFacts Gsl.

Section index_sort.
Variable v : gsl_vector.

Lemma insert_index_perm x p : insert_index v x p ≡ₚ x :: p.
Proof.
  induction p as [|y p IH]; simpl; [done|].
  destruct (lt _ _); [|done]. rewrite IH. apply Permutation_swap.
Qed.

Lemma sort_slots_perm l : sort_slots v l ≡ₚ l.
Proof.
  induction l as [|x l IH]; simpl; [done|].
  rewrite insert_index_perm. by f_equiv.
Qed.

Lemma insert_index_sorted x p :
  comparable v x → Forall (comparable v) p →
  StronglySorted (ngt v) p → StronglySorted (ngt v) (insert_index v x p).
Proof.
  intros Hx. induction p as [|y p IH]; simpl; intros Hp Hs.
  - repeat constructor.
  - apply Forall_cons in Hp as [Hy Hp].
    apply StronglySorted_inv in Hs as [Hs Hall].
    destruct (lt (gsl_vector_get v y) (gsl_vector_get v x)) eqn:E.
    + constructor; [by apply IH|].
      rewrite insert_index_perm. constructor; [|done].
      by apply lt_asym.
    + constructor; [by constructor|].
      constructor; [done|].
      eapply Forall_impl; [exact Hall|]. intros z Hz.
      unfold ngt in *. by apply (lt_negtrans _ (gsl_vector_get v y)).
Qed.

Lemma sort_slots_sorted l :
  Forall (comparable v) l → StronglySorted (ngt v) (sort_slots v l).
Proof.
  induction l as [|x l IH]; simpl; intros Hl; [constructor|].
  apply Forall_cons in Hl as [Hx Hl].
  apply insert_index_sorted; [done| |by apply IH].
  by rewrite sort_slots_perm.
Qed.

(** Sorting what is already in order changes nothing (stability). *)
Lemma sort_slots_id l : StronglySorted (ngt v) l → sort_slots v l = l.
Proof.
  induction 1 as [|x l Hs IH Hall]; simpl; [done|].
  rewrite IH. destruct l as [|y l]; simpl; [done|].
  apply Forall_cons in Hall as [Hy _]. unfold ngt in Hy. by rewrite Hy.
Qed.

Lemma insert_index_last x p :
  Forall (λ y, lt (gsl_vector_get v y) (gsl_vector_get v x) = true) p →
  insert_index v x p = p ++ [x].
Proof.
  induction 1 as [|y p Hy _ IH]; simpl; [done|]. by rewrite Hy, IH.
Qed.

(** Sorting a strictly decreasing run reverses it. *)
Lemma sort_slots_reverse l :
  StronglySorted
    (λ a b, lt (gsl_vector_get v b) (gsl_vector_get v a) = true) l →
  sort_slots v l = reverse l.
Proof.
  induction 1 as [|x l Hs IH Hall]; simpl; [done|].
  rewrite IH, reverse_cons. apply insert_index_last.
  by rewrite Forall_reverse.
Qed.
Lemma elem_of_comparable_slots w k a :
  a ∈ comparable_slots w k ↔
  ∃ i x, a = k + i ∧ w !! i = Some x ∧ isnan x = false.
Proof.
  revert k. induction w as [|y w IH]; intros k; simpl.
  - split; [by intros ?%elem_of_nil|]. by intros (i & x & _ & ? & _).
  - destruct (isnan y) eqn:E; [|rewrite elem_of_cons]; rewrite IH; split.
    + intros (i & x & -> & ? & ?). exists (S i), x. split; [lia|done].
    + intros ([|i] & x & -> & Hi & Hx); simplify_eq/=; [congruence|].
      exists i, x. split; [lia|done].
    + intros [->|(i & x & -> & ? & ?)].
      * exists 0, y. split; [lia|done].
      * exists (S i), x. split; [lia|done].
    + intros ([|i] & x & -> & Hi & Hx); simplify_eq/=.
      * left. lia.
      * right. exists i, x. split; [lia|done].
Qed.

Lemma elem_of_nan_slots w k a :
  a ∈ nan_slots w k ↔ ∃ i x, a = k + i ∧ w !! i = Some x ∧ isnan x = true.
Proof.
  revert k. induction w as [|y w IH]; intros k; simpl.
  - split; [by intros ?%elem_of_nil|]. by intros (i & x & _ & ? & _).
  - destruct (isnan y) eqn:E; [rewrite elem_of_cons|]; rewrite IH; split.
    + intros [->|(i & x & -> & ? & ?)].
      * exists 0, y. split; [lia|done].
      * exists (S i), x. split; [lia|done].
    + intros ([|i] & x & -> & Hi & Hx); simplify_eq/=.
      * left. lia.
      * right. exists i, x. split; [lia|done].
    + intros (i & x & -> & ? & ?). exists (S i), x. split; [lia|done].
    + intros ([|i] & x & -> & Hi & Hx); simplify_eq/=; [congruence|].
      exists i, x. split; [lia|done].
Qed.

Lemma get_drop w k i x :
  drop k v = w → w !! i = Some x → gsl_vector_get v (k + i) = x.
Proof.
  intros <- Hi. rewrite lookup_drop in Hi.
  by apply list_lookup_total_correct.
Qed.

Lemma comparable_slots_comparable w k :
  drop k v = w → Forall (comparable v) (comparable_slots w k).
Proof.
  intros Hw. apply Forall_forall. intros a (i & x & -> & Hi & Hx)%elem_of_comparable_slots.
  unfold comparable. by rewrite (get_drop w k i x).
Qed.

Lemma slots_perm w k :
  nan_slots w k ++ comparable_slots w k ≡ₚ seq k (length w).
Proof.
  revert k. induction w as [|y w IH]; intros k; simpl; [done|].
  destruct (isnan y); simpl.
  - by rewrite IH.
  - by rewrite <- Permutation_middle, IH.
Qed.

Lemma length_comparable_slots w k k' :
  length (comparable_slots w k) = length (comparable_slots w k').
Proof.
  revert k k'. induction w as [|y w IH]; intros k k'; simpl; [done|].
  destruct (isnan y); simpl; auto.
Qed.

Lemma place_perm w k ok :
  length ok = length (comparable_slots w k) →
  place w k ok ≡ₚ nan_slots w k ++ ok.
Proof.
  revert k ok. induction w as [|y w IH]; intros k ok; simpl.
  - by intros ->%nil_length_inv.
  - destruct (isnan y); simpl; intros Hlen.
    + by rewrite IH.
    + destruct ok as [|o ok]; [done|]. simpl in Hlen.
      rewrite IH by lia. apply Permutation_middle.
Qed.

Lemma length_place w k ok : length (place w k ok) = length w.
Proof.
  revert k ok. induction w as [|y w IH]; intros k ok; simpl; [done|].
  destruct (isnan y); [|destruct ok]; simpl; by rewrite IH.
Qed.

Lemma place_nan w k ok i x :
  w !! i = Some x → isnan x = true → place w k ok !! i = Some (k + i).
Proof.
  revert k ok i. induction w as [|y w IH]; intros k ok [|i] Hi Hx;
    simplify_eq/=.
  - rewrite Hx. simpl. f_equal. lia.
  - replace (k + S i) with (S k + i) by lia.
    destruct (isnan y); [|destruct ok]; simpl; by apply IH.
Qed.

Lemma place_sorted w k ok :
  drop k v = w → length ok = length (comparable_slots w k) →
  Forall (comparable v) ok → StronglySorted (ngt v) ok →
  StronglySorted (ordered v) (place w k ok).
Proof.
  revert k ok. induction w as [|y w IH]; intros k ok Hw Hlen Hok Hs; simpl.
  { constructor. }
  assert (drop (S k) v = w) as Hw'.
  { replace (S k) with (k + 1) by lia. by rewrite <- drop_drop, Hw. }
  assert (gsl_vector_get v k = y) as Hk.
  { replace k with (k + 0) by lia. by apply (get_drop (y :: w)). }
  simpl in Hlen. destruct (isnan y) eqn:E.
  - constructor; [by apply IH|].
    apply Forall_forall. intros b _ Hc. unfold comparable in Hc. congruence.
  - destruct ok as [|o ok]; [done|]. simpl in Hlen.
    apply Forall_cons in Hok as [Ho Hok].
    apply StronglySorted_inv in Hs as [Hs Hall].
    constructor; [apply IH; [done|lia|done|done]|].
    rewrite place_perm by lia. apply Forall_app. split.
    + apply Forall_forall.
      intros b (i & x & -> & Hi & Hx)%elem_of_nan_slots _ Hb.
      unfold comparable in Hb. rewrite (get_drop w (S k) i x) in Hb; congruence.
    + eapply Forall_impl; [exact Hall|]. by intros b Hb _ _.
Qed.

Lemma place_comparable_slots w k :
  place w k (comparable_slots w k) = seq k (length w).
Proof.
  revert k. induction w as [|y w IH]; intros k; simpl; [done|].
  destruct (isnan y); simpl; by rewrite IH.
Qed.

Lemma ascending_tail y w : ascending (y :: w) → ascending w.
Proof.
  intros H i j a b Hij Hi Hj. apply (H (S i) (S j)); [lia|done|done].
Qed.

Lemma comparable_slots_sorted w k :
  drop k v = w → ascending w → StronglySorted (ngt v) (comparable_slots w k).
Proof.
  revert k. induction w as [|y w IH]; intros k Hw Hasc; simpl.
  { constructor. }
  assert (drop (S k) v = w) as Hw'.
  { replace (S k) with (k + 1) by lia. by rewrite <- drop_drop, Hw. }
  assert (gsl_vector_get v k = y) as Hk.
  { replace k with (k + 0) by lia. by apply (get_drop (y :: w)). }
  destruct (isnan y) eqn:E; [by eapply IH, ascending_tail|].
  constructor; [by eapply IH, ascending_tail|].
  apply Forall_forall. intros b (i & x & -> & Hi & Hx)%elem_of_comparable_slots.
  unfold ngt. rewrite Hk, (get_drop w (S k) i x) by done.
  by apply (Hasc 0 (S i)); [lia|done|done|done|done].
Qed.
Lemma comparable_slots_all w k :
  Forall (λ x, isnan x = false) w → comparable_slots w k = seq k (length w).
Proof.
  intros Hw. revert k. induction Hw as [|y w Hy _ IH]; intros k; simpl; [done|].
  by rewrite Hy, IH.
Qed.

Lemma place_all w k ok :
  Forall (λ x, isnan x = false) w → length ok = length w → place w k ok = ok.
Proof.
  intros Hw. revert k ok.
  induction Hw as [|y w Hy _ IH]; intros k ok Hlen; simpl.
  - symmetry. by apply nil_length_inv.
  - rewrite Hy. destruct ok as [|o ok]; [done|]. simpl in *. rewrite IH; [done|lia].
Qed.
End index_sort.

Lemma StronglySorted_lookup {A} (R : relation A) (l : list A) i j a b :
  StronglySorted R l → i < j → l !! i = Some a → l !! j = Some b → R a b.
Proof.
  intros Hs. revert i j. induction Hs as [|x l Hs IH Hall]; intros i j Hij Hi Hj.
  { by rewrite lookup_nil in Hi. }
  destruct j as [|j]; [lia|]. destruct i as [|i]; simplify_eq/=.
  - eapply Forall_forall; [exact Hall|]. by eapply list_elem_of_lookup_2.
  - apply (IH i j); [lia|done|done].
Qed.

Lemma StronglySorted_seq (R : relation nat) k n :
  (∀ a b, k ≤ a → a < b → b < k + n → R a b) → StronglySorted R (seq k n).
Proof.
  revert k. induction n as [|n IH]; intros k HR; simpl; constructor.
  - apply IH. intros a b ???. apply HR; lia.
  - apply Forall_forall. intros b [? ?]%elem_of_seq. apply HR; lia.
Qed.

Lemma length_gsl_sort_vector_index (v : gsl_vector) :
  length (gsl_sort_vector_index v) = length v.
Proof. apply length_place. Qed.

Lemma gsl_sort_vector_index_perm (v : gsl_vector) :
  gsl_sort_vector_index v ≡ₚ seq 0 (length v).
Proof.
  unfold gsl_sort_vector_index. rewrite place_perm.
  - by rewrite sort_slots_perm, slots_perm.
  - by rewrite sort_slots_perm.
Qed.

(** A NaN is left at its original position. *)
Lemma gsl_sort_vector_index_nan (v : gsl_vector) i x :
  v !! i = Some x → isnan x = true → gsl_sort_vector_index v !! i = Some i.
Proof. intros Hi Hx. by apply (place_nan v 0 _ i x). Qed.

(** The comparable values come out in ascending order. *)
Lemma gsl_sort_vector_index_sorted (v : gsl_vector) :
  StronglySorted (ordered v) (gsl_sort_vector_index v).
Proof.
  apply place_sorted.
  - done.
  - by rewrite sort_slots_perm.
  - rewrite sort_slots_perm. by apply comparable_slots_comparable.
  - apply sort_slots_sorted. by apply comparable_slots_comparable.
Qed.

(** Stability: a vector already in ascending order gets the identity. *)
Lemma gsl_sort_vector_index_ascending (v : gsl_vector) :
  ascending v → gsl_sort_vector_index v = seq 0 (length v).
Proof.
  intros Hv. unfold gsl_sort_vector_index.
  rewrite sort_slots_id by by apply comparable_slots_sorted.
  apply place_comparable_slots.
Qed.

(** A strictly decreasing vector gets the reversal. *)
Lemma gsl_sort_vector_index_descending (v : gsl_vector) :
  Forall (λ x, isnan x = false) v → strictly_descending v →
  gsl_sort_vector_index v = reverse (seq 0 (length v)).
Proof.
  intros Hn Hv. unfold gsl_sort_vector_index.
  rewrite comparable_slots_all by done.
  rewrite place_all; [|done|by rewrite sort_slots_perm, length_seq].
  apply sort_slots_reverse, StronglySorted_seq. intros a b _ Hab Hb.
  destruct (lookup_lt_is_Some_2 v a) as [x Hx]; [lia|].
  destruct (lookup_lt_is_Some_2 v b) as [y Hy]; [lia|].
  unfold gsl_vector_get.
  rewrite (list_lookup_total_correct _ _ _ Hx), (list_lookup_total_correct _ _ _ Hy).
  by apply (Hv a b).
Qed.

End GslFacts.

(** ** Rows of a data set *)

Module ApopFacts.
Import Double DoubleFacts Gsl GslFacts Apop.

Lemma set_entry_length {A} (c : option (list A)) x i :
  length <$> set_entry c x i = length <$> c.
Proof.
  destruct x as [a|], c as [l|]; simpl; try done. by rewrite length_insert.
Qed.

Lemma set_entry_lookup_ne {A} (c : option (list A)) x i j :
  i ≠ j → set_entry c x i ≫= (.!! j) = c ≫= (.!! j).
Proof.
  intros Hij. destruct x as [a|], c as [l|]; simpl; try done.
  by apply list_lookup_insert_ne.
Qed.

Lemma set_entry_lookup_eq {A} (c0 c : option (list A)) h i j :
  length <$> c0 = length <$> c → length <$> c = None ∨ length <$> c = Some h →
  i < h → j < h →
  set_entry c (c0 ≫= (.!! j)) i ≫= (.!! i) = c0 ≫= (.!! j).
Proof.
  intros Hlen Hh Hi Hj. destruct c0 as [l0|], c as [l|]; simplify_eq/=; [|done].
  destruct Hh as [|Hh]; simplify_eq/=.
  destruct (lookup_lt_is_Some_2 l0 j) as [a Ha]; [lia|].
  rewrite Ha. simpl. apply list_lookup_insert_eq. lia.
Qed.

Lemma component_ext {A} (c1 c2 : option (list A)) h :
  length <$> c1 = length <$> c2 → length <$> c1 = None ∨ length <$> c1 = Some h →
  (∀ i, i < h → c1 ≫= (.!! i) = c2 ≫= (.!! i)) → c1 = c2.
Proof.
  intros Hlen Hh Hrows. destruct c1 as [l1|], c2 as [l2|]; simplify_eq/=; [|done].
  destruct Hh as [|Hh]; simplify_eq/=. f_equal. apply list_eq. intros i.
  destruct (decide (i < length l1)) as [Hi|Hi]; [by apply Hrows|].
  rewrite !lookup_ge_None_2; [done|lia..].
Qed.

Lemma dims_set_row d r i : dims (apop_data_set_row d r i) = dims d.
Proof. unfold dims. simpl. by rewrite !set_entry_length. Qed.

Lemma well_formed_dims d1 d2 h :
  dims d1 = dims d2 → well_formed d1 h → well_formed d2 h.
Proof.
  unfold well_formed, dims. intros [= Hv Hm Ht]. by rewrite Hv, Hm, Ht.
Qed.

Lemma row_set_row_ne d r i j :
  i ≠ j → Apop_data_row (apop_data_set_row d r i) j = Apop_data_row d j.
Proof.
  intros Hij. unfold Apop_data_row. simpl.
  f_equal; by apply set_entry_lookup_ne.
Qed.

Lemma row_set_row_eq d0 d h i j :
  dims d0 = dims d → well_formed d h → i < h → j < h →
  Apop_data_row (apop_data_set_row d (Apop_data_row d0 j) i) i
  = Apop_data_row d0 j.
Proof.
  intros Hdims (Hv & Hm & Ht) Hi Hj.
  unfold dims in Hdims. simplify_eq. unfold Apop_data_row. simpl.
  f_equal; by apply (set_entry_lookup_eq _ _ h).
Qed.

(** Data sets of the same shape with the same rows are equal. *)
Lemma apop_data_ext d1 d2 h :
  dims d1 = dims d2 → well_formed d1 h →
  (∀ i, i < h → Apop_data_row d1 i = Apop_data_row d2 i) → d1 = d2.
Proof.
  intros Hdims (Hv & Hm & Ht) Hrows.
  unfold dims in Hdims. simplify_eq.
  destruct d1 as [v1 m1 t1], d2 as [v2 m2 t2]; simpl in *.
  f_equal; eapply component_ext; try done; intros i Hi;
    specialize (Hrows i Hi); unfold Apop_data_row in Hrows; by simplify_eq/=.
Qed.

(** ** Markers and the scan for the next unplaced row *)

Lemma marked_insert sorted p x j :
  p < length sorted →
  marked (<[p := S x]> sorted) j ↔ j = p ∨ marked sorted j.
Proof.
  intros Hp. unfold marked. rewrite list_lookup_total_insert.
  case_decide as H; [|split; [tauto|intros [->|?]; [|done]]].
  - destruct H as [-> _]. split; [by left|done].
  - destruct H. done.
Qed.

Lemma unmarked_insert sorted p x :
  p < length sorted → ¬ marked sorted p →
  S (unmarked (<[p := S x]> sorted)) = unmarked sorted.
Proof.
  unfold marked, unmarked. revert p.
  induction sorted as [|y sorted IH]; intros [|p] Hp Hm; simpl in *; try lia.
  - assert (y = 0) as -> by (destruct y; [done|by destruct Hm]).
    rewrite !filter_cons. repeat case_decide; simpl; try done; lia.
  - rewrite !filter_cons. case_decide; simpl; rewrite <- (IH p);
      try done; lia.
Qed.

Lemma unmarked_replicate n : unmarked (replicate n 0) = n.
Proof.
  unfold unmarked. induction n as [|n IH]; [done|].
  change (replicate (S n) 0) with (0 :: replicate n 0).
  rewrite filter_cons_True by done. simpl. by rewrite IH.
Qed.

Lemma find_min_unsorted_loop_spec n sorted height min :
  height - min ≤ n →
  let r := find_min_unsorted_loop n sorted height min in
  (r = (-1)%Z ∧ ∀ j, min ≤ j → j < height → marked sorted j) ∨
  (∃ s, r = Z.of_nat s ∧ min ≤ s ∧ s < height ∧ ¬ marked sorted s ∧
        ∀ j, min ≤ j → j < s → marked sorted j).
Proof.
  revert min. induction n as [|n IH]; intros min Hn; simpl.
  - left. split; [done|]. intros j ??. lia.
  - case_decide as Hlt; [|left; split; [done|intros j ??; lia]].
    case_decide as H0.
    + right. exists min. unfold marked. repeat split; try done; try lia.
    + destruct (IH (S min)) as [[Hr Hall]|(s & Hr & ? & ? & ? & Hall)]; [lia| |].
      * left. split; [done|]. intros j Hj ?.
        destruct (decide (j = min)) as [->|]; [done|]. apply Hall; lia.
      * right. exists s. repeat split; try done; try lia. intros j Hj ?.
        destruct (decide (j = min)) as [->|]; [done|]. apply Hall; lia.
Qed.

Lemma find_min_unsorted_spec sorted height min :
  let r := find_min_unsorted sorted height min in
  (r = (-1)%Z ∧ ∀ j, min ≤ j → j < height → marked sorted j) ∨
  (∃ s, r = Z.of_nat s ∧ min ≤ s ∧ s < height ∧ ¬ marked sorted s ∧
        ∀ j, min ≤ j → j < s → marked sorted j).
Proof. by apply find_min_unsorted_loop_spec. Qed.

(** ** The reversal loop *)

Lemma reverse_perm_prefix (height m : nat) (perm : list nat) :
  length perm = height → 2 * m ≤ height →
  ∀ i, foldl (swap_perm height) perm (seq 0 m) !! i =
       if decide (i < m ∨ (height - m ≤ i ∧ i < height))
       then perm !! (height - 1 - i) else perm !! i.
Proof.
  intros Hlen. induction m as [|m IH]; intros Hm i.
  { simpl. case_decide; [|done]. lia. }
  rewrite seq_S, foldl_app. simpl.
  set (q := foldl (swap_perm height) perm (seq 0 m)) in *.
  assert (length q = height) as Hq.
  { assert (∀ l k, length (foldl (swap_perm height) l k) = length l) as Hl.
    { intros l k. revert l. induction k as [|a k IHk]; intros l; simpl; [done|].
      rewrite IHk. unfold swap_perm. by rewrite !length_insert. }
    unfold q. by rewrite Hl. }
  assert (∀ j, j < height → q !!! j =
            if decide (j < m ∨ (height - m ≤ j ∧ j < height))
            then perm !!! (height - 1 - j) else perm !!! j) as Hq'.
  { intros j Hj. rewrite !list_lookup_total_alt, (IH ltac:(lia) j).
    by case_decide. }
  unfold swap_perm. rewrite !list_lookup_insert, !length_insert, Hq.
  rewrite !Hq' by lia. rewrite (IH ltac:(lia) i).
  repeat case_decide; try lia; destruct_and?; subst;
    rewrite ?list_lookup_lookup_total_lt by lia; try done; f_equal; try lia;
    try (f_equal; lia).
Qed.

Lemma reverse_perm_reverse (height : nat) (perm : list nat) :
  length perm = height → reverse_perm height perm = reverse perm.
Proof.
  intros Hlen. apply list_eq. intros i. unfold reverse_perm.
  pose proof (Nat.div_mod_eq height 2) as Hdiv.
  pose proof (Nat.mod_upper_bound height 2 ltac:(done)) as Hmod.
  rewrite (reverse_perm_prefix height) by (try done; lia).
  destruct (decide (i < height)) as [Hi|Hi].
  - rewrite reverse_lookup by lia. rewrite Hlen.
    case_decide; [f_equal; lia|].
    assert (i = height - 1 - i) as Heq by lia. rewrite Heq at 1. f_equal. lia.
  - rewrite (lookup_ge_None_2 (reverse perm)) by (rewrite length_reverse; lia).
    case_decide; apply lookup_ge_None_2; lia.
Qed.

(** ** The cycle-following loop *)

Section cycle_following.
Variable d0 : apop_data.
Variable perm : list nat.
Variable h : nat.
Hypothesis Hwf : well_formed d0 h.
Hypothesis Hperm : perm ≡ₚ seq 0 h.

Lemma perm_length : length perm = h.
Proof. by rewrite Hperm, length_seq. Qed.

Lemma perm_bound i : i < h → perm !!! i < h.
Proof.
  intros Hi. assert (perm !!! i ∈ seq 0 h) as [_ ?]%elem_of_seq; [|lia].
  rewrite <- Hperm. apply list_elem_of_lookup_total_2. by rewrite perm_length.
Qed.

Lemma perm_inj i j : i < h → j < h → perm !!! i = perm !!! j → i = j.
Proof.
  intros Hi Hj Heq. assert (NoDup perm) as Hnd.
  { rewrite Hperm. apply NoDup_seq. }
  eapply NoDup_lookup; [exact Hnd| |].
  - apply list_lookup_lookup_total_lt. by rewrite perm_length.
  - rewrite Heq. apply list_lookup_lookup_total_lt. by rewrite perm_length.
Qed.

Local Abbreviation outer_inv := (Apop.outer_inv d0 perm h).
Local Abbreviation cycle_inv := (Apop.cycle_inv d0 perm h).

(** Entering a cycle at the row the scan found. *)
Lemma cycle_inv_enter d sorted start s :
  outer_inv d sorted start → s < h → ¬ marked sorted s →
  (∀ j, start ≤ j → j < s → marked sorted j) →
  cycle_inv s d (<[s := S (sorted !!! s)]> sorted) s.
Proof.
  intros [Hdims Hlen Hdone Htodo Hclosed Hbefore] Hs Hns Hscan.
  assert (s < length sorted) as Hsl by lia.
  assert (∀ j, marked sorted j → marked (<[s := S (sorted !!! s)]> sorted) j)
    as Hmono by (intros j ?; apply marked_insert; auto).
  split.
  - done.
  - by rewrite length_insert.
  - done.
  - done.
  - apply marked_insert; auto.
  - apply marked_insert; auto.
  - intros j Hj Hm Hne. apply marked_insert in Hm as [->|Hm]; [done| |done].
    destruct (Hdone j Hj Hm) as [??]. auto.
  - intros j Hj Hm. apply Htodo; auto.
  - by apply Htodo.
  - intros j Hj Hm Hne. apply marked_insert in Hm as [?|Hm]; [done| |done].
    pose proof (Hclosed j Hj Hm) as Hmj. split; [auto|]. by intros ->.
  - intros j Hj Hjh. apply Hmono.
    destruct (decide (j < start)); [by apply Hbefore|]. apply Hscan; lia.
Qed.

(** One turn of the inner loop. *)
Lemma cycle_inv_step start d sorted i :
  cycle_inv start d sorted i → perm !!! i ≠ start →
  let p := perm !!! i in
  ¬ marked sorted p ∧
  cycle_inv start (apop_data_set_row d (Apop_data_row d p) i)
    (<[p := S (sorted !!! p)]> sorted) p.
Proof.
  intros [Hdims Hlen Hi Hst Hmi Hms Hdone Htodo Hhere Hclosed Hbefore] Hne p.
  assert (p < h) as Hp by by apply perm_bound.
  assert (¬ marked sorted p) as Hnp.
  { intros Hm. by destruct (Hclosed i Hi Hm Hne) as [_ ?]. }
  assert (p ≠ i) as Hpi by (by intros Heq; rewrite Heq in Hnp).
  assert (p < length sorted) as Hpl by lia.
  assert (∀ j, marked sorted j → marked (<[p := S (sorted !!! p)]> sorted) j)
    as Hmono by (intros j ?; apply marked_insert; auto).
  assert (Apop_data_row d p = Apop_data_row d0 p) as Hrow by by apply Htodo.
  split; [done|]. rewrite Hrow. split.
  - by rewrite dims_set_row.
  - by rewrite length_insert.
  - done.
  - done.
  - apply marked_insert; auto.
  - auto.
  - intros j Hj Hm Hjp. apply marked_insert in Hm as [->|Hm]; [done| |done].
    destruct (decide (j = i)) as [->|Hji].
    + split; [apply marked_insert; auto|].
      apply (row_set_row_eq _ _ h); try done. by eapply well_formed_dims.
    + destruct (Hdone j Hj Hm Hji) as [??]. split; [auto|].
      by rewrite row_set_row_ne.
  - intros j Hj Hm.
    assert (¬ marked sorted j) as Hm' by auto.
    assert (j ≠ i) by (by intros ->).
    rewrite row_set_row_ne by done. by apply Htodo.
  - by rewrite row_set_row_ne.
  - intros j Hj Hm Hjs. apply marked_insert in Hm as [Heq|Hm]; [| |done].
    + apply perm_inj in Heq as ->; [|done..]. split; [auto|done].
    + destruct (Hclosed j Hj Hm Hjs) as [??]. split; [auto|]. by intros ->.
  - intros j Hj Hjh. auto.
Qed.

(** Closing a cycle: the saved first row goes to the last row visited. *)
Lemma cycle_inv_close start d sorted i :
  cycle_inv start d sorted i → perm !!! i = start →
  outer_inv (apop_data_set_row d (Apop_data_row d0 start) i) sorted start.
Proof.
  intros [Hdims Hlen Hi Hst Hmi Hms Hdone Htodo Hhere Hclosed Hbefore] Heq.
  split.
  - by rewrite dims_set_row.
  - done.
  - intros j Hj Hm. destruct (decide (j = i)) as [->|Hji].
    + rewrite Heq. split; [done|].
      apply (row_set_row_eq _ _ h); try done. by eapply well_formed_dims.
    + rewrite row_set_row_ne by done. by apply Hdone.
  - intros j Hj Hm. assert (j ≠ i) by (by intros ->).
    rewrite row_set_row_ne by done. by apply Htodo.
  - intros j Hj Hm. destruct (decide (perm !!! j = start)) as [Hjs|Hjs].
    + rewrite <- Heq in Hjs. apply perm_inj in Hjs as ->; done.
    + by destruct (Hclosed j Hj Hm Hjs).
  - done.
Qed.

Lemma follow_cycle_correct fuel start d sorted i :
  cycle_inv start d sorted i → unmarked sorted < fuel →
  ∃ d' sorted' i',
    follow_cycle fuel perm start d sorted i = Some (d', sorted', i') ∧
    cycle_inv start d' sorted' i' ∧ perm !!! i' = start ∧
    unmarked sorted' ≤ unmarked sorted.
Proof.
  revert d sorted i. induction fuel as [|fuel IH]; intros d sorted i Hinv Hfuel.
  { lia. }
  simpl. case_decide as Hc.
  - exists d, sorted, i. auto.
  - destruct (cycle_inv_step _ _ _ _ Hinv Hc) as [Hnp Hinv'].
    pose proof (cycle_length Hinv) as Hlen.
    pose proof (perm_bound i (cycle_i Hinv)) as Hp.
    pose proof (unmarked_insert sorted (perm !!! i) (sorted !!! (perm !!! i))
                  ltac:(lia) Hnp) as Hun.
    destruct (IH _ _ _ Hinv') as (d' & sorted' & i' & Hrun & ? & ? & ?); [lia|].
    exists d', sorted', i'. split_and!; [done..|lia].
Qed.

Lemma apply_perm_correct fuel cfuel d sorted start :
  outer_inv d sorted start → unmarked sorted < fuel → unmarked sorted ≤ cfuel →
  ∃ d', apply_perm fuel cfuel perm h d sorted start = Some d' ∧
        dims d' = dims d0 ∧
        ∀ j, j < h → Apop_data_row d' j = Apop_data_row d0 (perm !!! j).
Proof.
  revert d sorted start.
  induction fuel as [|fuel IH]; intros d sorted start Hinv Hfuel Hcfuel.
  { lia. }
  simpl.
  destruct (find_min_unsorted_spec sorted h start)
    as [[-> Hall]|(s & -> & Hs1 & Hs2 & Hns & Hscan)].
  - rewrite decide_True by done. exists d. split; [done|].
    split; [apply (outer_dims Hinv)|]. intros j Hj.
    apply (outer_done Hinv); [done|].
    destruct (decide (j < start)); [by apply (outer_before Hinv)|].
    apply Hall; lia.
  - rewrite decide_False by lia. rewrite Nat2Z.id.
    pose proof (outer_length Hinv) as Hlen.
    pose proof (unmarked_insert sorted s (sorted !!! s) ltac:(lia) Hns) as Hun.
    pose proof (cycle_inv_enter _ _ _ _ Hinv Hs2 Hns Hscan) as Hc.
    destruct (follow_cycle_correct cfuel _ _ _ _ Hc)
      as (d' & sorted' & i' & -> & Hc' & Hclose & Hle); [lia|].
    simpl. unfold apop_data_copy.
    rewrite (outer_todo Hinv s Hs2 Hns).
    apply IH; [by apply cycle_inv_close|lia|lia].
Qed.

Lemma outer_inv_initial : outer_inv d0 (replicate h 0) 0.
Proof.
  assert (∀ j, j < h → ¬ marked (replicate h 0) j) as Hno.
  { intros j Hj Hm. apply Hm. by apply lookup_total_replicate_2. }
  split.
  - done.
  - by rewrite length_replicate.
  - intros j Hj Hm. by destruct (Hno j).
  - done.
  - intros j Hj Hm. destruct (Hno (perm !!! j)); [by apply perm_bound|done].
  - intros j Hj. lia.
Qed.

(** The loop of [apop_data_sort] finishes and leaves, in every row [j], the
    original row [perm[j]]. *)
Lemma apply_perm_rows fuel :
  h < fuel →
  ∃ d', apply_perm fuel fuel perm h d0 (replicate h 0) 0 = Some d' ∧
        dims d' = dims d0 ∧
        ∀ j, j < h → Apop_data_row d' j = Apop_data_row d0 (perm !!! j).
Proof.
  intros Hfuel. apply apply_perm_correct.
  - apply outer_inv_initial.
  - rewrite unmarked_replicate. lia.
  - rewrite unmarked_replicate. lia.
Qed.

End cycle_following.

(** ** The naive application and the body of [apop_data_sort] *)

Lemma permute_rows_naive_steps d (perm : list nat) h m :
  well_formed d h → (∀ i, i < h → perm !!! i < h) → m ≤ h →
  let d' := foldl (λ fresh i,
              apop_data_set_row fresh (Apop_data_row d (perm !!! i)) i)
              d (seq 0 m) in
  dims d' = dims d ∧
  ∀ j, j < m → Apop_data_row d' j = Apop_data_row d (perm !!! j).
Proof.
  intros Hwf Hb. induction m as [|m IH]; intros Hm.
  { split; [done|]. intros j ?. lia. }
  cbv zeta in *. rewrite seq_S, foldl_app. simpl.
  destruct IH as [Hdims Hrows]; [lia|].
  split; [by rewrite dims_set_row|]. intros j Hj.
  destruct (decide (j = m)) as [->|Hne].
  - apply (row_set_row_eq _ _ h); [done| |lia|apply Hb; lia].
    eapply well_formed_dims; [|exact Hwf]. done.
  - rewrite row_set_row_ne by done. apply Hrows. lia.
Qed.

Lemma permute_rows_naive_rows d perm h :
  well_formed d h → perm ≡ₚ seq 0 h →
  dims (permute_rows_naive d perm h) = dims d ∧
  ∀ j, j < h →
    Apop_data_row (permute_rows_naive d perm h) j
    = Apop_data_row d (perm !!! j).
Proof.
  intros Hwf Hperm. apply (permute_rows_naive_steps d perm h h); [done| |done].
  intros i Hi. by apply (perm_bound perm h).
Qed.

Lemma apply_perm_naive d perm h fuel :
  well_formed d h → perm ≡ₚ seq 0 h → h < fuel →
  apply_perm fuel fuel perm h d (replicate h 0) 0
  = Some (permute_rows_naive d perm h).
Proof.
  intros Hwf Hperm Hfuel.
  destruct (apply_perm_rows d perm h Hwf Hperm fuel Hfuel) as (d' & -> & Hd & Hr).
  destruct (permute_rows_naive_rows d perm h Hwf Hperm) as [Hd' Hr'].
  f_equal. apply (apop_data_ext _ _ h).
  - by rewrite Hd, Hd'.
  - by eapply well_formed_dims.
  - intros i Hi. by rewrite Hr, Hr'.
Qed.

Lemma sort_perm_perm v h asc :
  length v = h → sort_perm v h asc ≡ₚ seq 0 h.
Proof.
  intros <-. unfold sort_perm. destruct (is_descending asc).
  - rewrite reverse_perm_reverse by apply length_gsl_sort_vector_index.
    by rewrite reverse_Permutation, gsl_sort_vector_index_perm.
  - apply gsl_sort_vector_index_perm.
Qed.

Lemma sort_key_length d sortby h v :
  sortable d sortby h → sort_key d sortby = Some v → length v = h.
Proof.
  intros (Hwf & Hh & _) Hv. unfold sort_key in Hv.
  case_decide; [by rewrite Hv in Hh; simplify_eq/=|].
  case_decide; [done|]. unfold APOP_COL in Hv.
  destruct (matrix d) as [m|]; simplify_eq/=.
  symmetry. by eapply length_mapM.
Qed.

Lemma sort_key_lookup d sortby v i :
  sort_key d sortby = Some v → i < length v →
  row_key sortby (Apop_data_row d i) = v !! i.
Proof.
  unfold sort_key, row_key. intros Hv Hi.
  case_decide; [by simpl; rewrite Hv|].
  case_decide; [done|]. unfold APOP_COL in Hv. simpl.
  destruct (matrix d) as [m|]; simplify_eq/=.
  apply mapM_Some in Hv.
  destruct (lookup_lt_is_Some_2 v i Hi) as [x Hx].
  destruct (Forall2_lookup_r _ _ _ _ _ Hv Hx) as (r & -> & Hr). simpl.
  etrans; [exact Hr|by symmetry].
Qed.

(** The body finishes with the rows permuted by the sort permutation. *)
Lemma apop_data_sort_base_run fuel d sortby asc h :
  sortable d sortby h → h < fuel →
  ∃ v, sort_key d sortby = Some v ∧ length v = h ∧
       sort_perm v h asc ≡ₚ seq 0 h ∧
       apop_data_sort_base fuel d sortby asc
       = Some (permute_rows_naive d (sort_perm v h asc) h).
Proof.
  intros Hs Hfuel. pose proof Hs as (Hwf & Hh & [v Hv]).
  pose proof (sort_key_length _ _ _ _ Hs Hv) as Hlen.
  pose proof (sort_perm_perm v h asc Hlen) as Hperm.
  exists v. split_and!; try done.
  unfold apop_data_sort_base. rewrite Hh, Hv. simpl.
  by apply apply_perm_naive.
Qed.

Lemma apop_data_sort_run fuel opts m p d sortby asc h :
  tables m !! p = Some d → sortable d (resolve_sortby d sortby) h → h < fuel →
  ∃ v, sort_key d (resolve_sortby d sortby) = Some v ∧ length v = h ∧
       sort_perm v h (default "000"%char asc) ≡ₚ seq 0 h ∧
       apop_data_sort fuel opts m (Some p) sortby asc
       = Some ({| tables :=
                    <[p := permute_rows_naive d
                             (sort_perm v h (default "000"%char asc)) h]>
                      (tables m);
                  log := log m |}, Some p).
Proof.
  intros Hp Hs Hfuel.
  destruct (apop_data_sort_base_run fuel d _ (default "000"%char asc) h Hs Hfuel)
    as (v & Hv & Hlen & Hperm & Hrun).
  exists v. split_and!; try done.
  unfold apop_data_sort. rewrite Hp. simpl. by rewrite Hrun.
Qed.

(** ** The properties of [apop_data_sort] *)

(** C1: for a well-formed table and any permutation [perm] of its row
    indices, the in-place cycle-following loop of [apop_data_sort], which
    resumes the scan for an unmarked row at the previous start, finishes and
    produces exactly the table of the naive out-of-place application: row [i]
    of the result is row [perm[i]] of the original, for every [i] below the
    height. *)
Theorem apply_perm_refines_naive (d : apop_data) (perm : list nat)
    (h fuel : nat) :
  well_formed d h → perm ≡ₚ seq 0 h → h < fuel →
  apply_perm fuel fuel perm h d (replicate h 0) 0
  = Some (permute_rows_naive d perm h) ∧
  ∀ i, i < h →
    Apop_data_row (permute_rows_naive d perm h) i
    = Apop_data_row d (perm !!! i).
Proof.
  intros Hwf Hperm Hfuel. split.
  - by apply apply_perm_naive.
  - by apply permute_rows_naive_rows.
Qed.

Lemma rows_permute_rows_naive d perm h :
  well_formed d h → perm ≡ₚ seq 0 h →
  rows (permute_rows_naive d perm h) h = Apop_data_row d <$> perm.
Proof.
  intros Hwf Hperm. unfold rows.
  destruct (permute_rows_naive_rows d perm h Hwf Hperm) as [_ Hrows].
  pose proof (perm_length perm h Hperm) as Hlen.
  apply list_eq. intros i. rewrite !list_lookup_fmap.
  destruct (decide (i < h)) as [Hi|Hi].
  - rewrite lookup_seq_lt by done. simpl. rewrite Hrows by done.
    by rewrite (list_lookup_lookup_total_lt perm i) by lia.
  - rewrite lookup_seq_ge by lia. by rewrite lookup_ge_None_2 by lia.
Qed.

(** C2: sorting a well-formed table only reorders its rows: the rows after
    the call are a permutation of the rows before it (same multiset, each
    row compared by its vector entry, matrix row and text row), and the
    number of rows of every component is unchanged. *)
Theorem apop_data_sort_permutes_rows (fuel : nat) (opts : apop_opts_type)
    (m : memory) (p : nat) (d : apop_data) (sortby : option Z)
    (asc : option ascii) (h : nat) :
  tables m !! p = Some d → sortable d (resolve_sortby d sortby) h →
  h < fuel →
  ∃ d', apop_data_sort fuel opts m (Some p) sortby asc
        = Some ({| tables := <[p := d']> (tables m); log := log m |}, Some p) ∧
        dims d' = dims d ∧ rows d' h ≡ₚ rows d h.
Proof.
  intros Hp Hs Hfuel.
  destruct (apop_data_sort_run fuel opts m p d sortby asc h Hp Hs Hfuel)
    as (v & Hv & Hlen & Hperm & Hrun).
  destruct Hs as (Hwf & _).
  eexists. split; [exact Hrun|]. split.
  - by apply permute_rows_naive_rows.
  - rewrite rows_permute_rows_naive by done. unfold rows. by rewrite Hperm.
Qed.

Lemma sort_perm_lookup_asc v asc i :
  is_descending asc = false →
  sort_perm v (length v) asc !! i = gsl_sort_vector_index v !! i.
Proof. unfold sort_perm. by intros ->. Qed.

Lemma sort_perm_lookup_desc v asc i :
  is_descending asc = true → i < length v →
  sort_perm v (length v) asc !! i
  = gsl_sort_vector_index v !! (length v - S i).
Proof.
  unfold sort_perm. intros -> Hi.
  rewrite reverse_perm_reverse by apply length_gsl_sort_vector_index.
  rewrite reverse_lookup; by rewrite length_gsl_sort_vector_index.
Qed.

(** The keys of the sorted table, through the permutation. *)
Lemma row_key_permuted d sortby h v perm i x :
  sortable d sortby h → sort_key d sortby = Some v → perm ≡ₚ seq 0 h →
  i < h →
  row_key sortby (Apop_data_row (permute_rows_naive d perm h) i) = Some x →
  ∃ a, perm !! i = Some a ∧ a < h ∧ v !! a = Some x ∧ gsl_vector_get v a = x.
Proof.
  intros Hs Hv Hperm Hi Hx. pose proof Hs as (Hwf & _).
  pose proof (sort_key_length _ _ _ _ Hs Hv) as Hlen.
  destruct (permute_rows_naive_rows d perm h Hwf Hperm) as [_ Hrows].
  rewrite Hrows in Hx by done.
  pose proof (perm_bound perm h Hperm i Hi) as Hb.
  rewrite (sort_key_lookup d sortby v) in Hx by (done || lia).
  exists (perm !!! i). split_and!; try done.
  - apply list_lookup_lookup_total_lt. by rewrite (perm_length perm h).
  - by apply list_lookup_total_correct.
Qed.

(** The keys after the call, by the direction test of the source. *)
Lemma apop_data_sort_ordered (fuel : nat) (opts : apop_opts_type)
    (m : memory) (p : nat) (d : apop_data) (sortby : option Z)
    (asc : option ascii) (h : nat) :
  tables m !! p = Some d → sortable d (resolve_sortby d sortby) h →
  h < fuel →
  ∃ d', apop_data_sort fuel opts m (Some p) sortby asc
        = Some ({| tables := <[p := d']> (tables m); log := log m |}, Some p) ∧
    ∀ i x y, S i < h →
      row_key (resolve_sortby d sortby) (Apop_data_row d' i) = Some x →
      row_key (resolve_sortby d sortby) (Apop_data_row d' (S i)) = Some y →
      isnan x = false → isnan y = false →
      if is_descending (default "000"%char asc)
      then le y x = true else le x y = true.
Proof.
  intros Hp Hs Hfuel.
  destruct (apop_data_sort_run fuel opts m p d sortby asc h Hp Hs Hfuel)
    as (v & Hv & Hlen & Hperm & Hrun).
  eexists. split; [exact Hrun|]. intros i x y Hi Hx Hy Hnx Hny.
  assert (i < h) as Hi' by lia.
  destruct (row_key_permuted _ _ _ _ _ _ _ Hs Hv Hperm Hi' Hx)
    as (a & Ha & _ & _ & Hxa).
  destruct (row_key_permuted _ _ _ _ _ _ _ Hs Hv Hperm Hi Hy)
    as (b & Hb & _ & _ & Hyb).
  pose proof (gsl_sort_vector_index_sorted v) as Hsorted.
  subst h. destruct (is_descending _) eqn:Hdir.
  - rewrite sort_perm_lookup_desc in Ha, Hb by (done || lia).
    assert (ordered v b a) as Hord.
    { eapply (StronglySorted_lookup _ _ (length v - S (S i)) (length v - S i));
        [exact Hsorted|lia|done|done]. }
    unfold ordered, comparable, ngt in Hord. rewrite Hxa, Hyb in Hord.
    rewrite le_not_lt by done. by rewrite Hord.
  - rewrite sort_perm_lookup_asc in Ha, Hb by done.
    assert (ordered v a b) as Hord.
    { eapply (StronglySorted_lookup _ _ i (S i));
        [exact Hsorted|lia|done|done]. }
    unfold ordered, comparable, ngt in Hord. rewrite Hxa, Hyb in Hord.
    rewrite le_not_lt by done. by rewrite Hord.
Qed.

Lemma is_descending_up (asc : option ascii) :
  asc ≠ Some "d"%char → asc ≠ Some "D"%char →
  is_descending (default "000"%char asc) = false.
Proof.
  intros Hd HD. destruct asc as [c|]; [|done]. unfold is_descending. simpl.
  apply orb_false_iff. split; apply Ascii.eqb_neq; congruence.
Qed.

Lemma is_descending_down (asc : option ascii) :
  asc = Some "d"%char ∨ asc = Some "D"%char →
  is_descending (default "000"%char asc) = true.
Proof. by intros [-> | ->]. Qed.

(** C3: after [apop_data_sort] on a well-formed table, two adjacent rows
    whose keys are both comparable (not NaN) are in order: the first key is
    [<=] the second when the direction argument is left out or is any
    character other than 'd' and 'D', and [>=] it when the direction is 'd'
    or 'D'. *)
Theorem apop_data_sort_orders_keys (fuel : nat) (opts : apop_opts_type)
    (m : memory) (p : nat) (d : apop_data) (sortby : option Z)
    (up down : option ascii) (h : nat) :
  tables m !! p = Some d → sortable d (resolve_sortby d sortby) h →
  h < fuel →
  up ≠ Some "d"%char → up ≠ Some "D"%char →
  down = Some "d"%char ∨ down = Some "D"%char →
  (∃ d', apop_data_sort fuel opts m (Some p) sortby up
         = Some ({| tables := <[p := d']> (tables m); log := log m |},
                 Some p) ∧
     ∀ i x y, S i < h →
       row_key (resolve_sortby d sortby) (Apop_data_row d' i) = Some x →
       row_key (resolve_sortby d sortby) (Apop_data_row d' (S i)) = Some y →
       isnan x = false → isnan y = false → le x y = true) ∧
  (∃ d', apop_data_sort fuel opts m (Some p) sortby down
         = Some ({| tables := <[p := d']> (tables m); log := log m |},
                 Some p) ∧
     ∀ i x y, S i < h →
       row_key (resolve_sortby d sortby) (Apop_data_row d' i) = Some x →
       row_key (resolve_sortby d sortby) (Apop_data_row d' (S i)) = Some y →
       isnan x = false → isnan y = false → le y x = true).
Proof.
  intros Hp Hs Hfuel Hd HD Hdown. split.
  - destruct (apop_data_sort_ordered fuel opts m p d sortby up h Hp Hs Hfuel)
      as (d' & Hrun & Hord).
    exists d'. split; [done|]. intros i x y Hi Hx Hy Hnx Hny.
    specialize (Hord i x y Hi Hx Hy Hnx Hny).
    by rewrite is_descending_up in Hord.
  - destruct (apop_data_sort_ordered fuel opts m p d sortby down h Hp Hs
                Hfuel) as (d' & Hrun & Hord).
    exists d'. split; [done|]. intros i x y Hi Hx Hy Hnx Hny.
    specialize (Hord i x y Hi Hx Hy Hnx Hny).
    by rewrite is_descending_down in Hord.
Qed.

(** On a NaN key the ascending sort leaves the row where it is. *)
Lemma apop_data_sort_base_nan_ascending fuel d sortby asc h v i x :
  sortable d sortby h → h < fuel → is_descending asc = false →
  sort_key d sortby = Some v → v !! i = Some x → isnan x = true →
  ∃ d', apop_data_sort_base fuel d sortby asc = Some d' ∧
        Apop_data_row d' i = Apop_data_row d i.
Proof.
  intros Hs Hfuel Hdir Hv Hi Hx.
  destruct (apop_data_sort_base_run fuel d sortby asc h Hs Hfuel)
    as (v' & Hv' & Hlen & Hperm & Hrun).
  assert (v' = v) as -> by congruence.
  eexists. split; [exact Hrun|]. destruct Hs as (Hwf & _).
  pose proof (lookup_lt_Some _ _ _ Hi) as Hih.
  destruct (permute_rows_naive_rows d _ h Hwf Hperm) as [_ Hrows].
  rewrite Hrows by lia. f_equal. apply list_lookup_total_correct.
  subst h. rewrite sort_perm_lookup_asc by done.
  by apply (gsl_sort_vector_index_nan v i x).
Qed.

(** C4: the rows with a NaN key do not stay in place when the direction is
    descending.  On the rows (NaN,"x"), (1,"a"), (NaN,"y"), sorted by matrix
    column 0 with direction 'd', the reversal of the permutation exchanges
    the two NaN rows: the result is (NaN,"y"), (1,"a"), (NaN,"x"). *)
Theorem apop_data_sort_descending_moves_nan :
  apop_data_sort 4 {| verbose := 0 |} (memory_with 0 nan_table)
    (Some 0) (Some 0%Z) (Some "d"%char)
  = Some (memory_with 0
            {| vector := None;
               matrix := Some [[GSL_NAN]; [1%float]; [GSL_NAN]];
               text := Some [["y"%string]; ["a"%string]; ["x"%string]] |},
          Some 0).
Proof. vm_compute. reflexivity. Qed.

(** C5: for the direction 'd' or 'D' the ascending index permutation is
    reversed before it is applied: the loop that swaps [perm[k]] and
    [perm[height-1-k]] for [k] below [height/2] leaves [perm[height-1-k]] at
    every position [k]; on the rows with keys 3, 1, 2 the descending order
    is 3, 2, 1. *)
Theorem descending_reverses_perm (perm : list nat) (h : nat)
    (v : gsl_vector) (asc : ascii) :
  length perm = h → asc = "d"%char ∨ asc = "D"%char →
  reverse_perm h perm = foldl (swap_perm h) perm (seq 0 (h / 2)) ∧
  (∀ k, k < h → reverse_perm h perm !! k = perm !! (h - 1 - k)) ∧
  sort_perm v (length v) asc
  = reverse_perm (length v) (gsl_sort_vector_index v) ∧
  apop_data_sort_base 4 scenario_table 0 asc
  = Some {| vector := None;
            matrix := Some [[3%float]; [2%float]; [1%float]];
            text := Some [["c"%string]; ["b"%string]; ["a"%string]] |}.
Proof.
  intros Hlen Hasc. split_and!.
  - done.
  - intros k Hk. rewrite reverse_perm_reverse by done.
    rewrite reverse_lookup by lia. f_equal. lia.
  - unfold sort_perm. by destruct Hasc as [-> | ->].
  - by destruct Hasc as [-> | ->]; vm_compute.
Qed.

Lemma permute_rows_naive_id d h :
  well_formed d h → permute_rows_naive d (seq 0 h) h = d.
Proof.
  intros Hwf.
  destruct (permute_rows_naive_rows d (seq 0 h) h Hwf) as [Hd Hr]; [done|].
  apply (apop_data_ext _ _ h); [done|by eapply well_formed_dims|].
  intros i Hi. rewrite Hr by done. f_equal.
  apply list_lookup_total_correct. by rewrite lookup_seq_lt.
Qed.

(** *** An index sort on keys that are strictly in order *)

Lemma StronglySorted_of_lookup {A} (R : relation A) (l : list A) :
  (∀ i j a b, i < j → l !! i = Some a → l !! j = Some b → R a b) →
  StronglySorted R l.
Proof.
  induction l as [|x l IH]; intros HR; constructor.
  - apply IH. intros i j a b Hij Hi Hj. by apply (HR (S i) (S j)); [lia|..].
  - apply Forall_forall. intros b (j & Hj)%list_elem_of_lookup_1.
    by apply (HR 0 (S j)); [lia|..].
Qed.

Lemma increasing_perm (perm : list nat) (h : nat) :
  perm ≡ₚ seq 0 h →
  (∀ i j a b, i < j → perm !! i = Some a → perm !! j = Some b → a ≤ b) →
  perm = seq 0 h.
Proof.
  intros Hperm Hinc. apply (StronglySorted_unique Nat.le); [| |done].
  - by apply StronglySorted_of_lookup.
  - apply StronglySorted_seq. intros; lia.
Qed.

Lemma index_sorted_distinct (v : gsl_vector) (perm : list nat) i j a b :
  index_sorted v perm → i < j → perm !! i = Some a → perm !! j = Some b →
  a ≠ b ∧ a < length v ∧ b < length v.
Proof.
  intros [Hperm _] Hij Ha Hb.
  assert (NoDup perm) as Hnd by (rewrite Hperm; apply NoDup_seq).
  split_and!.
  - intros ->. pose proof (NoDup_lookup _ _ _ _ Hnd Ha Hb). lia.
  - assert (a ∈ seq 0 (length v)) as [_ ?]%elem_of_seq; [|lia].
    rewrite <- Hperm. by eapply list_elem_of_lookup_2.
  - assert (b ∈ seq 0 (length v)) as [_ ?]%elem_of_seq; [|lia].
    rewrite <- Hperm. by eapply list_elem_of_lookup_2.
Qed.

(** On strictly increasing keys every index sort returns the identity. *)
Lemma index_sorted_ascending (v : gsl_vector) (perm : list nat) :
  index_sorted v perm → strictly_ascending v → perm = seq 0 (length v).
Proof.
  intros Hsorted Hv. pose proof Hsorted as [Hperm Hord].
  apply increasing_perm; [done|]. intros i j a b Hij Ha Hb.
  destruct (index_sorted_distinct v perm i j a b) as (Hne & Hal & Hbl);
    [done..|].
  destruct (decide (a ≤ b)) as [|Hgt]; [done|]. exfalso.
  specialize (Hord i j a b Hij Ha Hb).
  rewrite (Hv b a (gsl_vector_get v b) (gsl_vector_get v a)) in Hord;
    [done|lia|by apply list_lookup_lookup_total_lt..].
Qed.

(** On strictly decreasing keys every index sort returns the reversal of
    the identity. *)
Lemma index_sorted_descending (v : gsl_vector) (perm : list nat) :
  index_sorted v perm → strictly_descending v →
  reverse perm = seq 0 (length v).
Proof.
  intros Hsorted Hv. pose proof Hsorted as [Hperm Hord].
  pose proof (perm_length perm _ Hperm) as Hlen.
  apply increasing_perm; [by rewrite reverse_Permutation|].
  intros i j a b Hij Ha Hb.
  pose proof (lookup_lt_Some _ _ _ Hb) as Hj. rewrite length_reverse in Hj.
  rewrite reverse_lookup in Ha, Hb by lia.
  destruct (index_sorted_distinct v perm (length perm - S j)
              (length perm - S i) b a Hsorted)
    as (Hne & Hbl & Hal); [lia|done|done|].
  destruct (decide (a ≤ b)) as [|Hgt]; [done|]. exfalso.
  specialize (Hord (length perm - S j) (length perm - S i) b a
                ltac:(lia) Hb Ha).
  rewrite (Hv b a (gsl_vector_get v b) (gsl_vector_get v a)) in Hord;
    [done|lia|by apply list_lookup_lookup_total_lt..].
Qed.

(** The index sort of the specification is one of them, on keys without
    NaN among those it compares. *)
Lemma gsl_sort_vector_index_index_sorted (v : gsl_vector) :
  strictly_ascending v ∨ strictly_descending v →
  index_sorted v (gsl_sort_vector_index v).
Proof.
  intros Hv. split; [apply gsl_sort_vector_index_perm|].
  intros i j a b Hij Ha Hb.
  assert (StronglySorted (ordered v) (gsl_sort_vector_index v)) as Hs
    by apply gsl_sort_vector_index_sorted.
  pose proof (StronglySorted_lookup _ _ i j a b Hs Hij Ha Hb) as Hord.
  assert (NoDup (gsl_sort_vector_index v)) as Hnd.
  { rewrite gsl_sort_vector_index_perm. apply NoDup_seq. }
  assert (a ≠ b) as Hne.
  { intros ->. pose proof (NoDup_lookup _ _ _ _ Hnd Ha Hb). lia. }
  assert (a < length v ∧ b < length v) as [Hal Hbl].
  { split.
    - assert (a ∈ seq 0 (length v)) as [_ ?]%elem_of_seq; [|lia].
      rewrite <- gsl_sort_vector_index_perm. by eapply list_elem_of_lookup_2.
    - assert (b ∈ seq 0 (length v)) as [_ ?]%elem_of_seq; [|lia].
      rewrite <- gsl_sort_vector_index_perm. by eapply list_elem_of_lookup_2. }
  assert (lt (gsl_vector_get v a) (gsl_vector_get v b) = true
          ∨ lt (gsl_vector_get v b) (gsl_vector_get v a) = true) as Hcmp.
  { pose proof (list_lookup_lookup_total_lt v a Hal) as Hva.
    pose proof (list_lookup_lookup_total_lt v b Hbl) as Hvb.
    destruct (decide (a < b)) as [Hlt|Hge], Hv as [Hv|Hv].
    - left. by apply (Hv a b).
    - right. by apply (Hv a b).
    - right. apply (Hv b a); [lia|done|done].
    - left. apply (Hv b a); [lia|done|done]. }
  apply Hord; unfold comparable.
  - destruct (isnan (gsl_vector_get v a)) eqn:E; [|done].
    destruct Hcmp as [H|H]; [by rewrite lt_nan_l in H|by rewrite lt_nan_r in H].
  - destruct (isnan (gsl_vector_get v b)) eqn:E; [|done].
    destruct Hcmp as [H|H]; [by rewrite lt_nan_r in H|by rewrite lt_nan_l in H].
Qed.

(** C6, as amended: sorting again leaves every row at its index when the
    keys are strictly increasing and the direction is left out or is any
    character other than 'd' and 'D', and when the keys are strictly
    decreasing and the direction is 'd' or 'D'.  This does not depend on the
    index sort: on such keys every index array that lists the keys in
    ascending order becomes the identity after the direction test. *)
Theorem apop_data_sort_sorted_again (fuel : nat) (opts : apop_opts_type)
    (m : memory) (p : nat) (d : apop_data) (sortby : option Z)
    (asc : option ascii) (h : nat) (v : gsl_vector) :
  tables m !! p = Some d → sortable d (resolve_sortby d sortby) h →
  h < fuel → sort_key d (resolve_sortby d sortby) = Some v →
  (asc ≠ Some "d"%char ∧ asc ≠ Some "D"%char ∧ strictly_ascending v) ∨
  ((asc = Some "d"%char ∨ asc = Some "D"%char) ∧ strictly_descending v) →
  (∀ perm, index_sorted v perm →
     oriented_perm h (default "000"%char asc) perm = seq 0 h) ∧
  apop_data_sort fuel opts m (Some p) sortby asc
  = Some ({| tables := <[p := d]> (tables m); log := log m |}, Some p).
Proof.
  intros Hp Hs Hfuel Hv Hsorted.
  destruct (apop_data_sort_run fuel opts m p d sortby asc h Hp Hs Hfuel)
    as (v' & Hv' & Hlen & Hperm & Hrun).
  assert (v' = v) as -> by congruence.
  assert (∀ perm, index_sorted v perm →
            oriented_perm h (default "000"%char asc) perm = seq 0 h) as Hid.
  { intros perm Hi. unfold oriented_perm. subst h.
    destruct Hsorted as [(Hd & HD & Hasc)|[Hdown Hdesc]].
    - rewrite is_descending_up by done. by apply index_sorted_ascending.
    - rewrite is_descending_down by done.
      rewrite reverse_perm_reverse
        by (destruct Hi as [Hi _]; by apply (perm_length perm)).
      by apply index_sorted_descending. }
  split; [done|]. rewrite Hrun. destruct Hs as (Hwf & _).
  change (sort_perm v h (default "000"%char asc))
    with (oriented_perm h (default "000"%char asc) (gsl_sort_vector_index v)).
  rewrite Hid.
  - by rewrite permute_rows_naive_id.
  - apply gsl_sort_vector_index_index_sorted.
    destruct Hsorted as [(_ & _ & ?)|[_ ?]]; [by left|by right].
Qed.

(** C6, as stated, fails on rows with equal keys.  The rows (2,"a"), (2,"b")
    are sorted by their keys in both directions.  On the keys 2, 2 an index
    sort returns 0, 1 or 1, 0, as it treats equal keys; whichever it is, the
    row-moving loop exchanges the two rows in one of the two directions:
    with the index array as it is (ascending) or with its reversal
    (descending). *)
Lemma apop_data_sort_ties_not_idempotent :
  sort_key tie_table (-1) = Some [2%float; 2%float] ∧
  key_sorted "a" [2%float; 2%float] ∧
  key_sorted "d" [2%float; 2%float] ∧
  (∀ perm, index_sorted [2%float; 2%float] perm ↔ perm ∈ [[0; 1]; [1; 0]]) ∧
  Forall (λ perm,
            apply_perm 3 3 (oriented_perm 2 "a" perm) 2 tie_table
              (replicate 2 0) 0 = Some tie_table_swapped
            ∨ apply_perm 3 3 (oriented_perm 2 "d" perm) 2 tie_table
                (replicate 2 0) 0 = Some tie_table_swapped)
    [[0; 1]; [1; 0]] ∧
  Apop_data_row tie_table_swapped 0 ≠ Apop_data_row tie_table 0.
Proof.
  assert (∀ w : list double, w = [2%float; 2%float] →
            ∀ i j x y, i < j → w !! i = Some x → w !! j = Some y →
              lt x y = false ∧ lt y x = false) as Hties.
  { intros w -> i j x y Hij Hi Hj.
    destruct j as [|[|j]]; [lia| |done]. destruct i as [|i]; [|lia].
    by simplify_eq/=. }
  split_and!.
  - done.
  - intros i j x y Hij Hi Hj _ _.
    by destruct (Hties _ eq_refl i j x y Hij Hi Hj).
  - intros i j x y Hij Hi Hj _ _.
    by destruct (Hties _ eq_refl i j x y Hij Hi Hj).
  - intros perm. split.
    + intros [Hperm _]. symmetry in Hperm.
      apply Permutation_length_2_inv in Hperm as [->| ->];
        repeat constructor.
    + intros Hin.
      assert (perm = [0; 1] ∨ perm = [1; 0]) as Hcases.
      { apply elem_of_cons in Hin as [->|Hin]; [by left|].
        apply list_elem_of_singleton in Hin as ->. by right. }
      split.
      * destruct Hcases as [->| ->]; [done|apply perm_swap].
      * intros i j a b Hij Ha Hb.
        destruct Hcases as [->| ->];
          destruct j as [|[|j]], i as [|[|i]]; simplify_eq/=; done || lia.
  - repeat apply Forall_cons_2; [| |apply Forall_nil_2].
    + right. by vm_compute.
    + left. by vm_compute.
  - by vm_compute.
Qed.

(** C7: when the caller names no column, the key is the vector (selector -1)
    if the data set has a vector and no matrix, and matrix column 0
    otherwise. *)
Theorem resolve_sortby_default (d : apop_data) :
  resolve_sortby d None
  = (if decide (matrix d = None ∧ vector d ≠ None) then (-1)%Z else 0%Z) ∧
  (matrix d = None ∧ vector d ≠ None →
   sort_key d (resolve_sortby d None) = vector d) ∧
  (¬ (matrix d = None ∧ vector d ≠ None) →
   sort_key d (resolve_sortby d None) = APOP_COL d 0).
Proof.
  unfold resolve_sortby. simpl. split_and!.
  - repeat case_decide; try done; tauto.
  - intros H. rewrite decide_True by tauto. done.
  - intros H. rewrite decide_False by tauto. done.
Qed.

(** C8: on a [NULL] data set [apop_data_sort] returns [NULL] and leaves
    every data set in memory as it was; the diagnostic is written only when
    [apop_opts.verbose] is at least 1.  A call on a data set that returns
    never returns [NULL] and writes no diagnostic. *)
Theorem apop_data_sort_null (fuel : nat) (opts : apop_opts_type)
    (m : memory) (sortby : option Z) (asc : option ascii) :
  (∃ m', apop_data_sort fuel opts m None sortby asc = Some (m', None) ∧
         tables m' = tables m ∧
         log m' = if decide (1 ≤ verbose opts)%Z
                  then log m ++
                       ["You gave me NULL data to sort. Returning NULL"%string]
                  else log m) ∧
  (∀ p m' r, apop_data_sort fuel opts m (Some p) sortby asc = Some (m', r) →
     r = Some p ∧ log m' = log m).
Proof.
  split.
  - eexists. split; [done|]. unfold Apop_notify. by case_decide.
  - intros p m' r Hrun. unfold apop_data_sort in Hrun.
    destruct (tables m !! p) as [d|]; simplify_eq/=.
    destruct (apop_data_sort_base _ _ _ _); by simplify_eq/=.
Qed.

(** ** The theorems at the scenarios of the specification *)

(** Rows (3,"c"), (1,"a"), (2,"b"), ascending by matrix column 0. *)
Example scenario_ascending :
  apop_data_sort_base 4 scenario_table 0 "000"
  = Some {| vector := None;
            matrix := Some [[1%float]; [2%float]; [3%float]];
            text := Some [["a"%string]; ["b"%string]; ["c"%string]] |}.
Proof. by vm_compute. Qed.

(** Rows (NaN,"x"), (1,"a"), (NaN,"y"), ascending: nothing moves. *)
Example scenario_nan_ascending :
  apop_data_sort_base 4 nan_table 0 "000" = Some nan_table.
Proof. by vm_compute. Qed.

(** The index sort on keys with NaNs and a tie. *)
Example gsl_sort_vector_index_sample :
  gsl_sort_vector_index
    [GSL_NAN; 1%float; GSL_NAN; 0.5%float; 7%float; 2%float; 2%float]
  = [0; 3; 2; 1; 5; 6; 4].
Proof. by vm_compute. Qed.

Lemma scenario_perm : [1; 2; 0] ≡ₚ seq 0 3.
Proof.
  simpl. etrans; [apply Permutation_skip, Permutation_swap|].
  apply Permutation_swap.
Defined.

Lemma scenario_sortable :
  sortable scenario_table (resolve_sortby scenario_table None) 3.
Proof.
  split_and!.
  - split_and!; [by left|by right|by right].
  - done.
  - by eexists.
Defined.

Lemma scenario_lookup :
  tables (memory_with 0 scenario_table) !! 0 = Some scenario_table.
Proof. reflexivity. Defined.

Lemma apply_perm_refines_naive_witness :
  apply_perm 4 4 [1; 2; 0] 3 scenario_table (replicate 3 0) 0
  = Some (permute_rows_naive scenario_table [1; 2; 0] 3) ∧
  ∀ i, i < 3 →
    Apop_data_row (permute_rows_naive scenario_table [1; 2; 0] 3) i
    = Apop_data_row scenario_table ([1; 2; 0] !!! i).
Proof.
  apply (apply_perm_refines_naive scenario_table [1; 2; 0] 3 4).
  - split_and!; [by left|by right|by right].
  - exact scenario_perm.
  - lia.
Defined.

Lemma apop_data_sort_permutes_rows_witness :
  ∃ d', apop_data_sort 4 {| verbose := 0 |} (memory_with 0 scenario_table)
          (Some 0) None None
        = Some ({| tables := <[0 := d']> (tables (memory_with 0 scenario_table));
                   log := [] |}, Some 0) ∧
        dims d' = dims scenario_table ∧
        rows d' 3 ≡ₚ rows scenario_table 3.
Proof.
  apply (apop_data_sort_permutes_rows 4 {| verbose := 0 |}
           (memory_with 0 scenario_table) 0 scenario_table None None 3).
  - exact scenario_lookup.
  - exact scenario_sortable.
  - lia.
Defined.

Lemma apop_data_sort_orders_keys_witness :
  (∃ d', apop_data_sort 4 {| verbose := 0 |} (memory_with 0 scenario_table)
           (Some 0) None (Some "a"%char)
         = Some ({| tables :=
                      <[0 := d']> (tables (memory_with 0 scenario_table));
                    log := [] |}, Some 0) ∧
     ∀ i x y, S i < 3 →
       row_key 0 (Apop_data_row d' i) = Some x →
       row_key 0 (Apop_data_row d' (S i)) = Some y →
       isnan x = false → isnan y = false → le x y = true) ∧
  (∃ d', apop_data_sort 4 {| verbose := 0 |} (memory_with 0 scenario_table)
           (Some 0) None (Some "D"%char)
         = Some ({| tables :=
                      <[0 := d']> (tables (memory_with 0 scenario_table));
                    log := [] |}, Some 0) ∧
     ∀ i x y, S i < 3 →
       row_key 0 (Apop_data_row d' i) = Some x →
       row_key 0 (Apop_data_row d' (S i)) = Some y →
       isnan x = false → isnan y = false → le y x = true).
Proof.
  apply (apop_data_sort_orders_keys 4 {| verbose := 0 |}
           (memory_with 0 scenario_table) 0 scenario_table None
           (Some "a"%char) (Some "D"%char) 3).
  - exact scenario_lookup.
  - exact scenario_sortable.
  - lia.
  - done.
  - done.
  - by right.
Defined.

Lemma descending_reverses_perm_witness :
  reverse_perm 3 [1; 2; 0] = foldl (swap_perm 3) [1; 2; 0] (seq 0 (3 / 2)) ∧
  (∀ k, k < 3 → reverse_perm 3 [1; 2; 0] !! k = [1; 2; 0] !! (3 - 1 - k)) ∧
  sort_perm [3%float; 1%float; 2%float] 3 "d"
  = reverse_perm 3 (gsl_sort_vector_index [3%float; 1%float; 2%float]) ∧
  apop_data_sort_base 4 scenario_table 0 "d"
  = Some {| vector := None;
            matrix := Some [[3%float]; [2%float]; [1%float]];
            text := Some [["c"%string]; ["b"%string]; ["a"%string]] |}.
Proof.
  apply (descending_reverses_perm [1; 2; 0] 3
           [3%float; 1%float; 2%float] "d").
  - reflexivity.
  - by left.
Defined.

(** The scenario table after the descending sort: keys 3, 2, 1. *)
Lemma sorted_scenario_descending :
  strictly_descending [3%float; 2%float; 1%float].
Proof.
  intros i j x y Hij Hi Hj.
  destruct i as [|[|[|i]]], j as [|[|[|j]]]; simplify_eq/=; try lia;
    by vm_compute.
Defined.

Lemma apop_data_sort_sorted_again_witness :
  let d := {| vector := None;
              matrix := Some [[3%float]; [2%float]; [1%float]];
              text := Some [["c"%string]; ["b"%string]; ["a"%string]] |} in
  (∀ perm, index_sorted [3%float; 2%float; 1%float] perm →
     oriented_perm 3 (default "000"%char (Some "D"%char)) perm = seq 0 3) ∧
  apop_data_sort 4 {| verbose := 0 |} (memory_with 0 d) (Some 0) None
    (Some "D"%char)
  = Some ({| tables := <[0 := d]> (tables (memory_with 0 d)); log := [] |},
          Some 0).
Proof.
  intros d.
  apply (apop_data_sort_sorted_again 4 {| verbose := 0 |} (memory_with 0 d)
           0 d None (Some "D"%char) 3 [3%float; 2%float; 1%float]).
  - reflexivity.
  - split_and!; [split_and!; [by left|by right|by right]|done|by eexists].
  - lia.
  - reflexivity.
  - right. split; [by right|exact sorted_scenario_descending].
Defined.

End ApopFacts.

(** ** The harmonic memoizer *)

Module HarmonicFacts.
Import Double DoubleFacts Gsl Harmonic.

Lemma length_realloc {A} (fill : A) (l : list A) (n : nat) :
  length (realloc fill l n) = n.
Proof.
  unfold realloc. rewrite length_app, length_take, length_replicate. lia.
Qed.

Lemma lookup_total_realloc `{!Inhabited A} (fill : A) (l : list A) n k :
  k < n → k < length l → realloc fill l n !!! k = l !!! k.
Proof.
  intros Hn Hl. unfold realloc.
  rewrite lookup_total_app_l by (rewrite length_take; lia).
  by rewrite lookup_total_take_lt by lia.
Qed.

(** Growing an array by one slot and writing it. *)
Lemma realloc_snoc {A} (fill x : A) (l : list A) (c : nat) :
  length l = c → <[c := x]> (realloc fill l (S c)) = l ++ [x].
Proof.
  intros <-. unfold realloc. rewrite take_ge by lia.
  replace (S (length l) - length l) with 1 by lia. simpl.
  replace (length l) with (length l + 0) at 1 by lia.
  by rewrite insert_app_r.
Qed.

Lemma insert_snoc {A} (x y : A) (l : list A) (c : nat) :
  length l = c → <[c := y]> (l ++ [x]) = l ++ [y].
Proof.
  intros <-. replace (length l) with (length l + 0) at 1 by lia.
  by rewrite insert_app_r.
Qed.

Lemma lookup_total_snoc `{!Inhabited A} (x : A) (l : list A) (c : nat) :
  length l = c → (l ++ [x]) !!! c = x.
Proof. intros <-. by rewrite list_lookup_total_middle. Qed.

Section harmonic_facts.
Variable pow : double → double → double.
Variable uninit : double.

(** What the model asks of the C library: [pow(1, s)] is 1 for every [s],
    and exponents that compare equal with [==] give the same power. *)
Hypothesis pow_one : ∀ s, pow 1%float s = 1%float.
Hypothesis pow_eq : ∀ x s s', eq s s' = true → pow x s = pow x s'.

Local Abbreviation term := (Harmonic.term pow).
Local Abbreviation harmonic_sum := (Harmonic.harmonic_sum pow).
Local Abbreviation apop_generalized_harmonic :=
  (Harmonic.apop_generalized_harmonic pow uninit).

Lemma term_one s : term 1 s = 1%float.
Proof.
  unfold Harmonic.term.
  change (double_of_int (Z.of_nat 1)) with 1%float. by rewrite pow_one.
Qed.

Lemma harmonic_sum_one s : harmonic_sum 1 s = 1%float.
Proof. simpl. by rewrite term_one. Qed.

Lemma harmonic_sum_eq n e s :
  eq e s = true → harmonic_sum n e = harmonic_sum n s.
Proof.
  intros He. induction n as [|n IH]; simpl; [done|].
  rewrite IH. unfold Harmonic.term. by rewrite (pow_eq _ e s).
Qed.

Lemma extend_row_spec steps row s j :
  1 ≤ j → j + steps ≤ length row →
  (∀ k, k < j → row !!! k = harmonic_sum (S k) s) →
  length (extend_row pow steps row s j) = length row ∧
  ∀ k, k < j + steps →
    extend_row pow steps row s j !!! k = harmonic_sum (S k) s.
Proof.
  revert row j. induction steps as [|steps IH]; intros row j Hj Hlen Hrow; simpl.
  { split; [done|]. intros k Hk. apply Hrow. lia. }
  destruct (IH (<[j := (row !!! (j - 1)%nat + term (j + 1)%nat s)%float]> row)
              (S j)) as [Hl Hr].
  - lia.
  - rewrite length_insert. lia.
  - intros k Hk. destruct (decide (k = j)) as [->|Hne].
    + rewrite list_lookup_total_insert_eq by lia.
      rewrite Hrow by lia. replace (S (j - 1)) with j by lia.
      by replace (j + 1) with (S j) by lia.
    + rewrite list_lookup_total_insert_ne by done. apply Hrow. lia.
  - rewrite length_insert in Hl. split; [done|]. intros k Hk. apply Hr. lia.
Qed.

Lemma search_s_spec n eses s count i0 :
  length eses = count → count - i0 ≤ n → i0 ≤ count →
  let i := search_s n eses s count i0 in
  i ≤ count ∧ (i < count → eq (eses !!! i) s = true).
Proof.
  intros Hlen. revert i0. induction n as [|n IH]; intros i0 Hn Hi0; simpl.
  { split; [done|]. intros ?. lia. }
  case_decide as Hlt; [|split; [done|intros ?; lia]].
  destruct (bool_decide (eses = []) || eq (eses !!! i0) s) eqn:E.
  - split; [lia|]. intros _. apply orb_true_iff in E as [E|E]; [|done].
    apply bool_decide_eq_true in E. subst eses. simpl in *. lia.
  - apply IH; lia.
Qed.

Local Abbreviation harmonic_inv := (Harmonic.harmonic_inv pow).

Lemma harmonic_inv_init : harmonic_inv harmonic_init.
Proof. split; try done. simpl. intros i ?. lia. Qed.

(** A first call for an exponent: a new row is appended and filled. *)
Lemma harmonic_new_row st n s :
  harmonic_inv st → 0 < n →
  let row0 := <[0 := 1%float]> (replicate n uninit) in
  let row :=
    if decide (1 ≤ n - 1)
    then extend_row pow (n - 1) (realloc uninit row0 n) s 1 else row0 in
  row !!! (n - 1) = harmonic_sum n s ∧
  harmonic_inv {| eses := eses st ++ [s]; lengths := lengths st ++ [n];
                  count := S (count st);
                  precalced := precalced st ++ [row] |}.
Proof.
  intros [He Hl Hp Hrows] Hn row0 row.
  assert (length row0 = n) as Hlen0.
  { unfold row0. by rewrite length_insert, length_replicate. }
  assert (row0 !!! 0 = 1%float) as H0.
  { unfold row0. apply list_lookup_total_insert_eq.
    rewrite length_replicate. lia. }
  assert (length row = n ∧ ∀ k, k < n → row !!! k = harmonic_sum (S k) s)
    as [Hlen Hrow].
  { unfold row. case_decide as Hc.
    - destruct (extend_row_spec (n - 1) (realloc uninit row0 n) s 1) as [Hl' Hr'].
      + done.
      + rewrite length_realloc. lia.
      + intros k Hk. assert (k = 0) as -> by lia.
        rewrite lookup_total_realloc by lia. by rewrite H0, harmonic_sum_one.
      + rewrite length_realloc in Hl'. split; [done|].
        intros k Hk. apply Hr'. lia.
    - split; [done|]. intros k Hk. assert (k = 0) as -> by lia.
      by rewrite H0, harmonic_sum_one. }
  split.
  { rewrite Hrow by lia. f_equal. lia. }
  assert ((lengths st ++ [n]) !!! count st = n) as Hln
    by by apply lookup_total_snoc.
  assert ((precalced st ++ [row]) !!! count st = row) as Hpn
    by by apply lookup_total_snoc.
  assert ((eses st ++ [s]) !!! count st = s) as Hen
    by by apply lookup_total_snoc.
  split; cbn [count eses lengths precalced].
  - rewrite length_app. simpl. lia.
  - rewrite length_app. simpl. lia.
  - rewrite length_app. simpl. lia.
  - intros i Hi. destruct (decide (i = count st)) as [->|Hne].
    + rewrite Hln, Hpn, Hen. split_and!; [lia|lia|done].
    + rewrite !lookup_total_app_l by lia. apply Hrows. lia.
Qed.

(** A later call for a stored exponent: the row is extended when it is too
    short. *)
Lemma harmonic_old_row st n s i :
  harmonic_inv st → 0 < n → i < count st → eq (eses st !!! i) s = true →
  let st' :=
    if decide (lengths st !!! i ≤ n - 1) then
      {| eses := eses st; lengths := lengths st; count := count st;
         precalced :=
           <[i := extend_row pow (n - lengths st !!! i)
                    (realloc uninit (precalced st !!! i) n) s
                    (lengths st !!! i)]> (precalced st) |}
    else st in
  (precalced st' !!! i) !!! (n - 1) = harmonic_sum n s ∧ harmonic_inv st'.
Proof.
  intros [He Hl Hp Hrows] Hn Hi Heq st'.
  destruct (Hrows i Hi) as (Hlen1 & Hlen2 & Hrow).
  unfold st'. case_decide as Hc.
  - destruct (extend_row_spec (n - lengths st !!! i)
                (realloc uninit (precalced st !!! i) n) s (lengths st !!! i))
      as [Hl' Hr'].
    + done.
    + rewrite length_realloc. lia.
    + intros k Hk. rewrite lookup_total_realloc by lia.
      rewrite Hrow by done. by apply harmonic_sum_eq.
    + rewrite length_realloc in Hl'. simpl.
      rewrite list_lookup_total_insert_eq by lia. split.
      { rewrite Hr' by lia. f_equal. lia. }
      split; cbn [count eses lengths precalced]; try done.
      * by rewrite length_insert.
      * intros i' Hi'. destruct (decide (i' = i)) as [->|Hne].
        -- rewrite list_lookup_total_insert_eq by lia.
           split_and!; [done|lia|]. intros k Hk. rewrite Hr' by lia.
           symmetry. by apply (harmonic_sum_eq (S k)).
        -- rewrite list_lookup_total_insert_ne by done. by apply Hrows.
  - split; [|done]. rewrite Hrow by lia.
    replace (S (n - 1)) with n by lia. by apply harmonic_sum_eq.
Qed.

Lemma apop_generalized_harmonic_correct st N s :
  harmonic_inv st → (0 < N)%Z →
  (apop_generalized_harmonic st N s).1 = harmonic_sum (Z.to_nat N) s ∧
  harmonic_inv (apop_generalized_harmonic st N s).2.
Proof.
  intros Hinv HN. unfold Harmonic.apop_generalized_harmonic.
  rewrite decide_False by lia.
  pose proof Hinv as [He Hl Hp Hrows].
  destruct (search_s_spec (count st) (eses st) s (count st) 0 He)
    as [Hi Hfound]; [lia..|].
  set (i := search_s (count st) (eses st) s (count st) 0) in *.
  assert (0 < Z.to_nat N) as Hn by lia.
  case_decide as Hnew.
  - replace (S (count st) - 1) with (count st) by lia.
    rewrite (realloc_snoc _ _ _ _ Hp), (realloc_snoc _ _ _ _ Hl),
      (realloc_snoc _ _ _ _ He).
    rewrite (lookup_total_snoc _ _ _ Hp), (insert_snoc _ _ _ _ Hp).
    destruct (harmonic_new_row st (Z.to_nat N) s Hinv Hn) as [Hval Hinv'].
    case_decide as Hc; cbn [count eses lengths precalced fst snd].
    + rewrite (lookup_total_snoc _ _ _ Hp), (insert_snoc _ _ _ _ Hp).
      by rewrite (lookup_total_snoc _ _ _ Hp).
    + by rewrite (lookup_total_snoc _ _ _ Hp).
  - assert (i < count st) as Hi' by lia.
    destruct (harmonic_old_row st (Z.to_nat N) s i Hinv Hn Hi' (Hfound Hi'))
      as [Hval Hinv'].
    by case_decide as Hc; cbn [fst snd].
Qed.

Lemma reachable_inv st : reachable pow uninit st → harmonic_inv st.
Proof.
  induction 1 as [|st N s _ IH]; [apply harmonic_inv_init|].
  destruct (decide (N ≤ 0)%Z) as [HN|HN].
  - unfold Harmonic.apop_generalized_harmonic. by rewrite decide_True by done.
  - apply apop_generalized_harmonic_correct; [done|lia].
Qed.

(** C9: whatever calls came before, [apop_generalized_harmonic(N, s)] returns
    for [N > 0] the sum of [1/n^s] over [n] from 1 to [N], so the table of
    saved results never changes a value; for [N <= 0] it returns NaN. *)
Theorem apop_generalized_harmonic_sum (st : harmonic_state) (N : Z)
    (s : double) :
  reachable pow uninit st →
  ((0 < N)%Z →
   (apop_generalized_harmonic st N s).1 = harmonic_sum (Z.to_nat N) s) ∧
  ((N ≤ 0)%Z → (apop_generalized_harmonic st N s).1 = GSL_NAN).
Proof.
  intros Hst%reachable_inv. split.
  - intros HN. by apply apop_generalized_harmonic_correct.
  - intros HN. unfold Harmonic.apop_generalized_harmonic.
    by rewrite decide_True by done.
Qed.

End harmonic_facts.

Lemma pow_sample_one (s : double) : pow_sample 1%float s = 1%float.
Proof. unfold pow_sample. by destruct (eq s 0%float). Qed.

Lemma pow_sample_eq (x s s' : double) :
  eq s s' = true → pow_sample x s = pow_sample x s'.
Proof.
  intros Heq. unfold pow_sample.
  destruct (eq_compat s s' 0%float Heq) as [-> _].
  destruct (eq_compat s s' 1%float Heq) as [-> _].
  by destruct (eq_compat s s' 2%float Heq) as [-> _].
Qed.

(** The theorem after a first call for the same exponent with a shorter
    sum. *)
Lemma apop_generalized_harmonic_sum_witness :
  let st := (apop_generalized_harmonic pow_sample 0%float harmonic_init 3
               2%float).2 in
  ((0 < 5)%Z →
   (apop_generalized_harmonic pow_sample 0%float st 5 2%float).1
   = harmonic_sum pow_sample (Z.to_nat 5) 2%float) ∧
  ((5 ≤ 0)%Z →
   (apop_generalized_harmonic pow_sample 0%float st 5 2%float).1 = GSL_NAN).
Proof.
  intros st.
  apply (apop_generalized_harmonic_sum pow_sample 0%float
           pow_sample_one pow_sample_eq st 5 2%float).
  apply reachable_call, reachable_init.
Defined.

End HarmonicFacts.

(** ** The percentiles *)

Module PercentilesFacts.
Import Double DoubleFacts Gsl GslFacts Percentiles.

Lemma percentile_0 sorted size rounding :
  percentile sorted size rounding 0 = gsl_vector_get sorted 0.
Proof.
  unfold percentile. simpl. by rewrite !andb_false_r.
Qed.

Lemma percentile_100 sorted size rounding :
  1 ≤ size →
  percentile sorted size rounding 100 = gsl_vector_get sorted (size - 1).
Proof.
  intros Hsize. unfold percentile.
  set (q := (Z.of_nat 100 * (Z.of_nat size - 1))%Z).
  assert (q / 100 = Z.of_nat size - 1)%Z as Hq.
  { unfold q. rewrite Z.mul_comm. by apply Z.div_mul. }
  assert ((100 * (q / 100) =? q)%Z = true) as Hex.
  { rewrite Hq. apply Z.eqb_eq. unfold q. lia. }
  rewrite Hex. cbn [negb]. rewrite andb_false_r.
  rewrite Hex. cbn [negb]. rewrite andb_false_r. rewrite Hq. f_equal. lia.
Qed.

Lemma percentiles_run (gsl_sort_vector : gsl_vector → gsl_vector)
    (data : gsl_vector) (rounding : option ascii) :
  apop_vector_percentiles gsl_sort_vector (Some data) rounding
  = Some (percentile (gsl_sort_vector data) (length data)
            (default "d"%char rounding) <$> seq 0 101, data).
Proof. reflexivity. Qed.

Lemma percentiles_lookup (f : nat → double) (i : nat) :
  i < 101 → (f <$> seq 0 101) !!! i = f i.
Proof.
  intros Hi. apply list_lookup_total_correct.
  by rewrite list_lookup_fmap, lookup_seq_lt.
Qed.

Lemma in_order_first (w data : gsl_vector) :
  w ≡ₚ data → in_order w → Forall (λ x, isnan x = false) data →
  1 ≤ length data → is_minimum (gsl_vector_get w 0) data.
Proof.
  intros Hp Ho Hn Hl. rewrite Forall_forall in Hn.
  assert (length w = length data) as Hlen by (by rewrite Hp).
  destruct (lookup_lt_is_Some_2 w 0) as [m Hm]; [lia|].
  unfold gsl_vector_get. rewrite (list_lookup_total_correct _ _ _ Hm).
  split.
  - rewrite <- Hp. by eapply list_elem_of_lookup_2.
  - intros x Hx. pose proof (Hn x Hx) as Hnx. rewrite <- Hp in Hx.
    apply list_elem_of_lookup_1 in Hx as [j Hj]. destruct j as [|j].
    + assert (x = m) as -> by congruence. by apply le_refl.
    + apply (Ho 0 (S j)); [lia|done|done].
Qed.

Lemma in_order_last (w data : gsl_vector) :
  w ≡ₚ data → in_order w → Forall (λ x, isnan x = false) data →
  1 ≤ length data → is_maximum (gsl_vector_get w (length data - 1)) data.
Proof.
  intros Hp Ho Hn Hl. rewrite Forall_forall in Hn.
  assert (length w = length data) as Hlen by (by rewrite Hp).
  destruct (lookup_lt_is_Some_2 w (length data - 1)) as [m Hm]; [lia|].
  unfold gsl_vector_get. rewrite (list_lookup_total_correct _ _ _ Hm).
  split.
  - rewrite <- Hp. by eapply list_elem_of_lookup_2.
  - intros x Hx. pose proof (Hn x Hx) as Hnx. rewrite <- Hp in Hx.
    apply list_elem_of_lookup_1 in Hx as [j Hj].
    pose proof (lookup_lt_Some _ _ _ Hj) as Hjl.
    destruct (decide (j = length data - 1)) as [->|Hne].
    + assert (x = m) as -> by congruence. by apply le_refl.
    + apply (Ho j (length data - 1)); [lia|done|done].
Qed.

(** C10, as amended: for a vector of at least one entry, none of them NaN,
    and any rounding rule, [apop_vector_percentiles] returns 101 values;
    entry 0 is the minimum of the data and entry 100 its maximum (an entry
    of the data that is [<=], respectively [>=], every entry), and the
    caller's vector is unchanged.  Of [gsl_sort_vector] this needs that it
    rearranges the vector into ascending order. *)
Theorem apop_vector_percentiles_extremes
    (gsl_sort_vector : gsl_vector → gsl_vector) (data : gsl_vector)
    (rounding : option ascii) :
  1 ≤ length data → Forall (λ x, isnan x = false) data →
  gsl_sort_vector data ≡ₚ data → in_order (gsl_sort_vector data) →
  ∃ pctiles,
    apop_vector_percentiles gsl_sort_vector (Some data) rounding
    = Some (pctiles, data) ∧
    length pctiles = 101 ∧
    is_minimum (pctiles !!! 0) data ∧
    is_maximum (pctiles !!! 100) data.
Proof.
  intros Hlen Hnan Hperm Hord. eexists. split; [apply percentiles_run|].
  rewrite !percentiles_lookup by lia.
  rewrite percentile_0, percentile_100 by done.
  split_and!.
  - by rewrite length_fmap, length_seq.
  - by apply in_order_first.
  - by apply in_order_last.
Qed.

(** C10, as stated, fails on data with a NaN.  The vector (NaN, 1) has two
    arrangements; whichever of them the sort leaves, entry 0 or entry 100 of
    the result is the NaN, under every rounding rule, and so they are not
    the minimum and the maximum of the data. *)
Lemma apop_vector_percentiles_nan_extremes :
  (∀ w : gsl_vector, w ≡ₚ [GSL_NAN; 1%float] →
     w ∈ [[GSL_NAN; 1%float]; [1%float; GSL_NAN]]) ∧
  Forall (λ sorted : gsl_vector,
            ∀ rounding, ∃ pctiles,
              apop_vector_percentiles (λ _, sorted)
                (Some [GSL_NAN; 1%float]) rounding
              = Some (pctiles, [GSL_NAN; 1%float]) ∧
              (isnan (pctiles !!! 0) = true
               ∨ isnan (pctiles !!! 100) = true) ∧
              ¬ (is_minimum (pctiles !!! 0) [GSL_NAN; 1%float] ∧
                 is_maximum (pctiles !!! 100) [GSL_NAN; 1%float]))
    [[GSL_NAN; 1%float]; [1%float; GSL_NAN]].
Proof.
  split.
  { intros w Hw. symmetry in Hw.
    apply Permutation_length_2_inv in Hw as [->| ->]; set_solver. }
  assert (∀ m, ¬ is_minimum m [GSL_NAN; 1%float]) as Hmin.
  { intros m [_ Hm]. specialize (Hm GSL_NAN ltac:(set_solver)).
    by rewrite le_nan_r in Hm. }
  repeat apply Forall_cons_2; [| |apply Forall_nil_2];
    intros rounding; eexists; (split; [apply percentiles_run|]);
    rewrite !percentiles_lookup by lia;
    rewrite percentile_0, percentile_100 by (simpl; lia);
    (split; [|intros [Hm _]; by apply Hmin in Hm]).
  - by left.
  - by right.
Qed.

Lemma sort_sample_perm :
  sort_sample [3%float; 1%float; 2%float] ≡ₚ [3%float; 1%float; 2%float].
Proof.
  change ([1%float; 2%float; 3%float] ≡ₚ [3%float; 1%float; 2%float]).
  symmetry. by apply (Permutation_cons_app [1%float; 2%float] [] 3%float).
Qed.

Lemma sort_sample_in_order : in_order (sort_sample [3%float; 1%float; 2%float]).
Proof.
  change (in_order [1%float; 2%float; 3%float]).
  intros i j x y Hij Hi Hj.
  destruct i as [|[|[|i]]], j as [|[|[|j]]]; simplify_eq/=; done || lia.
Qed.

Lemma apop_vector_percentiles_extremes_witness :
  ∃ pctiles,
    apop_vector_percentiles sort_sample (Some [3%float; 1%float; 2%float])
      (Some "a"%char)
    = Some (pctiles, [3%float; 1%float; 2%float]) ∧
    length pctiles = 101 ∧
    is_minimum (pctiles !!! 0) [3%float; 1%float; 2%float] ∧
    is_maximum (pctiles !!! 100) [3%float; 1%float; 2%float].
Proof.
  apply (apop_vector_percentiles_extremes sort_sample
           [3%float; 1%float; 2%float] (Some "a"%char)).
  - simpl. lia.
  - by repeat constructor.
  - exact sort_sample_perm.
  - exact sort_sample_in_order.
Defined.

End PercentilesFacts.

(** ** Counting parentheses *)

Module ParensFacts.
Import Parens.

Lemma count_parens_from_unescaped (s : string) (out run : nat) :
  count_parens_from s out (Nat.odd run) = out + unescaped_parens s run.
Proof.
  revert out run. induction s as [|c s IH]; intros out run; simpl; [lia|].
  destruct (c =? "\")%char eqn:Hb; simpl.
  - destruct (Nat.odd run) eqn:Ho; simpl.
    + assert ((c =? ")")%char = false) as ->.
      { apply Ascii.eqb_eq in Hb as ->. done. }
      simpl. rewrite <- (IH out (S run)). f_equal.
      rewrite Nat.odd_succ, <- Nat.negb_odd, Ho. done.
    + rewrite <- (IH out (S run)). f_equal.
      rewrite Nat.odd_succ, <- Nat.negb_odd, Ho. done.
  - rewrite <- Nat.negb_odd.
    destruct ((c =? ")")%char && negb (Nat.odd run)); rewrite (IH _ 0); lia.
Qed.

(** X1: [count_parens] counts exactly the closing parentheses that stand
    after an even number (possibly zero) of consecutive backslashes: the
    flag [last_was_backslash] is the parity of the run of backslashes. *)
Theorem count_parens_unescaped (s : string) :
  count_parens s = unescaped_parens s 0.
Proof. apply (count_parens_from_unescaped s 0 0). Qed.

Lemma unescaped_parens_le (s : string) (run : nat) :
  unescaped_parens s run ≤ occurrences ")" s.
Proof.
  revert run. induction s as [|c s IH]; intros run; simpl; [done|].
  destruct (c =? "\")%char eqn:Hb.
  - specialize (IH (S run)). lia.
  - specialize (IH 0).
    destruct (c =? ")")%char, (Nat.even run); simpl; lia.
Qed.

Lemma unescaped_parens_plain (s : string) :
  occurrences "\" s = 0 → unescaped_parens s 0 = occurrences ")" s.
Proof.
  induction s as [|c s IH]; simpl; [done|].
  destruct (c =? "\")%char; [done|]. intros Hs. rewrite IH by done.
  by destruct (c =? ")")%char.
Qed.

(** X2: [count_parens] never exceeds the number of closing parentheses of
    the string, and equals it when the string has no backslash. *)
Theorem count_parens_bound (s : string) :
  count_parens s ≤ occurrences ")" s ∧
  (occurrences "\" s = 0 → count_parens s = occurrences ")" s).
Proof.
  pose proof (count_parens_from_unescaped s 0 0) as Hcount.
  change (count_parens s = unescaped_parens s 0) in Hcount.
  rewrite Hcount. split.
  - apply unescaped_parens_le.
  - apply unescaped_parens_plain.
Qed.

Example count_parens_sample :
  count_parens "(a)\)(\\)(b\\\))" = 3.
Proof. reflexivity. Qed.

End ParensFacts.

(** ** Joining text *)

Module PasteFacts.
Import Apop Paste.

Lemma append_nil_r (s : string) : String.append s EmptyString = s.
Proof.
  induction s as [|c s IH]; [done|].
  change (String c (String.append s EmptyString) = String c s). by f_equal.
Qed.

Lemma append_assoc (a b c : string) :
  String.append (String.append a b) c = String.append a (String.append b c).
Proof.
  induction a as [|x a IH]; [done|].
  change (String x (String.append (String.append a b) c)
          = String x (String.append a (String.append b c))).
  by f_equal.
Qed.

Lemma concat_snoc (sep x : string) (l : list string) :
  l ≠ [] →
  String.concat sep (l ++ [x])
  = String.append (String.concat sep l) (String.append sep x).
Proof.
  induction l as [|y l IH]; [done|]. intros _.
  destruct l as [|z l]; [done|].
  change (String.concat sep ((y :: z :: l) ++ [x]))
    with (String.append y (String.append sep
            (String.concat sep ((z :: l) ++ [x])))).
  rewrite IH by done.
  change (String.concat sep (y :: z :: l))
    with (String.append y (String.append sep (String.concat sep (z :: l)))).
  by rewrite !append_assoc.
Qed.

Lemma tack_on_none (out : option string) : apop_tack_on out None = out.
Proof. done. Qed.

Local Abbreviation line strings between_cols prune i :=
  (foldl (paste_cell strings between_cols prune i) None
     (seq 0 (textsize1 strings))).

Lemma paste_cells_skip strings between_cols prune i l acc :
  (∀ j, j ∈ l → skipped prune strings i j = true) →
  foldl (paste_cell strings between_cols prune i) acc l = acc.
Proof.
  revert acc. induction l as [|j l IH]; intros acc Hskip; simpl; [done|].
  unfold paste_cell at 2. rewrite Hskip by set_solver.
  apply IH. intros j' ?. apply Hskip. set_solver.
Qed.

Lemma paste_cells_keep strings between_cols prune i l acc :
  (∀ j, j ∈ l → skipped prune strings i j = false) →
  foldl (paste_cell strings between_cols prune i) acc l
  = foldl (paste_cell strings between_cols None i) acc l.
Proof.
  revert acc. induction l as [|j l IH]; intros acc Hkeep; simpl; [done|].
  rewrite IH by (intros j' ?; apply Hkeep; set_solver).
  f_equal. unfold paste_cell. rewrite Hkeep by set_solver. done.
Qed.

(** A row of which nothing is kept only flushes the line before it. *)
Lemma paste_line_none strings between between_cols prune p out i :
  line strings between_cols prune i = None →
  paste_line strings between between_cols prune (p, p, out) i
  = (None, None, apop_tack_on out p).
Proof.
  intros Hnone. unfold paste_line. rewrite Hnone.
  rewrite bool_decide_eq_false_2 by (intros [_ [? ?]]; done). done.
Qed.

(** A run of rows that all give a line: the separator [between] is written
    before each line that follows another line. *)
Lemma paste_lines_some strings between between_cols prune ls :
  ∀ a p out,
  (∀ t s, ls !! t = Some s →
          line strings between_cols prune (a + t) = Some s) →
  ∃ p' out',
    foldl (paste_line strings between between_cols prune) (p, p, out)
      (seq a (length ls)) = (p', p', out') ∧
    (ls = [] → p' = p ∧ out' = out) ∧
    (ls ≠ [] →
     is_Some p' ∧
     apop_tack_on out' p'
     = Some (String.append (default EmptyString (apop_tack_on out p))
               (String.append
                  (match p with Some _ => between | None => EmptyString end)
                  (String.concat between ls)))).
Proof.
  induction ls as [|x ls IH] using rev_ind; intros a p out Hline.
  { exists p, out. split_and!; done. }
  destruct (IH a p out) as (p1 & out1 & Hrun & Hnil & Hcons).
  { intros t s Ht. apply Hline. by apply lookup_app_l_Some. }
  rewrite length_app, seq_app, foldl_app, Hrun. simpl.
  rewrite (Hline (length ls) x) by (by apply list_lookup_middle).
  eexists _, _. split; [reflexivity|]. split.
  { intros Heq. by destruct ls. }
  intros _. split; [by eexists|].
  destruct ls as [|y ls'] using rev_ind.
  - destruct Hnil as [-> ->]; [done|]. destruct p as [q|].
    + rewrite bool_decide_eq_true_2 by (split; eexists; done).
      simpl. f_equal. by rewrite !append_assoc.
    + rewrite bool_decide_eq_false_2 by (intros [[? ?] _]; done). done.
  - clear IHls'. destruct Hcons as [[q ->] Hout].
    { intros Heq. by destruct ls'. }
    rewrite bool_decide_eq_true_2 by (split; eexists; done).
    rewrite Hout. simpl. f_equal.
    rewrite (concat_snoc between x (ls' ++ [y])) by (by destruct ls').
    by rewrite !append_assoc.
Qed.

Lemma tack_on_some (w : string) (after : option string) :
  apop_tack_on (Some w) after
  = Some (String.append w (default EmptyString after)).
Proof. destruct after; simpl; [done|]. by rewrite append_nil_r. Qed.

Section paste.
Variable strings : apop_data.
Variable grid : list (list string).
Variable cols : nat.
Hypothesis Hgrid : rectangular strings grid cols.
Hypothesis Hrows : grid ≠ [].

Lemma textsize0_grid : textsize0 strings = length grid.
Proof. destruct Hgrid as [Ht _]. unfold textsize0. by rewrite Ht. Qed.

Lemma textsize1_grid : textsize1 strings = cols.
Proof.
  destruct Hgrid as [Ht Hall]. unfold textsize1. rewrite Ht. simpl.
  destruct grid as [|row rest]; [done|]. simpl.
  by apply Forall_cons in Hall as [? _].
Qed.

Lemma text_cell_grid i j row c :
  grid !! i = Some row → row !! j = Some c → text_cell strings i j = c.
Proof.
  intros Hi Hj. destruct Hgrid as [Ht _]. unfold text_cell. rewrite Ht. simpl.
  rewrite (list_lookup_total_correct _ _ _ Hi).
  by apply list_lookup_total_correct.
Qed.

(** The inner loop without pruning, from column [j0] on. *)
Lemma paste_cells_join between_cols i row j0 rest acc :
  grid !! i = Some row → drop j0 row = rest → rest ≠ [] →
  foldl (paste_cell strings between_cols None i) acc
    (seq j0 (length rest))
  = Some (String.append (default EmptyString acc)
            (String.concat between_cols rest)).
Proof.
  intros Hi. revert j0 acc. induction rest as [|c rest IH]; [done|].
  intros j0 acc Hdrop _.
  assert (row !! j0 = Some c) as Hc.
  { rewrite <- (Nat.add_0_r j0), <- lookup_drop, Hdrop. done. }
  assert (drop (S j0) row = rest) as Hdrop'.
  { replace (S j0) with (j0 + 1) by lia. by rewrite <- drop_drop, Hdrop. }
  assert (length row = cols) as Hlen.
  { destruct Hgrid as [_ Hall]. rewrite Forall_forall in Hall.
    apply Hall. by eapply list_elem_of_lookup_2. }
  assert (j0 + S (length rest) = cols) as Hj0.
  { rewrite <- Hlen. apply (f_equal length) in Hdrop.
    rewrite length_drop in Hdrop. simpl in Hdrop.
    pose proof (lookup_lt_Some _ _ _ Hc). lia. }
  simpl. unfold paste_cell at 2. simpl.
  rewrite (text_cell_grid i j0 row c) by done. rewrite textsize1_grid.
  destruct rest as [|c' rest'].
  - rewrite decide_False by (simpl in *; lia). done.
  - rewrite decide_True by (simpl in *; lia).
    rewrite (IH (S j0)) by done. simpl. f_equal.
    by rewrite !append_assoc.
Qed.

Lemma paste_row_join between_cols i row :
  1 ≤ cols → grid !! i = Some row →
  foldl (paste_cell strings between_cols None i) None
    (seq 0 (textsize1 strings))
  = Some (String.concat between_cols row).
Proof.
  intros Hcols Hi.
  assert (length row = cols) as Hlen.
  { destruct Hgrid as [_ Hall]. rewrite Forall_forall in Hall.
    apply Hall. by eapply list_elem_of_lookup_2. }
  rewrite textsize1_grid, <- Hlen.
  rewrite (paste_cells_join between_cols i row 0 row None); try done.
  intros ->. simpl in *. lia.
Qed.

Lemma row_length i row : grid !! i = Some row → length row = cols.
Proof.
  intros Hi. destruct Hgrid as [_ Hall]. rewrite Forall_forall in Hall.
  apply Hall. by eapply list_elem_of_lookup_2.
Qed.

Lemma paste_rows_join between_cols (rs : list (list string)) a :
  1 ≤ cols → (∀ t r, rs !! t = Some r → grid !! (a + t) = Some r) →
  ∀ t s, (String.concat between_cols <$> rs) !! t = Some s →
    line strings between_cols None (a + t) = Some s.
Proof.
  intros Hcols Hrs t s Ht. rewrite list_lookup_fmap in Ht.
  destruct (rs !! t) as [r|] eqn:Hr; [|done]. simpl in Ht.
  injection Ht as <-. apply paste_row_join; [done|]. by apply Hrs.
Qed.

(** The cells before the last column, none pruned: each is followed by
    [between_cols]. *)
Lemma paste_cells_front between_cols i row front acc :
  grid !! i = Some row → front = take (length front) row →
  length front < cols → front ≠ [] →
  foldl (paste_cell strings between_cols None i) acc
    (seq 0 (length front))
  = Some (String.append (default EmptyString acc)
            (String.append (String.concat between_cols front)
               between_cols)).
Proof.
  intros Hi. revert acc.
  induction front as [|c front IH] using rev_ind; [done|].
  intros acc Htake Hlt _. rewrite length_app in Htake, Hlt. simpl in *.
  assert (row !! length front = Some c) as Hc.
  { apply (f_equal (λ l, l !! length front)) in Htake.
    rewrite list_lookup_middle in Htake by done.
    rewrite lookup_take_lt in Htake by lia. done. }
  assert (front = take (length front) row) as Hfront.
  { apply (f_equal (take (length front))) in Htake.
    rewrite take_app_length in Htake. rewrite Htake at 1.
    rewrite take_take. f_equal. lia. }
  rewrite length_app, seq_app, foldl_app. simpl.
  unfold paste_cell at 1. simpl.
  rewrite (text_cell_grid i (length front) row c) by done.
  rewrite textsize1_grid. rewrite decide_True by lia.
  destruct front as [|y front'] using rev_ind.
  - simpl. f_equal. by rewrite !append_assoc.
  - clear IHfront'. rewrite IH; [|done|lia|by destruct front'].
    simpl. f_equal.
    rewrite (concat_snoc between_cols c (front' ++ [y]))
      by (by destruct front').
    by rewrite !append_assoc.
Qed.

End paste.

(** X3: without a pruning function, on a text grid with at least one row and
    one column, [apop_text_paste] returns [before], then the rows joined by
    [between], each row being its cells joined by [between_cols], then
    [after]; a [NULL] [before] or [after] counts as empty, a [NULL] [between]
    is one space and a [NULL] [between_cols] is [between]. *)
Theorem apop_text_paste_joins (opts : apop_opts_type) (strings : apop_data)
    (grid : list (list string)) (cols : nat)
    (between between_cols before after : option string) :
  rectangular strings grid cols → grid ≠ [] → 1 ≤ cols →
  fst <$> apop_text_paste opts (Some strings) between before after
            between_cols None
  = Some (Some (String.append (default EmptyString before)
            (String.append
               (String.concat (default " "%string between)
                  (String.concat
                     (default (default " "%string between) between_cols)
                   <$> grid))
               (default EmptyString after)))).
Proof.
  intros Hgrid Hrows Hcols. unfold apop_text_paste, apop_text_paste_base.
  cbn [mbind option_bind fmap option_fmap option_map].
  rewrite (textsize0_grid strings grid cols Hgrid).
  set (bt := default " "%string between).
  set (bc := default bt between_cols).
  destruct (paste_lines_some strings bt bc None (String.concat bc <$> grid)
              0 None before) as (p' & out' & Hrun & _ & Hcons).
  { by apply (paste_rows_join strings grid cols Hgrid). }
  rewrite length_fmap in Hrun. rewrite Hrun. cbn [fst].
  destruct Hcons as [_ Hout]; [by destruct grid|].
  rewrite Hout. do 2 f_equal. destruct after as [a|]; simpl.
  - by rewrite append_assoc.
  - by rewrite append_nil_r.
Qed.

Lemma apop_text_paste_joins_witness :
  fst <$> apop_text_paste {| verbose := 0 |} (Some paste_table)
            (Some ", "%string) (Some "select "%string) None
            (Some "|"%string) None
  = Some (Some "select a|b, c|d"%string).
Proof.
  apply (apop_text_paste_joins {| verbose := 0 |} paste_table
           [["a"; "b"]; ["c"; "d"]]%string 2
           (Some ", "%string) (Some "|"%string) (Some "select "%string)
           None).
  - split; [reflexivity|]. by repeat constructor.
  - done.
  - lia.
Defined.

Lemma paste_lines_empty strings between between_cols prune before l :
  (∀ i, foldl (paste_cell strings between_cols prune i) None
          (seq 0 (textsize1 strings)) = None) →
  foldl (paste_line strings between between_cols prune)
    (None, None, before) l = (None, None, before).
Proof.
  intros Hnone. induction l as [|i l IH] using rev_ind; [done|].
  rewrite foldl_app, IH. simpl. by rewrite Hnone.
Qed.

(** X4: when the text grid has no row or no column, or when the pruning
    function returns 0 for every cell, [apop_text_paste] returns [before]
    followed by [after], and [NULL] when both are [NULL]; no separator is
    written. *)
Theorem apop_text_paste_nothing (opts : apop_opts_type) (strings : apop_data)
    (between between_cols : string) (before after : option string)
    (prune : option apop_fn_riip) :
  textsize0 strings = 0 ∨ textsize1 strings = 0 ∨
    (∀ i j, skipped prune strings i j = true) →
  (apop_text_paste_base opts strings between before after between_cols
     prune).1
  = apop_tack_on before after.
Proof.
  intros Hempty. unfold apop_text_paste_base.
  destruct Hempty as [H0|Hempty].
  { by rewrite H0. }
  rewrite paste_lines_empty; [done|]. intros i.
  destruct Hempty as [H1|Hskip].
  - by rewrite H1.
  - apply paste_cells_skip. auto.
Qed.

Lemma apop_text_paste_nothing_witness :
  (apop_text_paste_base {| verbose := 0 |} paste_table ", " (Some "<"%string)
     (Some ">"%string) "|" (Some (λ _ _ _, 0%Z))).1
  = Some "<>"%string.
Proof.
  apply (apop_text_paste_nothing {| verbose := 0 |} paste_table ", " "|"
           (Some "<"%string) (Some ">"%string) (Some (λ _ _ _, 0%Z))).
  right. right. reflexivity.
Defined.

(** X5: the pruning function keeps the cells for which it returns a value
    other than 0: a function that never returns 0 gives the result of no
    pruning function at all. *)
Theorem apop_text_paste_prune_keeps (opts : apop_opts_type)
    (strings : apop_data) (between between_cols : string)
    (before after : option string) (f : apop_fn_riip) :
  (∀ i j, f strings i j ≠ 0%Z) →
  apop_text_paste_base opts strings between before after between_cols
    (Some f)
  = apop_text_paste_base opts strings between before after between_cols
      None.
Proof.
  intros Hf. unfold apop_text_paste_base.
  assert (∀ i acc j,
            paste_cell strings between_cols (Some f) i acc j
            = paste_cell strings between_cols None i acc j) as Hcell.
  { intros i acc j. unfold paste_cell, skipped.
    by rewrite bool_decide_eq_false_2 by apply Hf. }
  assert (∀ st i,
            paste_line strings between between_cols (Some f) st i
            = paste_line strings between between_cols None st i) as Hline.
  { intros [[p o] out] i. unfold paste_line.
    assert (∀ l acc,
              foldl (paste_cell strings between_cols (Some f) i) acc l
              = foldl (paste_cell strings between_cols None i) acc l) as ->;
      [|done].
    induction l as [|j l IH]; intros acc; simpl; [done|].
    by rewrite Hcell, IH. }
  assert (∀ l st,
            foldl (paste_line strings between between_cols (Some f)) st l
            = foldl (paste_line strings between between_cols None) st l)
    as ->; [|done].
  induction l as [|i l IH]; intros st; simpl; [done|].
  by rewrite Hline, IH.
Qed.

Lemma apop_text_paste_prune_keeps_witness :
  apop_text_paste_base {| verbose := 3 |} paste_table ", " None None "|"
    (Some (λ _ _ _, 1%Z))
  = apop_text_paste_base {| verbose := 3 |} paste_table ", " None None "|"
      None.
Proof.
  apply (apop_text_paste_prune_keeps {| verbose := 3 |} paste_table ", " "|"
           None None (λ _ _ _, 1%Z)).
  intros _ _. lia.
Defined.

(** X6: a separator follows every kept cell that is not in the last column,
    whether or not a kept cell comes after it: when the pruning function
    drops exactly the last column, every row ends with [between_cols]. *)
Theorem apop_text_paste_pruned_last_column (opts : apop_opts_type)
    (strings : apop_data) (grid : list (list string)) (cols : nat)
    (between between_cols : string) (before after : option string) :
  rectangular strings grid cols → grid ≠ [] → 2 ≤ cols →
  (apop_text_paste_base opts strings between before after between_cols
     (Some (prune_col (cols - 1)))).1
  = Some (String.append (default EmptyString before)
            (String.append
               (String.concat between
                  ((λ row, String.append
                             (String.concat between_cols
                                (take (cols - 1) row))
                             between_cols) <$> grid))
               (default EmptyString after))).
Proof.
  intros Hgrid Hrows Hcols. unfold apop_text_paste_base.
  rewrite (textsize0_grid strings grid cols Hgrid).
  set (g := λ row : list string,
              String.append (String.concat between_cols (take (cols - 1) row))
                between_cols).
  destruct (paste_lines_some strings between between_cols
              (Some (prune_col (cols - 1))) (g <$> grid) 0 None before)
    as (p' & out' & Hrun & _ & Hcons).
  { intros t s Ht. rewrite list_lookup_fmap in Ht.
    destruct (grid !! t) as [row|] eqn:Hrow; [|done]. injection Ht as <-.
    pose proof (row_length strings grid cols Hgrid t row Hrow) as Hlen.
    rewrite (textsize1_grid strings grid cols Hgrid Hrows).
    replace (seq 0 cols) with (seq 0 (cols - 1) ++ [cols - 1]).
    2:{ replace cols with (cols - 1 + 1) at 3 by lia. by rewrite seq_app. }
    rewrite foldl_app. simpl. unfold paste_cell at 1.
    assert (skipped (Some (prune_col (cols - 1))) strings t (cols - 1) = true)
      as ->.
    { unfold skipped, prune_col. by rewrite decide_True. }
    rewrite paste_cells_keep.
    2:{ intros j Hj%elem_of_seq. unfold skipped, prune_col.
        rewrite decide_False by lia. done. }
    assert (length (take (cols - 1) row) = cols - 1) as Hfront.
    { rewrite length_take. lia. }
    rewrite <- Hfront at 1.
    rewrite (paste_cells_front strings grid cols Hgrid Hrows between_cols
               t row); try done.
    - by rewrite Hfront.
    - lia.
    - intros Hnil. rewrite Hnil in Hfront. simpl in Hfront. lia. }
  rewrite length_fmap in Hrun. rewrite Hrun. cbn [fst].
  destruct Hcons as [_ Hout]; [by destruct grid|].
  rewrite Hout, tack_on_some, tack_on_none. by rewrite append_assoc.
Qed.

Lemma apop_text_paste_pruned_last_column_witness :
  (apop_text_paste_base {| verbose := 0 |} paste_table ", " None None "|"
     (Some (prune_col (2 - 1)))).1
  = Some "a|, c|"%string.
Proof.
  apply (apop_text_paste_pruned_last_column {| verbose := 0 |} paste_table
           [["a"; "b"]; ["c"; "d"]]%string 2 ", " "|" None None).
  - split; [reflexivity|]. by repeat constructor.
  - done.
  - lia.
Defined.

(** X7: a row of which every cell is pruned writes nothing, not even a
    separator: the rows before it and the rows after it are each joined by
    [between], and the two parts follow each other directly. *)
Theorem apop_text_paste_pruned_row (opts : apop_opts_type)
    (strings : apop_data) (grid : list (list string)) (cols : nat)
    (between between_cols : string) (before after : option string)
    (k : nat) :
  rectangular strings grid cols → 1 ≤ cols → 2 ≤ length grid →
  k < length grid →
  (apop_text_paste_base opts strings between before after between_cols
     (Some (prune_row k))).1
  = Some (String.append (default EmptyString before)
            (String.append
               (String.append
                  (String.concat between
                     (String.concat between_cols <$> take k grid))
                  (String.concat between
                     (String.concat between_cols <$> drop (S k) grid)))
               (default EmptyString after))).
Proof.
  intros Hgrid Hcols Hlen Hk. unfold apop_text_paste_base.
  assert (grid ≠ []) as Hrows by (intros ->; simpl in Hlen; lia).
  rewrite (textsize0_grid strings grid cols Hgrid).
  set (f := Some (prune_row k)).
  assert (∀ i row, i ≠ k → grid !! i = Some row →
            foldl (paste_cell strings between_cols f i) None
              (seq 0 (textsize1 strings))
            = Some (String.concat between_cols row)) as Hkeep.
  { intros i row Hne Hi. rewrite paste_cells_keep.
    - by apply (paste_row_join strings grid cols Hgrid Hrows).
    - intros j _. unfold f, skipped, prune_row.
      rewrite decide_False by done. done. }
  assert (foldl (paste_cell strings between_cols f k) None
            (seq 0 (textsize1 strings)) = None) as Hskip.
  { apply paste_cells_skip. intros j _. unfold f, skipped, prune_row.
    by rewrite decide_True. }
  replace (length grid) with (k + S (length (drop (S k) grid)))
    by (rewrite length_drop; lia).
  rewrite seq_app, foldl_app. cbn [seq foldl Nat.add].
  destruct (paste_lines_some strings between between_cols f
              (String.concat between_cols <$> take k grid) 0 None before)
    as (p1 & out1 & Hrun1 & Hnil1 & Hcons1).
  { intros t s Ht. rewrite list_lookup_fmap in Ht.
    destruct (take k grid !! t) as [row|] eqn:Hr; [|done].
    injection Ht as <-. apply lookup_take_Some in Hr as [Hr Hlt].
    apply Hkeep; [simpl; lia|done]. }
  rewrite length_fmap, length_take, Nat.min_l in Hrun1 by lia.
  rewrite Hrun1. rewrite paste_line_none by done.
  destruct (paste_lines_some strings between between_cols f
              (String.concat between_cols <$> drop (S k) grid) (S k) None
              (apop_tack_on out1 p1))
    as (p2 & out2 & Hrun2 & Hnil2 & Hcons2).
  { intros t s Ht. rewrite list_lookup_fmap in Ht.
    destruct (drop (S k) grid !! t) as [row|] eqn:Hr; [|done].
    injection Ht as <-. rewrite lookup_drop in Hr.
    apply Hkeep; [lia|done]. }
  rewrite length_fmap in Hrun2. rewrite Hrun2. cbn [fst].
  set (C1 := String.concat between
               (String.concat between_cols <$> take k grid)) in *.
  set (C2 := String.concat between
               (String.concat between_cols <$> drop (S k) grid)) in *.
  assert (default EmptyString (apop_tack_on out1 p1)
          = String.append (default EmptyString before) C1
          ∧ (0 < k → is_Some (apop_tack_on out1 p1))) as [HV1 HS1].
  { destruct k as [|k'].
    - destruct Hnil1 as [-> ->]; [done|]. split; [|lia].
      unfold C1. simpl. by rewrite append_nil_r.
    - destruct Hcons1 as [_ Hout1]; [by destruct grid|].
      rewrite Hout1. split; [done|]. by eexists. }
  destruct (drop (S k) grid) as [|r rest] eqn:Hdrop.
  - destruct Hnil2 as [-> ->]; [done|].
    destruct HS1 as [v Hv].
    { apply (f_equal length) in Hdrop. rewrite length_drop in Hdrop.
      simpl in Hdrop. lia. }
    rewrite Hv in HV1 |- *. simpl in HV1. rewrite HV1.
    rewrite tack_on_none, tack_on_some. unfold C2. simpl.
    by rewrite append_nil_r, append_assoc.
  - destruct Hcons2 as [_ Hout2]; [done|].
    rewrite Hout2, tack_on_none, HV1, tack_on_some. f_equal.
    change (String.append EmptyString C2) with C2.
    by rewrite !append_assoc.
Qed.

Lemma apop_text_paste_pruned_row_witness :
  (apop_text_paste_base {| verbose := 0 |}
     {| vector := None; matrix := None;
        text := Some [["a"]; ["b"]; ["c"]; ["d"]]%string |}
     ", " None None ", " (Some (prune_row 2))).1
  = Some "a, bd"%string.
Proof.
  apply (apop_text_paste_pruned_row {| verbose := 0 |}
           {| vector := None; matrix := None;
              text := Some [["a"]; ["b"]; ["c"]; ["d"]]%string |}
           [["a"]; ["b"]; ["c"]; ["d"]]%string 1 ", " ", " None None 2).
  - split; [reflexivity|]. by repeat constructor.
  - lia.
  - simpl. lia.
  - simpl. lia.
Defined.

End PasteFacts.

(** ** The table of [apop_generalized_harmonic] *)

Module HarmonicTableFacts.
Import Double Gsl Harmonic DoubleFacts HarmonicFacts.

Lemma eq_nan_r (x s : double) : isnan s = true → eq x s = false.
Proof.
  intros Hs%isnan_spec. unfold eq. rewrite FloatAxioms.eqb_spec, Hs.
  unfold SFeqb. by destruct (Prim2SF x) as [| | |[] ? ?].
Qed.

(** The search stops at the first stored exponent equal to [s]. *)
Lemma search_s_first n eses s count i0 :
  length eses = count → count - i0 ≤ n → i0 ≤ count →
  let i := search_s n eses s count i0 in
  i0 ≤ i ≤ count ∧
  (∀ k, i0 ≤ k < i → eq (eses !!! k) s = false) ∧
  (i < count → eq (eses !!! i) s = true).
Proof.
  intros Hlen. revert i0. induction n as [|n IH]; intros i0 Hn Hi0; simpl.
  { split_and!; [lia|lia|intros; lia|intros; lia]. }
  case_decide as Hlt; [|split_and!; [lia|lia|intros; lia|intros; lia]].
  destruct (bool_decide (eses = []) || eq (eses !!! i0) s) eqn:E.
  - split_and!; [lia|lia|intros; lia|]. intros _.
    apply orb_true_iff in E as [E|E]; [|done].
    apply bool_decide_eq_true in E. subst eses. simpl in *. lia.
  - apply orb_false_iff in E as [_ E].
    destruct (IH (S i0)) as (Hi & Hbefore & Hat); [lia|lia|].
    split_and!; [lia|lia| |done].
    intros k Hk. destruct (decide (k = i0)) as [->|]; [done|].
    apply Hbefore. lia.
Qed.

Section table.
Variable pow : double → double → double.
Variable uninit : double.

Local Abbreviation apop_generalized_harmonic :=
  (Harmonic.apop_generalized_harmonic pow uninit).
Local Abbreviation reachable := (Harmonic.reachable pow uninit).

(** What a call does to the list of exponents. *)
Lemma harmonic_eses st N s :
  length (eses st) = count st → (0 < N)%Z →
  let st' := (apop_generalized_harmonic st N s).2 in
  let i := search_s (count st) (eses st) s (count st) 0 in
  (i < count st ∧ eses st' = eses st ∧ count st' = count st) ∨
  (i = count st ∧ eses st' = eses st ++ [s] ∧ count st' = S (count st)).
Proof.
  intros Hlen HN. cbv zeta.
  destruct (search_s_first (count st) (eses st) s (count st) 0)
    as ([_ Hi] & _ & _); [done|lia|lia|].
  unfold Harmonic.apop_generalized_harmonic.
  rewrite decide_False by lia.
  set (i := search_s (count st) (eses st) s (count st) 0) in *.
  destruct (decide (i = count st)) as [Heq|Hne].
  - right. split; [done|].
    replace (S (count st) - 1) with (count st) by lia.
    rewrite (realloc_snoc uninit s (eses st) (count st) Hlen).
    by case_decide.
  - left. split; [lia|]. by case_decide.
Qed.

Lemma reachable_eses st : reachable st → length (eses st) = count st.
Proof.
  induction 1 as [|st N s _ IH]; [done|].
  destruct (decide (N ≤ 0)%Z) as [HN|HN].
  { unfold Harmonic.apop_generalized_harmonic. by rewrite decide_True. }
  destruct (harmonic_eses st N s IH) as [(_ & -> & ->)|(_ & -> & ->)];
    [lia|done|]. rewrite length_app. simpl. lia.
Qed.

(** X8: a call with [N > 0] appends its exponent to the table when no stored
    exponent compares equal to it, and leaves the list of exponents as it is
    otherwise. *)
Theorem harmonic_table_grows_when_new (st : harmonic_state) (N : Z)
    (s : double) :
  reachable st → (0 < N)%Z →
  let st' := (apop_generalized_harmonic st N s).2 in
  if existsb (λ e, eq e s) (eses st)
  then eses st' = eses st ∧ count st' = count st
  else eses st' = eses st ++ [s] ∧ count st' = S (count st).
Proof.
  intros Hlen%reachable_eses HN. cbv zeta.
  destruct (search_s_first (count st) (eses st) s (count st) 0)
    as (_ & Hbefore & Hat); [done|lia|lia|].
  destruct (harmonic_eses st N s Hlen HN) as [(Hi & -> & ->)|(Hi & -> & ->)].
  - assert (existsb (λ e, eq e s) (eses st) = true) as ->; [|done].
    apply existsb_exists. eexists. split; [|by apply Hat].
    apply list_elem_of_In, list_elem_of_lookup_total_2. lia.
  - assert (existsb (λ e, eq e s) (eses st) = false) as ->; [|done].
    apply not_true_is_false. intros (e & Hin & He)%existsb_exists.
    apply list_elem_of_In, list_elem_of_lookup_total in Hin
      as (k & Hk & <-).
    rewrite Hbefore in He; [done|]. cbv zeta in Hi. lia.
Qed.

(** X9: a NaN exponent never compares equal to a stored one: every call
    with [N > 0] and [s] NaN appends a row to the table. *)
Theorem harmonic_table_nan_grows (st : harmonic_state) (N : Z) (s : double) :
  reachable st → (0 < N)%Z → isnan s = true →
  let st' := (apop_generalized_harmonic st N s).2 in
  eses st' = eses st ++ [s] ∧ count st' = S (count st).
Proof.
  intros Hlen%reachable_eses HN Hs. cbv zeta.
  destruct (search_s_first (count st) (eses st) s (count st) 0)
    as (_ & _ & Hat); [done|lia|lia|].
  destruct (harmonic_eses st N s Hlen HN) as [(Hi & _)|(_ & -> & ->)];
    [|done].
  rewrite eq_nan_r in Hat by done. by specialize (Hat Hi).
Qed.

(** X10: no two rows of the table are for exponents that compare equal. *)
Theorem harmonic_table_distinct (st : harmonic_state) (i j : nat) :
  reachable st → i < j → j < count st →
  eq (eses st !!! i) (eses st !!! j) = false.
Proof.
  intros Hst. revert i j. induction Hst as [|st N s Hst IH]; intros i j Hij Hj.
  { simpl in Hj. lia. }
  pose proof (reachable_eses st Hst) as Hlen.
  destruct (decide (N ≤ 0)%Z) as [HN|HN].
  { unfold Harmonic.apop_generalized_harmonic in *.
    rewrite decide_True in * by done. by apply IH. }
  destruct (search_s_first (count st) (eses st) s (count st) 0)
    as (_ & Hbefore & _); [done|lia|lia|].
  destruct (harmonic_eses st N s Hlen) as [(_ & He & Hc)|(Hi & He & Hc)];
    [lia| |]; rewrite He; rewrite Hc in Hj.
  - by apply IH.
  - destruct (decide (j = count st)) as [->|Hne].
    + rewrite (lookup_total_app_l _ _ i) by lia.
      rewrite (lookup_total_snoc s (eses st) (count st) Hlen).
      apply Hbefore. cbv zeta in Hi. lia.
    + rewrite !lookup_total_app_l by lia. apply IH; lia.
Qed.

(** What a call does to the recorded lengths. *)
Lemma harmonic_lengths_step st N s :
  length (eses st) = count st → length (lengths st) = count st → (0 < N)%Z →
  let st' := (apop_generalized_harmonic st N s).2 in
  let i := search_s (count st) (eses st) s (count st) 0 in
  (i < count st ∧ lengths st' = lengths st) ∨
  (i = count st ∧ lengths st' = lengths st ++ [Z.to_nat N]).
Proof.
  intros Hlen Hlen' HN. cbv zeta.
  destruct (search_s_first (count st) (eses st) s (count st) 0)
    as ([_ Hi] & _ & _); [done|lia|lia|].
  unfold Harmonic.apop_generalized_harmonic.
  rewrite decide_False by lia.
  set (i := search_s (count st) (eses st) s (count st) 0) in *.
  destruct (decide (i = count st)) as [Heq|Hne].
  - right. split; [done|].
    replace (S (count st) - 1) with (count st) by lia.
    rewrite (realloc_snoc 0 (Z.to_nat N) (lengths st) (count st) Hlen').
    by case_decide.
  - left. split; [lia|]. by case_decide.
Qed.

Lemma reachable_lengths st : reachable st → length (lengths st) = count st.
Proof.
  induction 1 as [|st N s Hst IH]; [done|].
  pose proof (reachable_eses st Hst) as Hlen.
  destruct (decide (N ≤ 0)%Z) as [HN|HN].
  { unfold Harmonic.apop_generalized_harmonic. by rewrite decide_True. }
  destruct (harmonic_eses st N s Hlen) as [(Hi & _ & Hc)|(Hi & _ & Hc)];
    [lia| |];
    (destruct (harmonic_lengths_step st N s Hlen IH) as [[Hi' Hl]|[Hi' Hl]];
     [lia| |]); cbv zeta in *; try lia; rewrite Hl, Hc; [done|].
  rewrite length_app. simpl. lia.
Qed.

(** X26: the length recorded for a row is the [N] of the call that made
    the row, and it is never updated.  The recorded lengths go with the
    exponents, one for one.  A call with [N > 0] whose exponent is not yet
    stored appends the exponent and, as its length, [N]; a call whose
    exponent is stored leaves all recorded lengths as they are, also when it
    extends the row; a call with [N <= 0] changes nothing. *)
Theorem harmonic_lengths_recorded (st : harmonic_state) (N : Z)
    (s : double) :
  reachable st →
  let st' := (apop_generalized_harmonic st N s).2 in
  length (lengths st) = length (eses st) ∧
  ((N ≤ 0)%Z → st' = st) ∧
  ((0 < N)%Z →
   if existsb (λ e, eq e s) (eses st)
   then lengths st' = lengths st ∧ eses st' = eses st
   else lengths st' = lengths st ++ [Z.to_nat N] ∧
        eses st' = eses st ++ [s]).
Proof.
  intros Hst. cbv zeta.
  pose proof (reachable_eses st Hst) as Hlen.
  pose proof (reachable_lengths st Hst) as Hlen'.
  split_and!.
  - by rewrite Hlen, Hlen'.
  - intros HN. unfold Harmonic.apop_generalized_harmonic.
    by rewrite decide_True.
  - intros HN.
    destruct (search_s_first (count st) (eses st) s (count st) 0)
      as (_ & Hbefore & Hat); [done|lia|lia|].
    destruct (harmonic_eses st N s Hlen HN) as [(Hi & He & _)|(Hi & He & _)];
      (destruct (harmonic_lengths_step st N s Hlen Hlen' HN)
         as [[Hi' Hl]|[Hi' Hl]]); cbv zeta in *; try lia.
    + assert (existsb (λ e, eq e s) (eses st) = true) as ->; [|done].
      apply existsb_exists. eexists. split; [|by apply Hat].
      apply list_elem_of_In, list_elem_of_lookup_total_2. lia.
    + assert (existsb (λ e, eq e s) (eses st) = false) as ->; [|done].
      apply not_true_is_false. intros (e & Hin & Hes)%existsb_exists.
      apply list_elem_of_In, list_elem_of_lookup_total in Hin
        as (k & Hk & <-).
      rewrite Hbefore in Hes; [done|]. lia.
Qed.

End table.

Lemma harmonic_table_grows_when_new_witness :
  let st := (Harmonic.apop_generalized_harmonic pow_sample 0%float
               harmonic_init 3 2%float).2 in
  let st' := (Harmonic.apop_generalized_harmonic pow_sample 0%float st 5
                2%float).2 in
  if existsb (λ e, eq e 2%float) (eses st)
  then eses st' = eses st ∧ count st' = count st
  else eses st' = eses st ++ [2%float] ∧ count st' = S (count st).
Proof.
  intros st.
  apply (harmonic_table_grows_when_new pow_sample 0%float st 5 2%float).
  - apply reachable_call, reachable_init.
  - lia.
Defined.

Lemma harmonic_table_nan_grows_witness :
  let st := (Harmonic.apop_generalized_harmonic pow_sample 0%float
               harmonic_init 3 GSL_NAN).2 in
  let st' := (Harmonic.apop_generalized_harmonic pow_sample 0%float st 3
                GSL_NAN).2 in
  eses st' = eses st ++ [GSL_NAN] ∧ count st' = S (count st).
Proof.
  intros st.
  apply (harmonic_table_nan_grows pow_sample 0%float st 3 GSL_NAN).
  - apply reachable_call, reachable_init.
  - lia.
  - reflexivity.
Defined.

Lemma harmonic_table_distinct_witness :
  let st := (Harmonic.apop_generalized_harmonic pow_sample 0%float
               (Harmonic.apop_generalized_harmonic pow_sample 0%float
                  harmonic_init 3 2%float).2 2 1%float).2 in
  eq (eses st !!! 0) (eses st !!! 1) = false.
Proof.
  intros st.
  apply (harmonic_table_distinct pow_sample 0%float st 0 1).
  - do 2 apply reachable_call. apply reachable_init.
  - lia.
  - vm_compute. lia.
Defined.

Lemma harmonic_lengths_recorded_witness :
  let st := (Harmonic.apop_generalized_harmonic pow_sample 0%float
               harmonic_init 2 2%float).2 in
  let st' := (Harmonic.apop_generalized_harmonic pow_sample 0%float st 5
                1%float).2 in
  length (lengths st) = length (eses st) ∧
  ((5 ≤ 0)%Z → st' = st) ∧
  ((0 < 5)%Z →
   if existsb (λ e, eq e 1%float) (eses st)
   then lengths st' = lengths st ∧ eses st' = eses st
   else lengths st' = lengths st ++ [Z.to_nat 5] ∧
        eses st' = eses st ++ [1%float]).
Proof.
  intros st.
  apply (harmonic_lengths_recorded pow_sample 0%float st 5 1%float).
  apply reachable_call, reachable_init.
Defined.

End HarmonicTableFacts.

(** ** More on the loops of [apop_data_sort] *)

Module SortLoopFacts.
Import Double Gsl Apop ApopFacts.

(** X11: [find_min_unsorted] returns the least index from [min] on, below
    [height], whose marker is zero, and -1 when there is none. *)
Theorem find_min_unsorted_least (sorted : list nat) (height min : nat) :
  let r := find_min_unsorted sorted height min in
  (r = (-1)%Z ∧ ∀ j, min ≤ j → j < height → sorted !!! j ≠ 0) ∨
  (∃ s, r = Z.of_nat s ∧ min ≤ s ∧ s < height ∧ sorted !!! s = 0 ∧
        ∀ j, min ≤ j → j < s → sorted !!! j ≠ 0).
Proof.
  destruct (find_min_unsorted_spec sorted height min)
    as [[Hr Hall]|(s & Hr & Hs1 & Hs2 & Hns & Hscan)].
  - left. split; [done|]. intros j ? ?. by apply Hall.
  - right. exists s. unfold marked in Hns.
    destruct (decide (sorted !!! s = 0)) as [Hz|Hnz]; [|by destruct Hns].
    split_and!; [done|done|done|done|].
    intros j ? ?. by apply Hscan.
Qed.

(** X12: the reversal loop undoes itself: run twice on an index array of
    [height] entries, it gives the array back. *)
Theorem reverse_perm_involutive (height : nat) (perm : list nat) :
  length perm = height →
  reverse_perm height (reverse_perm height perm) = perm.
Proof.
  intros Hlen. rewrite (reverse_perm_reverse height perm Hlen).
  rewrite reverse_perm_reverse by (by rewrite length_reverse).
  apply reverse_involutive.
Qed.

Lemma reverse_perm_involutive_witness :
  reverse_perm 5 (reverse_perm 5 [3; 0; 4; 1; 2]) = [3; 0; 4; 1; 2].
Proof. apply (reverse_perm_involutive 5 [3; 0; 4; 1; 2]). reflexivity. Defined.

Lemma compose_perm (p q : list nat) (h : nat) :
  p ≡ₚ seq 0 h → q ≡ₚ seq 0 h → ((p !!!.) <$> q) ≡ₚ seq 0 h.
Proof.
  intros Hp Hq. trans p; [|done]. rewrite Hq.
  pose proof (perm_length p h Hp) as Hlen.
  assert ((p !!!.) <$> seq 0 h = p) as ->; [|done].
  apply list_eq. intros i. rewrite list_lookup_fmap.
  destruct (decide (i < h)) as [Hi|Hi].
  - rewrite lookup_seq_lt by done. simpl.
    by rewrite (list_lookup_lookup_total_lt p i) by lia.
  - rewrite lookup_seq_ge by lia. by rewrite lookup_ge_None_2 by lia.
Qed.

(** X13: moving the rows by [p] and then, with fresh markers, by [q] is
    moving them once by the composed index array [i ↦ p[q[i]]]; when [q]
    undoes [p] the table is as it was at the start. *)
Theorem apply_perm_twice (d : apop_data) (p q : list nat) (h fuel : nat) :
  well_formed d h → p ≡ₚ seq 0 h → q ≡ₚ seq 0 h → h < fuel →
  let twice :=
    d1 ← apply_perm fuel fuel p h d (replicate h 0) 0;
    apply_perm fuel fuel q h d1 (replicate h 0) 0 in
  twice = Some (permute_rows_naive d ((p !!!.) <$> q) h) ∧
  ((∀ i, i < h → p !!! (q !!! i) = i) → twice = Some d).
Proof.
  intros Hwf Hp Hq Hfuel. cbv zeta.
  rewrite (apply_perm_naive d p h fuel) by done. cbn [mbind option_bind].
  destruct (permute_rows_naive_rows d p h Hwf Hp) as [Hd1 Hr1].
  assert (well_formed (permute_rows_naive d p h) h) as Hwf1.
  { by apply (well_formed_dims d). }
  rewrite apply_perm_naive by done.
  destruct (permute_rows_naive_rows _ q h Hwf1 Hq) as [Hd2 Hr2].
  pose proof (compose_perm p q h Hp Hq) as Hpq.
  destruct (permute_rows_naive_rows d _ h Hwf Hpq) as [Hd3 Hr3].
  pose proof (perm_length q h Hq) as Hlen.
  assert (∀ i, i < h →
            Apop_data_row (permute_rows_naive (permute_rows_naive d p h) q h) i
            = Apop_data_row d (p !!! (q !!! i))) as Hrows.
  { intros i Hi. rewrite Hr2 by done. apply Hr1. by apply (perm_bound q h). }
  split.
  - f_equal. apply (apop_data_ext _ _ h).
    + by rewrite Hd2, Hd1, Hd3.
    + apply (well_formed_dims d); [|done]. by rewrite Hd2, Hd1.
    + intros i Hi. rewrite Hrows, Hr3 by done. f_equal.
      symmetry. apply list_lookup_total_correct.
      rewrite list_lookup_fmap.
      by rewrite (list_lookup_lookup_total_lt q i) by lia.
  - intros Hinv. f_equal. apply (apop_data_ext _ _ h).
    + by rewrite Hd2, Hd1.
    + apply (well_formed_dims d); [|done]. by rewrite Hd2, Hd1.
    + intros i Hi. rewrite Hrows by done. by rewrite Hinv.
Qed.

Lemma apply_perm_twice_witness :
  let twice :=
    d1 ← apply_perm 4 4 [1; 2; 0] 3 scenario_table (replicate 3 0) 0;
    apply_perm 4 4 [2; 0; 1] 3 d1 (replicate 3 0) 0 in
  twice = Some (permute_rows_naive scenario_table
                  (([1; 2; 0] !!!.) <$> [2; 0; 1]) 3) ∧
  ((∀ i, i < 3 → [1; 2; 0] !!! ([2; 0; 1] !!! i) = i) →
   twice = Some scenario_table).
Proof.
  apply (apply_perm_twice scenario_table [1; 2; 0] [2; 0; 1] 3 4).
  - split_and!; [by left|by right|by right].
  - exact scenario_perm.
  - by apply (Permutation_cons_app [0; 1] [] 2%nat).
  - lia.
Defined.

End SortLoopFacts.

(** ** The indices [apop_vector_percentiles] reads *)

Module PercentileIndexFacts.
Import Double Gsl Percentiles.

Lemma lookup_total_take_eq (l l' : list double) (n k : nat) :
  take n l = take n l' → k < n → l !!! k = l' !!! k.
Proof.
  intros Htake Hk.
  rewrite !list_lookup_total_alt. f_equal.
  rewrite <- (lookup_take_lt l n k), <- (lookup_take_lt l' n k) by done.
  by rewrite Htake.
Qed.

Lemma percentile_index (size i : nat) :
  1 ≤ size → i ≤ 100 →
  let q := (Z.of_nat i * (Z.of_nat size - 1))%Z in
  (0 ≤ q / 100)%Z ∧ (q / 100 ≤ Z.of_nat size - 1)%Z ∧
  ((100 * (q / 100) =? q)%Z = false → (q / 100 + 1 ≤ Z.of_nat size - 1)%Z).
Proof.
  intros Hsize Hi q.
  assert (0 ≤ q)%Z as Hq0 by (unfold q; nia).
  assert (q ≤ 100 * (Z.of_nat size - 1))%Z as Hq1 by (unfold q; nia).
  pose proof (Z.div_mod q 100 ltac:(done)) as Hdiv.
  pose proof (Z.mod_pos_bound q 100 ltac:(done)) as Hmod.
  split_and!; [lia|lia|]. intros Hne%Z.eqb_neq. lia.
Qed.

(** X14: every percentile is read inside the sorted vector: for a vector of
    at least one entry, none of the 101 results depends on what lies beyond
    its [size] entries, under any rounding rule. *)
Theorem percentile_reads_in_range (sorted sorted' : gsl_vector)
    (size : nat) (rounding : ascii) (i : nat) :
  1 ≤ size → i ≤ 100 → take size sorted = take size sorted' →
  percentile sorted size rounding i = percentile sorted' size rounding i.
Proof.
  intros Hsize Hi Htake. unfold percentile.
  destruct (percentile_index size i Hsize Hi) as (H0 & H1 & H2).
  set (q := (Z.of_nat i * (Z.of_nat size - 1))%Z) in *.
  destruct (100 * (q / 100) =? q)%Z eqn:Hex; cbn [negb].
  - rewrite !andb_false_r. rewrite Hex. cbn [negb]. rewrite !andb_false_r.
    apply (lookup_total_take_eq _ _ size); [done|lia].
  - specialize (H2 eq_refl). rewrite !andb_true_r.
    destruct (rounding =? "u")%char eqn:Hu.
    + apply Ascii.eqb_eq in Hu as ->. cbn [Ascii.eqb Bool.eqb andb].
      apply (lookup_total_take_eq _ _ size); [done|lia].
    + rewrite Hex. cbn [negb]. rewrite andb_true_r.
      destruct (rounding =? "a")%char.
      * f_equal. f_equal; apply (lookup_total_take_eq _ _ size); try done; lia.
      * apply (lookup_total_take_eq _ _ size); [done|lia].
Qed.

Lemma percentile_reads_in_range_witness :
  percentile [1%float; 2%float; 3%float] 2 "a" 50
  = percentile [1%float; 2%float; 4%float; 5%float] 2 "a" 50.
Proof.
  apply (percentile_reads_in_range [1%float; 2%float; 3%float]
           [1%float; 2%float; 4%float; 5%float] 2 "a" 50).
  - lia.
  - lia.
  - reflexivity.
Defined.

(** X15: the rounding rules, one against the other.  Every character other
    than ['u'] and ['a'] rounds down, to the entry at the integer quotient of
    [i*(size-1)] by 100.  When 100 divides [i*(size-1)] the three rules
    agree; otherwise ['u'] reads the next entry and ['a'] is the mean of the
    results of ['d'] and ['u']. *)
Theorem percentile_rounding (sorted : gsl_vector) (size i : nat) :
  1 ≤ size →
  let q := (Z.of_nat i * (Z.of_nat size - 1))%Z in
  let down := percentile sorted size "d" i in
  let up := percentile sorted size "u" i in
  down = gsl_vector_get sorted (Z.to_nat (q / 100)) ∧
  (∀ r : ascii, r ≠ "u"%char → r ≠ "a"%char →
     percentile sorted size r i = down) ∧
  if decide (q mod 100 = 0)%Z
  then up = down ∧ percentile sorted size "a" i = down
  else up = gsl_vector_get sorted (Z.to_nat (q / 100) + 1) ∧
       percentile sorted size "a" i = ((down + up) / 2)%float.
Proof.
  intros Hsize q down up.
  assert (∀ r : ascii, r ≠ "u"%char → r ≠ "a"%char →
            percentile sorted size r i
            = gsl_vector_get sorted (Z.to_nat (q / 100))) as Hdown.
  { intros r Hu%Ascii.eqb_neq Ha%Ascii.eqb_neq. unfold percentile.
    fold q. by rewrite Hu, Ha. }
  assert (0 ≤ q)%Z as Hq0 by (unfold q; nia).
  pose proof (Z.div_mod q 100 ltac:(done)) as Hdiv.
  pose proof (Z.mod_pos_bound q 100 ltac:(done)) as Hmod.
  split; [by apply Hdown|]. split.
  { intros r Hu Ha. unfold down. by rewrite !Hdown. }
  unfold up, down. rewrite (Hdown "d"%char) by done.
  unfold percentile. fold q. cbn [Ascii.eqb Bool.eqb andb].
  case_decide as Hex.
  - assert ((100 * (q / 100) =? q)%Z = true) as -> by (apply Z.eqb_eq; lia).
    done.
  - assert ((100 * (q / 100) =? q)%Z = false) as ->
      by (apply Z.eqb_neq; lia).
    cbn [negb]. split; [f_equal; lia|]. do 3 f_equal. lia.
Qed.

Lemma percentile_rounding_witness :
  let sorted := [1%float; 2%float; 4%float] in
  let q := (Z.of_nat 25 * (Z.of_nat 3 - 1))%Z in
  let down := percentile sorted 3 "d" 25 in
  let up := percentile sorted 3 "u" 25 in
  down = gsl_vector_get sorted (Z.to_nat (q / 100)) ∧
  (∀ r : ascii, r ≠ "u"%char → r ≠ "a"%char →
     percentile sorted 3 r 25 = down) ∧
  if decide (q mod 100 = 0)%Z
  then up = down ∧ percentile sorted 3 "a" 25 = down
  else up = gsl_vector_get sorted (Z.to_nat (q / 100) + 1) ∧
       percentile sorted 3 "a" 25 = ((down + up) / 2)%float.
Proof.
  apply (percentile_rounding [1%float; 2%float; 4%float] 3 25). lia.
Defined.

End PercentileIndexFacts.

(** ** The moving average *)

Module SmoothingFacts.
Import Double Gsl Smoothing.

Lemma foldl_ext {A B} (f g : A → B → A) (a : A) (l : list B) :
  (∀ a x, f a x = g a x) → foldl f a l = foldl g a l.
Proof.
  intros Hfg. revert a. induction l as [|x l IH]; intros a; simpl; [done|].
  by rewrite Hfg, IH.
Qed.

Lemma foldl_zseq {A} (f : A → Z → A) (a : A) (lo : Z) (n : nat) :
  foldl f a (zseq lo n)
  = foldl (λ acc k, f acc (lo + Z.of_nat k)%Z) a (seq 0 n).
Proof. unfold zseq. by rewrite foldl_fmap. Qed.

Lemma foldl_window (v : list double) (i n : nat) (acc : double) :
  i + n ≤ length v →
  foldl (λ acc k, (acc + v !!! (i + k)%nat)%float) acc (seq 0 n)
  = foldl (λ acc x, (acc + x)%float) acc (take n (drop i v)).
Proof.
  revert acc. induction n as [|n IH]; intros acc Hn; [done|].
  rewrite seq_S, foldl_app, IH by lia. simpl.
  destruct (lookup_lt_is_Some_2 v (i + n)) as [x Hx]; [lia|].
  rewrite (take_S_r _ _ x) by (by rewrite lookup_drop).
  rewrite foldl_app. simpl. by rewrite (list_lookup_total_correct _ _ _ Hx).
Qed.

Lemma moving_item_window (v : gsl_vector) (halfspan i : nat) :
  i + 2 * halfspan + 1 ≤ length v →
  moving_item v halfspan i 0%float
  = window_mean (take (2 * halfspan + 1) (drop i v)).
Proof.
  intros Hlen. unfold moving_item, window_mean. rewrite foldl_zseq.
  rewrite length_take, length_drop, Nat.min_l by lia.
  f_equal; [|f_equal; lia].
  rewrite <- foldl_window by lia. apply foldl_ext. intros acc k.
  unfold gsl_vector_get. do 2 f_equal. lia.
Qed.

Lemma moving_loop (v : gsl_vector) (halfspan n m : nat) :
  m ≤ n →
  foldl (λ vout i, <[i := moving_item v halfspan i (vout !!! i)]> vout)
    (replicate n 0%float) (seq 0 m)
  = ((λ i, moving_item v halfspan i 0%float) <$> seq 0 m)
    ++ replicate (n - m) 0%float.
Proof.
  induction m as [|m IH]; intros Hm.
  { simpl. by rewrite Nat.sub_0_r. }
  rewrite seq_S, foldl_app, IH by lia. simpl.
  set (done_ := (λ i, moving_item v halfspan i 0%float) <$> seq 0 m).
  assert (length done_ = m) as Hlen
    by (unfold done_; by rewrite length_fmap, length_seq).
  replace (n - m) with (S (n - S m)) by lia. simpl.
  rewrite <- Hlen at 1 2.
  rewrite list_lookup_total_middle by done.
  rewrite insert_app_r_alt, Nat.sub_diag by lia. simpl.
  rewrite fmap_app. simpl. rewrite <- app_assoc. simpl. by rewrite Hlen.
Qed.

(** X16: for a bandwidth of at least 1 and a vector of at least
    [2*(bandwidth/2)] entries, entry [i] of the moving average is the sum of
    the [2*(bandwidth/2)+1] entries from [i] on, added from the left onto
    zero, divided by their number; the result is [2*(bandwidth/2)] entries
    shorter than the input. *)
Theorem apop_vector_moving_average_windows (v : gsl_vector)
    (bandwidth : nat) :
  1 ≤ bandwidth → 2 * (bandwidth / 2) ≤ length v →
  let span := 2 * (bandwidth / 2) + 1 in
  apop_vector_moving_average (Some v) bandwidth
  = Some (Some ((λ i, window_mean (take span (drop i v)))
                <$> seq 0 (length v - 2 * (bandwidth / 2)))).
Proof.
  intros Hb Hlen span. unfold apop_vector_moving_average.
  rewrite decide_False by lia. rewrite decide_True by lia.
  do 2 f_equal. rewrite length_replicate.
  replace (bandwidth / 2 * 2) with (2 * (bandwidth / 2)) by lia.
  rewrite moving_loop by done. rewrite Nat.sub_diag, app_nil_r.
  apply list_fmap_ext. intros k i [-> Hi]%lookup_seq.
  apply moving_item_window. lia.
Qed.

Lemma apop_vector_moving_average_windows_witness :
  let span := 2 * (3 / 2) + 1 in
  apop_vector_moving_average (Some [1; 2; 3; 4]%float) 3
  = Some (Some ((λ i, window_mean (take span (drop i [1; 2; 3; 4]%float)))
                <$> seq 0 (length [1; 2; 3; 4]%float - 2 * (3 / 2)))).
Proof.
  apply (apop_vector_moving_average_windows [1; 2; 3; 4]%float 3).
  - lia.
  - simpl. lia.
Defined.

(** X17: the window always has an odd number of entries: an even bandwidth
    [2k], with [k] at least 1, gives the result of the bandwidth [2k+1]. *)
Theorem apop_vector_moving_average_even (v : option gsl_vector) (k : nat) :
  1 ≤ k →
  apop_vector_moving_average v (2 * k)
  = apop_vector_moving_average v (2 * k + 1).
Proof.
  intros Hk. unfold apop_vector_moving_average.
  destruct v as [v|]; [|done].
  rewrite (decide_False (P := 2 * k = 0)) by lia.
  rewrite (decide_False (P := 2 * k + 1 = 0)) by lia.
  replace (2 * k / 2) with k by (apply Nat.div_unique with 0; lia).
  replace ((2 * k + 1) / 2) with k by (apply Nat.div_unique with 1; lia).
  done.
Qed.

Lemma apop_vector_moving_average_even_witness :
  apop_vector_moving_average (Some [1; 2; 3; 4]%float) (2 * 1)
  = apop_vector_moving_average (Some [1; 2; 3; 4]%float) (2 * 1 + 1).
Proof.
  apply (apop_vector_moving_average_even (Some [1; 2; 3; 4]%float) 1). lia.
Defined.

End SmoothingFacts.

(** ** The Beta distribution from its moments *)

Module BetaFacts.
Import Double DoubleFacts Beta.

Lemma isnan_eq (x : double) : isnan x = true → x = GSL_NAN.
Proof. intros Hx%isnan_spec. by apply Prim2SF_inj. Qed.

Lemma div_nan_l (y : double) : (GSL_NAN / y)%float = GSL_NAN.
Proof. apply Prim2SF_inj. rewrite div_spec. by destruct (Prim2SF y). Qed.

(** X18: a NaN mean passes the range check: no range error is reported,
    and both parameters of the returned model are NaN, whatever the
    variance. *)
Theorem apop_beta_from_mean_var_nan (m v : double) :
  isnan m = true →
  apop_beta_from_mean_var m v = Parameters GSL_NAN GSL_NAN.
Proof.
  intros ->%isnan_eq. unfold apop_beta_from_mean_var.
  rewrite le_nan_l, le_nan_r. cbn [orb].
  change (GSL_NAN * (1 - GSL_NAN))%float with GSL_NAN.
  rewrite div_nan_l. reflexivity.
Qed.

Lemma apop_beta_from_mean_var_nan_witness :
  apop_beta_from_mean_var GSL_NAN 0.25%float = Parameters GSL_NAN GSL_NAN.
Proof.
  apply (apop_beta_from_mean_var_nan GSL_NAN 0.25%float). reflexivity.
Defined.

End BetaFacts.

(** ** Matrices *)

Module MatrixFacts.
Import Double Gsl Matrix.

Lemma set_data_id (m : gsl_matrix) : set_data m (data m) = m.
Proof. by destruct m. Qed.

Lemma offset_inj (n i j a b : nat) :
  j < n → b < n → i * n + j = a * n + b → i = a ∧ j = b.
Proof. intros Hj Hb Heq. assert (i = a) by nia. subst. lia. Qed.

Lemma offset_lt (n r i j : nat) : i < r → j < n → i * n + j < r * n.
Proof. nia. Qed.

Lemma get_set (m : gsl_matrix) (i j : nat) (x : double) (a b : nat) :
  j < tda m → b < tda m → i * tda m + j < length (data m) →
  gsl_matrix_get (gsl_matrix_set m i j x) a b
  = if decide (a = i ∧ b = j) then x else gsl_matrix_get m a b.
Proof.
  intros Hj Hb Hlt. unfold gsl_matrix_get, gsl_matrix_set. simpl.
  case_decide as Heq.
  - destruct Heq as [-> ->]. by rewrite list_lookup_total_insert_eq.
  - rewrite list_lookup_total_insert_ne; [done|].
    intros Hoff. apply Heq. by destruct (offset_inj (tda m) i j a b).
Qed.

Lemma get_scale (m : gsl_matrix) (x : double) (a b : nat) :
  a * tda m + b < length (data m) →
  gsl_matrix_get (gsl_matrix_scale m x) a b
  = (gsl_matrix_get m a b * x)%float.
Proof.
  intros Hlt. unfold gsl_matrix_get, gsl_matrix_scale. simpl.
  destruct (lookup_lt_is_Some_2 (data m) (a * tda m + b) Hlt) as [e He].
  rewrite (list_lookup_total_correct _ _ _ He).
  apply list_lookup_total_correct. by rewrite list_lookup_fmap, He.
Qed.

(** The loop on [k] adds its terms onto one cell. *)
Lemma increment_loop {A} (t : A → double) (l : list A) (m : gsl_matrix)
    (i j : nat) :
  i * tda m + j < length (data m) →
  foldl (λ out k, apop_matrix_increment out i j (t k)) m l
  = gsl_matrix_set m i j
      (foldl (λ acc k, (acc + t k)%float) (gsl_matrix_get m i j) l).
Proof.
  revert m. induction l as [|k l IH]; intros m Hlt; simpl.
  - unfold gsl_matrix_set, gsl_matrix_get.
    rewrite list_insert_id; [by rewrite set_data_id|].
    by apply list_lookup_lookup_total_lt.
  - rewrite IH by (simpl; by rewrite length_insert).
    unfold apop_matrix_increment, gsl_matrix_set, gsl_matrix_get. simpl.
    rewrite list_lookup_total_insert_eq by done.
    by rewrite list_insert_insert_eq.
Qed.

Section covariance.
Variable uninit : double.
Variable apop_mean : gsl_vector → double.
Variable apop_normalize_matrix : gsl_matrix → gsl_matrix.
Variable gsl_blas_dgemm_trans : gsl_matrix → gsl_matrix → gsl_matrix
                                → gsl_matrix.
Variable in_ : gsl_matrix.

Local Abbreviation n := (size2 in_).
Local Abbreviation means := (column_means uninit apop_mean in_).
Local Abbreviation deviation_sum := (Matrix.deviation_sum apop_mean in_).
Local Abbreviation covariance_inv := (Matrix.covariance_inv apop_mean in_).

Lemma column_means_steps (m : nat) :
  m ≤ n →
  foldl (λ means i, <[i := apop_mean (gsl_matrix_column in_ i)]> means)
    (replicate n uninit) (seq 0 m)
  = ((λ i, apop_mean (gsl_matrix_column in_ i)) <$> seq 0 m)
    ++ replicate (n - m) uninit.
Proof.
  induction m as [|m IH]; intros Hm.
  { simpl. by rewrite Nat.sub_0_r. }
  rewrite seq_S, foldl_app, IH by lia. simpl.
  set (done_ := (λ i, apop_mean (gsl_matrix_column in_ i)) <$> seq 0 m).
  assert (length done_ = m) as Hlen
    by (unfold done_; by rewrite length_fmap, length_seq).
  replace (n - m) with (S (n - S m)) by lia. simpl.
  rewrite insert_app_r_alt by lia. rewrite Hlen, Nat.sub_diag. simpl.
  by rewrite fmap_app, <- app_assoc.
Qed.

Lemma column_means_lookup (i : nat) :
  i < n → means !!! i = apop_mean (gsl_matrix_column in_ i).
Proof.
  intros Hi. unfold column_means.
  rewrite column_means_steps, Nat.sub_diag, app_nil_r by done.
  apply list_lookup_total_correct.
  by rewrite list_lookup_fmap, lookup_seq_lt.
Qed.

Lemma covariance_inv_iff (P Q : nat → nat → Prop) (out : gsl_matrix) :
  (∀ a b, a ≤ b → b < n → P a b ↔ Q a b) →
  covariance_inv P out → covariance_inv Q out.
Proof.
  intros HPQ [Ht Hl Hd Ho]. split; [done|done| |].
  - intros a b Hab Hb HQ. apply Hd; [done|done|]. by apply HPQ.
  - intros a b Hab Hb HQ. apply Ho; [done|done|]. by rewrite HPQ.
Qed.

Lemma covariance_cell_inv (P : nat → nat → Prop) (out : gsl_matrix)
    (i j : nat) :
  covariance_inv P out → i ≤ j → j < n → ¬ P i j →
  covariance_inv (λ a b, P a b ∨ (a = i ∧ b = j))
    (covariance_cell in_ means out i j).
Proof.
  intros [Ht Hl Hd Ho] Hij Hj HnP.
  assert (∀ a b, a < n → b < n → a * tda out + b < length (data out))
    as Hoff.
  { intros a b Ha Hb. rewrite Ht, Hl. by apply offset_lt. }
  unfold covariance_cell.
  rewrite increment_loop by (apply Hoff; lia).
  rewrite !column_means_lookup by lia.
  destruct (Ho i j Hij Hj HnP) as [Hz _]. rewrite Hz.
  fold (deviation_sum i j 0%float).
  set (v := deviation_sum i j 0%float).
  set (out1 := gsl_matrix_set out i j v).
  assert (∀ a b, a < n → b < n →
            gsl_matrix_get out1 a b
            = if decide (a = i ∧ b = j) then v else gsl_matrix_get out a b)
    as Hget1.
  { intros a b Ha Hb. apply get_set; [lia|lia|apply Hoff; lia]. }
  set (out2 := if decide (i ≠ j)
               then gsl_matrix_set out1 j i (gsl_matrix_get out1 i j)
               else out1).
  assert (tda out2 = n ∧ length (data out2) = n * n) as [Ht2 Hl2].
  { unfold out2, out1. case_decide; simpl; by rewrite ?length_insert. }
  assert (∀ a b, a < n → b < n →
            gsl_matrix_get out2 a b
            = if decide ((a = i ∧ b = j) ∨ (a = j ∧ b = i)) then v
              else gsl_matrix_get out a b) as Hget2.
  { intros a b Ha Hb. unfold out2. case_decide as Hne.
    - rewrite get_set.
      + rewrite !Hget1 by lia.
        rewrite (decide_True (P := i = i ∧ j = j)) by done.
        destruct (decide (a = j ∧ b = i)) as [H1|H1].
        { by rewrite decide_True by tauto. }
        destruct (decide (a = i ∧ b = j)) as [H2|H2].
        { by rewrite decide_True by tauto. }
        by rewrite decide_False by tauto.
      + simpl. lia.
      + simpl. lia.
      + unfold out1. simpl. rewrite length_insert. apply Hoff; lia.
    - rewrite Hget1 by done. assert (i = j) as <- by lia.
      destruct (decide (a = i ∧ b = i)) as [H2|H2].
      { by rewrite decide_True by tauto. }
      by rewrite decide_False by tauto. }
  split; [done|done| |].
  - intros a b Hab Hb [HP|[-> ->]].
    + assert (¬ ((a = i ∧ b = j) ∨ (a = j ∧ b = i))) as Hne.
      { intros [[-> ->]|[-> ->]]; [done|].
        assert (i = j) as -> by lia. done. }
      assert (¬ ((b = i ∧ a = j) ∨ (b = j ∧ a = i))) as Hne' by tauto.
      rewrite !Hget2 by lia. rewrite !decide_False by done. by apply Hd.
    + rewrite !Hget2 by lia. by rewrite !decide_True by tauto.
  - intros a b Hab Hb HnQ.
    assert (¬ ((a = i ∧ b = j) ∨ (a = j ∧ b = i))) as Hne.
    { intros [[-> ->]|[-> ->]]; [tauto|].
      assert (i = j) as -> by lia. tauto. }
    assert (¬ ((b = i ∧ a = j) ∨ (b = j ∧ a = i))) as Hne' by tauto.
    rewrite !Hget2 by lia. rewrite !decide_False by done.
    apply Ho; [done|done|tauto].
Qed.

Lemma covariance_row_inv (out : gsl_matrix) (i m : nat) :
  covariance_inv (λ a _, a < i) out → i + m ≤ n →
  covariance_inv (λ a b, a < i ∨ (a = i ∧ b < i + m))
    (foldl (λ out j, covariance_cell in_ means out i j) out (seq i m)).
Proof.
  intros Hinv. induction m as [|m IH]; intros Hm.
  { simpl. eapply covariance_inv_iff; [|done]. intros a b ? ?. simpl. lia. }
  rewrite seq_S, foldl_app. simpl.
  eapply covariance_inv_iff;
    [|apply (covariance_cell_inv (λ a b, a < i ∨ (a = i ∧ b < i + m)));
      [apply IH; lia|lia|lia|simpl; lia]].
  intros a b ? ?. simpl. lia.
Qed.

Lemma covariance_rows_inv (m : nat) :
  m ≤ n →
  covariance_inv (λ a _, a < m)
    (foldl (λ out i,
              foldl (λ out j, covariance_cell in_ means out i j) out
                (seq i (n - i)))
       (gsl_matrix_calloc n n) (seq 0 m)).
Proof.
  induction m as [|m IH]; intros Hm.
  { simpl. split; simpl.
    - done.
    - by rewrite length_replicate.
    - intros; lia.
    - intros a b Hab Hb _. unfold gsl_matrix_get. simpl.
      rewrite !lookup_total_replicate_2; [done| |]; by apply offset_lt; lia. }
  rewrite seq_S, foldl_app. simpl.
  eapply covariance_inv_iff;
    [|apply (covariance_row_inv _ m (n - m)); [apply IH; lia|lia]].
  intros a b ? ?. simpl. lia.
Qed.

(** X19: without normalising, entry (i, j) of the matrix returned by
    [apop_covariance_matrix] is the sum over the rows [k] of
    [(in[k][i] - mean_i) * (in[k][j] - mean_j)], added from the left onto
    zero, times [1.0/size2]: the sum is divided by the number of columns of
    the input, not by its number of rows.  The matrix is symmetric and the
    input is left as it was. *)
Theorem apop_covariance_matrix_entries (i j : nat) :
  i ≤ j → j < n →
  let r := apop_covariance_matrix uninit apop_mean apop_normalize_matrix
             gsl_blas_dgemm_trans in_ 0 in
  gsl_matrix_get r.1 i j
  = (deviation_sum i j 0%float
     * (1 / Harmonic.double_of_int (Z.of_nat n)))%float ∧
  gsl_matrix_get r.1 j i = gsl_matrix_get r.1 i j ∧
  r.2 = in_.
Proof.
  intros Hij Hj. unfold apop_covariance_matrix.
  rewrite decide_False by lia. cbn [fst snd].
  destruct (covariance_rows_inv n (le_n _)) as [Ht Hl Hd _].
  destruct (Hd i j Hij Hj) as [H1 H2]; [lia|].
  rewrite !get_scale by (rewrite Ht, Hl; apply offset_lt; lia).
  by rewrite H1, H2.
Qed.

End covariance.

Lemma apop_covariance_matrix_entries_witness :
  let in_ := {| size1 := 2; size2 := 2; tda := 2;
                data := [1; 2; 3; 5]%float |} in
  let r := apop_covariance_matrix 0%float (λ _, 1%float) id
             (λ _ _ out, out) in_ 0 in
  gsl_matrix_get r.1 0 1
  = (deviation_sum (λ _, 1%float) in_ 0 1 0%float
     * (1 / Harmonic.double_of_int (Z.of_nat (size2 in_))))%float ∧
  gsl_matrix_get r.1 1 0 = gsl_matrix_get r.1 0 1 ∧
  r.2 = in_.
Proof.
  intros in_.
  apply (apop_covariance_matrix_entries 0%float (λ _, 1%float) id
           (λ _ _ out, out) in_ 0 1).
  - lia.
  - simpl. lia.
Defined.

(** *** Rows and columns *)

Lemma shape_valid (m m' : gsl_matrix) : shape m' = shape m → valid m → valid m'.
Proof. unfold shape, valid. intros [= -> -> -> ->]. done. Qed.

Lemma shape_set (m : gsl_matrix) (i j : nat) (x : double) :
  shape (gsl_matrix_set m i j x) = shape m.
Proof. unfold shape. simpl. by rewrite length_insert. Qed.

Lemma valid_offset (m : gsl_matrix) (a b : nat) :
  valid m → a < size1 m → b < size2 m →
  b < tda m ∧ a * tda m + b < length (data m).
Proof. intros [H1 H2] Ha Hb. split; [lia|nia]. Qed.

Lemma get_row_lookup (m : gsl_matrix) (i j : nat) :
  j < size2 m → gsl_vector_get (gsl_matrix_get_row m i) j = gsl_matrix_get m i j.
Proof.
  intros Hj. unfold gsl_vector_get, gsl_matrix_get_row.
  apply list_lookup_total_correct. by rewrite list_lookup_fmap, lookup_seq_lt.
Qed.

Lemma get_col_lookup (m : gsl_matrix) (i j : nat) :
  i < size1 m → gsl_vector_get (gsl_matrix_get_col m j) i = gsl_matrix_get m i j.
Proof.
  intros Hi. unfold gsl_vector_get, gsl_matrix_get_col, gsl_matrix_column.
  apply list_lookup_total_correct. by rewrite list_lookup_fmap, lookup_seq_lt.
Qed.

(** Writing a row changes that row and nothing else. *)
Lemma set_row_steps (m : gsl_matrix) (i : nat) (v : gsl_vector) (c : nat) :
  valid m → i < size1 m → c ≤ size2 m →
  let r := foldl (λ m j, gsl_matrix_set m i j (gsl_vector_get v j)) m
             (seq 0 c) in
  shape r = shape m ∧
  ∀ a b, b < size2 m →
    gsl_matrix_get r a b
    = if decide (a = i ∧ b < c) then gsl_vector_get v b
      else gsl_matrix_get m a b.
Proof.
  intros Hv Hi. induction c as [|c IH]; intros Hc; cbv zeta.
  { simpl. split; [done|]. intros a b Hb. by rewrite decide_False by lia. }
  destruct IH as [Hs Hg]; [lia|]. rewrite seq_S, foldl_app. simpl.
  set (r := foldl _ m (seq 0 c)) in *.
  split; [by rewrite shape_set|]. intros a b Hb.
  injection Hs as Hs1 Hs2 Hs3 Hs4.
  destruct (valid_offset m i c) as [Hc1 Hc2]; [done|done|lia|].
  destruct (valid_offset m i b) as [Hb1 _]; [done|done|lia|].
  rewrite get_set by (rewrite ?Hs3, ?Hs4; done).
  rewrite Hg by done.
  destruct (decide (a = i ∧ b = c)) as [[-> ->]|Hne].
  - by rewrite decide_True by lia.
  - destruct (decide (a = i ∧ b < c)) as [Hlt|Hge].
    + by rewrite decide_True by lia.
    + by rewrite decide_False by lia.
Qed.

Lemma set_row_spec (m : gsl_matrix) (i : nat) (v : gsl_vector) :
  valid m → i < size1 m →
  shape (gsl_matrix_set_row m i v) = shape m ∧
  ∀ a b, b < size2 m →
    gsl_matrix_get (gsl_matrix_set_row m i v) a b
    = if decide (a = i) then gsl_vector_get v b else gsl_matrix_get m a b.
Proof.
  intros Hv Hi.
  destruct (set_row_steps m i v (size2 m) Hv Hi (le_n _)) as [Hs Hg].
  split; [done|]. intros a b Hb. unfold gsl_matrix_set_row.
  rewrite Hg by done.
  destruct (decide (a = i)) as [->|Hne].
  - by rewrite decide_True by lia.
  - by rewrite decide_False by lia.
Qed.

(** Writing a column, from a vector or from a column of the matrix itself. *)
Lemma set_col_steps (m : gsl_matrix) (j : nat) (val : gsl_matrix → nat → double)
    (c : nat) :
  valid m → j < size2 m → c ≤ size1 m →
  (∀ m' k, shape m' = shape m → k < size1 m →
     (∀ a b, b < size2 m → ¬ (b = j ∧ a < k) →
        gsl_matrix_get m' a b = gsl_matrix_get m a b) →
     val m' k = val m k) →
  let r := foldl (λ m k, gsl_matrix_set m k j (val m k)) m (seq 0 c) in
  shape r = shape m ∧
  ∀ a b, b < size2 m →
    gsl_matrix_get r a b
    = if decide (b = j ∧ a < c) then val m a else gsl_matrix_get m a b.
Proof.
  intros Hv Hj. induction c as [|c IH]; intros Hc Hval; cbv zeta.
  { simpl. split; [done|]. intros a b Hb. by rewrite decide_False by lia. }
  destruct IH as [Hs Hg]; [lia|done|]. rewrite seq_S, foldl_app. simpl.
  set (r := foldl _ m (seq 0 c)) in *.
  split; [by rewrite shape_set|]. intros a b Hb.
  assert (val r c = val m c) as ->.
  { apply Hval; [done|lia|]. intros a' b' Hb' Hne.
    rewrite Hg by done. by rewrite decide_False. }
  injection Hs as Hs1 Hs2 Hs3 Hs4.
  destruct (valid_offset m c j) as [Hc1 Hc2]; [done|lia|done|].
  destruct (valid_offset m c b) as [Hb1 _]; [done|lia|done|].
  rewrite get_set by (rewrite ?Hs3, ?Hs4; done).
  rewrite Hg by done.
  destruct (decide (a = c ∧ b = j)) as [[-> ->]|Hne].
  - by rewrite decide_True by lia.
  - destruct (decide (b = j ∧ a < c)) as [Hlt|Hge].
    + by rewrite decide_True by lia.
    + by rewrite decide_False by lia.
Qed.

Lemma set_col_spec (m : gsl_matrix) (j : nat) (v : gsl_vector) :
  valid m → j < size2 m →
  shape (gsl_matrix_set_col m j v) = shape m ∧
  ∀ a b, a < size1 m → b < size2 m →
    gsl_matrix_get (gsl_matrix_set_col m j v) a b
    = if decide (b = j) then gsl_vector_get v a else gsl_matrix_get m a b.
Proof.
  intros Hv Hj.
  destruct (set_col_steps m j (λ _ k, gsl_vector_get v k) (size1 m) Hv Hj
              (le_n _)) as [Hs Hg]; [done|].
  split; [done|]. intros a b Ha Hb. unfold gsl_matrix_set_col.
  rewrite Hg by done.
  destruct (decide (b = j)) as [->|Hne].
  - by rewrite decide_True by lia.
  - by rewrite decide_False by lia.
Qed.

Lemma set_col_view_spec (m : gsl_matrix) (j i : nat) :
  valid m → j < size2 m → i < size2 m →
  shape (gsl_matrix_set_col_view m j i) = shape m ∧
  ∀ a b, a < size1 m → b < size2 m →
    gsl_matrix_get (gsl_matrix_set_col_view m j i) a b
    = if decide (b = j) then gsl_matrix_get m a i else gsl_matrix_get m a b.
Proof.
  intros Hv Hj Hi.
  destruct (set_col_steps m j (λ m' k, gsl_matrix_get m' k i) (size1 m) Hv Hj
              (le_n _)) as [Hs Hg].
  { intros m' k Hs Hk Hsame. apply Hsame; [done|lia]. }
  split; [done|]. intros a b Ha Hb. unfold gsl_matrix_set_col_view.
  rewrite Hg by done.
  destruct (decide (b = j)) as [->|Hne].
  - by rewrite decide_True by lia.
  - by rewrite decide_False by lia.
Qed.

Lemma set_rows_steps (src : nat → gsl_vector) (m : gsl_matrix) (lo c : nat) :
  valid m → lo + c ≤ size1 m →
  let r := foldl (λ out i, gsl_matrix_set_row out i (src i)) m (seq lo c) in
  shape r = shape m ∧
  ∀ a b, b < size2 m →
    gsl_matrix_get r a b
    = if decide (lo ≤ a ∧ a < lo + c) then gsl_vector_get (src a) b
      else gsl_matrix_get m a b.
Proof.
  intros Hv. induction c as [|c IH]; intros Hc; cbv zeta.
  { simpl. split; [done|]. intros a b Hb. by rewrite decide_False by lia. }
  destruct IH as [Hs Hg]; [lia|]. rewrite seq_S, foldl_app. simpl.
  set (r := foldl _ m (seq lo c)) in *.
  pose proof (shape_valid m r Hs Hv) as Hvr.
  pose proof Hs as Hs'. injection Hs' as Hs1 Hs2 Hs3 Hs4.
  destruct (set_row_spec r (lo + c) (src (lo + c)) Hvr) as [Hs5 Hg5]; [lia|].
  split; [by rewrite Hs5|]. intros a b Hb.
  rewrite Hg5 by lia. rewrite Hg by done.
  destruct (decide (a = lo + c)) as [->|Hne].
  - by rewrite decide_True by lia.
  - destruct (decide (lo ≤ a ∧ a < lo + c)) as [Hlt|Hge].
    + by rewrite decide_True by lia.
    + by rewrite decide_False by lia.
Qed.

Lemma set_cols_steps (src : nat → gsl_vector) (m : gsl_matrix) (lo c : nat) :
  valid m → lo + c ≤ size2 m →
  let r := foldl (λ out i, gsl_matrix_set_col out i (src i)) m (seq lo c) in
  shape r = shape m ∧
  ∀ a b, a < size1 m → b < size2 m →
    gsl_matrix_get r a b
    = if decide (lo ≤ b ∧ b < lo + c) then gsl_vector_get (src b) a
      else gsl_matrix_get m a b.
Proof.
  intros Hv. induction c as [|c IH]; intros Hc; cbv zeta.
  { simpl. split; [done|]. intros a b Ha Hb. by rewrite decide_False by lia. }
  destruct IH as [Hs Hg]; [lia|]. rewrite seq_S, foldl_app. simpl.
  set (r := foldl _ m (seq lo c)) in *.
  pose proof (shape_valid m r Hs Hv) as Hvr.
  pose proof Hs as Hs'. injection Hs' as Hs1 Hs2 Hs3 Hs4.
  destruct (set_col_spec r (lo + c) (src (lo + c)) Hvr) as [Hs5 Hg5]; [lia|].
  split; [by rewrite Hs5|]. intros a b Ha Hb.
  rewrite Hg5 by lia. rewrite Hg by done.
  destruct (decide (b = lo + c)) as [->|Hne].
  - by rewrite decide_True by lia.
  - destruct (decide (lo ≤ b ∧ b < lo + c)) as [Hlt|Hge].
    + by rewrite decide_True by lia.
    + by rewrite decide_False by lia.
Qed.

Lemma valid_alloc (fill : double) (n1 n2 : nat) :
  valid (gsl_matrix_alloc fill n1 n2).
Proof. unfold valid. simpl. rewrite length_replicate. lia. Qed.

(** X20: stacked with ['t'], two matrices with the same number of columns
    give a matrix whose first rows are those of [m1] and whose last rows are
    those of [m2], every entry of the fresh matrix being overwritten; with
    different numbers of columns the result is [NULL]. *)
Theorem apop_matrix_stack_top (uninit : double) (m1 m2 : gsl_matrix) :
  (size2 m1 ≠ size2 m2 → apop_matrix_stack uninit m1 m2 "t" = None) ∧
  (size2 m1 = size2 m2 →
   ∃ out, apop_matrix_stack uninit m1 m2 "t" = Some out ∧
     size1 out = size1 m1 + size1 m2 ∧ size2 out = size2 m1 ∧
     ∀ i j, i < size1 m1 + size1 m2 → j < size2 m1 →
       gsl_matrix_get out i j
       = if decide (i < size1 m1) then gsl_matrix_get m1 i j
         else gsl_matrix_get m2 (i - size1 m1) j).
Proof.
  unfold apop_matrix_stack. cbn [Ascii.eqb Bool.eqb andb]. split.
  { intros Hne. by rewrite decide_True. }
  intros Heq. rewrite decide_False by lia. eexists. split; [reflexivity|].
  set (out0 := gsl_matrix_alloc uninit (size1 m1 + size1 m2) (size2 m1)).
  destruct (set_rows_steps (gsl_matrix_get_row m1) out0 0 (size1 m1))
    as [Hs1 Hg1]; [apply valid_alloc|simpl; lia|].
  set (out1 := foldl _ out0 (seq 0 (size1 m1))) in *.
  destruct (set_rows_steps (λ i, gsl_matrix_get_row m2 (i - size1 m1)) out1
              (size1 m1) (size1 m2)) as [Hs2 Hg2].
  { apply (shape_valid out0); [done|apply valid_alloc]. }
  { injection Hs1 as -> _ _ _. simpl. lia. }
  set (out2 := foldl _ out1 (seq (size1 m1) (size1 m2))) in *.
  pose proof Hs1 as Hs1'. injection Hs1' as E1 E2 E3 E4.
  pose proof Hs2 as Hs2'. injection Hs2' as F1 F2 F3 F4.
  split; [by rewrite F1, E1|]. split; [by rewrite F2, E2|].
  intros i j Hi Hj. rewrite Hg2 by (rewrite E2; done).
  destruct (decide (i < size1 m1)) as [Hlt|Hge].
  - rewrite decide_False by lia. rewrite Hg1 by done.
    rewrite decide_True by lia. by apply get_row_lookup.
  - rewrite decide_True by lia. apply get_row_lookup. lia.
Qed.

(** X21: stacked with any other character, two matrices with the same
    number of rows give a matrix whose first columns are those of [m1] and
    whose last columns are those of [m2]; with different numbers of rows the
    result is [NULL]. *)
Theorem apop_matrix_stack_side (uninit : double) (m1 m2 : gsl_matrix)
    (posn : ascii) :
  posn ≠ "t"%char →
  (size1 m1 ≠ size1 m2 → apop_matrix_stack uninit m1 m2 posn = None) ∧
  (size1 m1 = size1 m2 →
   ∃ out, apop_matrix_stack uninit m1 m2 posn = Some out ∧
     size1 out = size1 m1 ∧ size2 out = size2 m1 + size2 m2 ∧
     ∀ i j, i < size1 m1 → j < size2 m1 + size2 m2 →
       gsl_matrix_get out i j
       = if decide (j < size2 m1) then gsl_matrix_get m1 i j
         else gsl_matrix_get m2 i (j - size2 m1)).
Proof.
  intros Hposn%Ascii.eqb_neq. unfold apop_matrix_stack. rewrite Hposn. split.
  { intros Hne. by rewrite decide_True. }
  intros Heq. rewrite decide_False by lia. eexists. split; [reflexivity|].
  set (out0 := gsl_matrix_alloc uninit (size1 m1) (size2 m1 + size2 m2)).
  destruct (set_cols_steps (gsl_matrix_get_col m1) out0 0 (size2 m1))
    as [Hs1 Hg1]; [apply valid_alloc|simpl; lia|].
  set (out1 := foldl _ out0 (seq 0 (size2 m1))) in *.
  destruct (set_cols_steps (λ i, gsl_matrix_get_col m2 (i - size2 m1)) out1
              (size2 m1) (size2 m2)) as [Hs2 Hg2].
  { apply (shape_valid out0); [done|apply valid_alloc]. }
  { injection Hs1 as _ -> _ _. simpl. lia. }
  set (out2 := foldl _ out1 (seq (size2 m1) (size2 m2))) in *.
  pose proof Hs1 as Hs1'. injection Hs1' as E1 E2 E3 E4.
  pose proof Hs2 as Hs2'. injection Hs2' as F1 F2 F3 F4.
  split; [by rewrite F1, E1|]. split; [by rewrite F2, E2|].
  intros i j Hi Hj. rewrite Hg2 by (rewrite ?E1, ?E2; done).
  destruct (decide (j < size2 m1)) as [Hlt|Hge].
  - rewrite decide_False by lia. rewrite Hg1 by done.
    rewrite decide_True by lia. by apply get_col_lookup.
  - rewrite decide_True by lia. apply get_col_lookup. lia.
Qed.

Lemma apop_matrix_stack_side_witness :
  let m1 := {| size1 := 1; size2 := 1; tda := 1; data := [1%float] |} in
  let m2 := {| size1 := 1; size2 := 2; tda := 2;
               data := [2%float; 3%float] |} in
  (size1 m1 ≠ size1 m2 → apop_matrix_stack 0%float m1 m2 "r" = None) ∧
  (size1 m1 = size1 m2 →
   ∃ out, apop_matrix_stack 0%float m1 m2 "r" = Some out ∧
     size1 out = size1 m1 ∧ size2 out = size2 m1 + size2 m2 ∧
     ∀ i j, i < size1 m1 → j < size2 m1 + size2 m2 →
       gsl_matrix_get out i j
       = if decide (j < size2 m1) then gsl_matrix_get m1 i j
         else gsl_matrix_get m2 i (j - size2 m1)).
Proof.
  intros m1 m2. apply (apop_matrix_stack_side 0%float m1 m2 "r"). done.
Defined.

(** *** Removing columns *)

Lemma kept_columns_S (use : list Z) (c : nat) :
  kept_columns use (S c)
  = kept_columns use c ++ (if decide (use !!! c ≠ 0%Z) then [c] else []).
Proof.
  unfold kept_columns. by rewrite seq_S, filter_app.
Qed.

Lemma kept_columns_length (use : list Z) (c : nat) :
  length (kept_columns use c) ≤ c.
Proof.
  unfold kept_columns.
  etrans; [apply length_filter|]. by rewrite length_seq.
Qed.

Lemma count_kept (use : list Z) (n : nat) :
  foldl (λ ct i, if decide (use !!! i ≠ 0%Z) then S ct else ct) 0 (seq 0 n)
  = length (kept_columns use n).
Proof.
  induction n as [|n IH]; [done|].
  rewrite seq_S, foldl_app, IH, kept_columns_S, length_app. simpl.
  case_decide; simpl; lia.
Qed.

Lemma rm_columns_steps (in_ : gsl_matrix) (use : list Z) (c : nat) :
  valid in_ → c ≤ size2 in_ →
  ∃ in', 
    foldl (λ '(in_, j) i,
             if decide (use !!! i ≠ 0%Z)
             then (gsl_matrix_set_col_view in_ j i, S j)
             else (in_, j))
      (in_, 0) (seq 0 c)
    = (in', length (kept_columns use c)) ∧
    shape in' = shape in_ ∧
    ∀ a b, a < size1 in_ → b < size2 in_ →
      gsl_matrix_get in' a b
      = if decide (b < length (kept_columns use c))
        then gsl_matrix_get in_ a (kept_columns use c !!! b)
        else gsl_matrix_get in_ a b.
Proof.
  intros Hv. induction c as [|c IH]; intros Hc.
  { exists in_. split_and!; [done|done|]. intros a b Ha Hb.
    by rewrite decide_False by (simpl; lia). }
  destruct IH as (in' & Hrun & Hs & Hg); [lia|].
  rewrite seq_S, foldl_app, Hrun. simpl. rewrite kept_columns_S.
  pose proof (kept_columns_length use c) as Hj.
  set (kept := kept_columns use c) in *.
  pose proof Hs as Hs'. injection Hs' as E1 E2 E3 E4.
  case_decide as Hu.
  - destruct (set_col_view_spec in' (length kept) c) as [Hs5 Hg5];
      [by apply (shape_valid in_)|lia|lia|].
    eexists. split; [|split].
    + rewrite length_app. simpl. f_equal. lia.
    + by rewrite Hs5.
    + intros a b Ha Hb. rewrite Hg5 by lia.
      rewrite length_app. simpl.
      destruct (decide (b = length kept)) as [->|Hne].
      * rewrite decide_True by lia. rewrite Hg by lia.
        rewrite decide_False by lia.
        by rewrite list_lookup_total_middle.
      * rewrite Hg by done.
        destruct (decide (b < length kept)) as [Hlt|Hge].
        -- rewrite decide_True by lia. by rewrite lookup_total_app_l.
        -- by rewrite decide_False by lia.
  - exists in'. rewrite app_nil_r. split_and!; done.
Qed.

(** X22: [apop_matrix_rm_columns] returns a fresh matrix that it never
    writes, with one column for every nonzero entry of [use]; the columns to
    keep are copied to the front of the input matrix itself, in order, and
    the other entries of the input stay as they were. *)
Theorem apop_matrix_rm_columns_input (uninit : double) (in_ : gsl_matrix)
    (use : list Z) :
  valid in_ → size2 in_ ≤ length use →
  let kept := kept_columns use (size2 in_) in
  let r := apop_matrix_rm_columns uninit in_ use in
  r.1 = gsl_matrix_alloc uninit (size1 in_) (length kept) ∧
  shape r.2 = shape in_ ∧
  ∀ a b, a < size1 in_ → b < size2 in_ →
    gsl_matrix_get r.2 a b
    = if decide (b < length kept)
      then gsl_matrix_get in_ a (kept !!! b)
      else gsl_matrix_get in_ a b.
Proof.
  intros Hv _. cbv zeta. unfold apop_matrix_rm_columns.
  destruct (rm_columns_steps in_ use (size2 in_) Hv (le_n _))
    as (in' & -> & Hs & Hg).
  rewrite count_kept. done.
Qed.

Lemma apop_matrix_rm_columns_input_witness :
  let in_ := {| size1 := 1; size2 := 3; tda := 3;
                data := [1; 2; 3]%float |} in
  let kept := kept_columns [0; 1; 1]%Z (size2 in_) in
  let r := apop_matrix_rm_columns 0%float in_ [0; 1; 1]%Z in
  r.1 = gsl_matrix_alloc 0%float (size1 in_) (length kept) ∧
  shape r.2 = shape in_ ∧
  ∀ a b, a < size1 in_ → b < size2 in_ →
    gsl_matrix_get r.2 a b
    = if decide (b < length kept)
      then gsl_matrix_get in_ a (kept !!! b)
      else gsl_matrix_get in_ a b.
Proof.
  intros in_.
  apply (apop_matrix_rm_columns_input 0%float in_ [0; 1; 1]%Z).
  - unfold valid. simpl. lia.
  - simpl. lia.
Defined.

(** X23: on a matrix whose block holds all its rows, [apop_matrix_increment]
    at a position inside the matrix adds [amt] to that entry and leaves every
    other entry, and the sizes, as they were. *)
Theorem apop_matrix_increment_entry (m : gsl_matrix) (i j : nat)
    (amt : double) (a b : nat) :
  valid m → i < size1 m → j < size2 m → a < size1 m → b < size2 m →
  shape (apop_matrix_increment m i j amt) = shape m ∧
  gsl_matrix_get (apop_matrix_increment m i j amt) a b
  = if decide (a = i ∧ b = j) then (gsl_matrix_get m i j + amt)%float
    else gsl_matrix_get m a b.
Proof.
  intros Hv Hi Hj Ha Hb.
  destruct (valid_offset m i j Hv Hi Hj) as [Hj1 Hj2].
  destruct (valid_offset m a b Hv Ha Hb) as [Hb1 _].
  change (apop_matrix_increment m i j amt)
    with (gsl_matrix_set m i j (gsl_matrix_get m i j + amt)%float).
  split; [apply shape_set|]. by apply get_set.
Qed.

Lemma apop_matrix_increment_entry_witness :
  let m := {| size1 := 2; size2 := 2; tda := 3;
              data := [1; 2; 0; 3; 4; 0]%float |} in
  shape (apop_matrix_increment m 1 0 1%float) = shape m ∧
  gsl_matrix_get (apop_matrix_increment m 1 0 1%float) 0 1
  = if decide (0 = 1 ∧ 1 = 0) then (gsl_matrix_get m 1 0 + 1)%float
    else gsl_matrix_get m 0 1.
Proof.
  intros m. apply (apop_matrix_increment_entry m 1 0 1%float 0 1).
  - unfold valid. simpl. lia.
  - simpl. lia.
  - simpl. lia.
  - simpl. lia.
  - simpl. lia.
Defined.

(** *** Scaling by the roots of the diagonal *)

Lemma set_row_steps_val (m : gsl_matrix) (i : nat)
    (val : gsl_matrix → nat → double) (c : nat) :
  valid m → i < size1 m → c ≤ size2 m →
  (∀ m' k, shape m' = shape m → k < size2 m →
     (∀ a b, b < size2 m → ¬ (a = i ∧ b < k) →
        gsl_matrix_get m' a b = gsl_matrix_get m a b) →
     val m' k = val m k) →
  let r := foldl (λ m k, gsl_matrix_set m i k (val m k)) m (seq 0 c) in
  shape r = shape m ∧
  ∀ a b, b < size2 m →
    gsl_matrix_get r a b
    = if decide (a = i ∧ b < c) then val m b else gsl_matrix_get m a b.
Proof.
  intros Hv Hi. induction c as [|c IH]; intros Hc Hval; cbv zeta.
  { simpl. split; [done|]. intros a b Hb. by rewrite decide_False by lia. }
  destruct IH as [Hs Hg]; [lia|done|]. rewrite seq_S, foldl_app. simpl.
  set (r := foldl _ m (seq 0 c)) in *.
  split; [by rewrite shape_set|]. intros a b Hb.
  assert (val r c = val m c) as ->.
  { apply Hval; [done|lia|]. intros a' b' Hb' Hne.
    rewrite Hg by done. by rewrite decide_False. }
  injection Hs as Hs1 Hs2 Hs3 Hs4.
  destruct (valid_offset m i c) as [Hc1 Hc2]; [done|done|lia|].
  destruct (valid_offset m i b) as [Hb1 _]; [done|done|lia|].
  rewrite get_set by (rewrite ?Hs3, ?Hs4; done).
  rewrite Hg by done.
  destruct (decide (a = i ∧ b = c)) as [[-> ->]|Hne].
  - by rewrite decide_True by lia.
  - destruct (decide (a = i ∧ b < c)) as [Hlt|Hge].
    + by rewrite decide_True by lia.
    + by rewrite decide_False by lia.
Qed.

Lemma mul_column_spec (m : gsl_matrix) (i : nat) (d : gsl_vector) :
  valid m → i < size2 m →
  shape (mul_column m i d) = shape m ∧
  ∀ a b, a < size1 m → b < size2 m →
    gsl_matrix_get (mul_column m i d) a b
    = if decide (b = i)
      then (gsl_matrix_get m a i * gsl_vector_get d a)%float
      else gsl_matrix_get m a b.
Proof.
  intros Hv Hi.
  destruct (set_col_steps m i
              (λ m' k, (gsl_matrix_get m' k i * gsl_vector_get d k)%float)
              (size1 m) Hv Hi (le_n _)) as [Hs Hg].
  { intros m' k Hs Hk Hsame. f_equal. apply Hsame; [done|lia]. }
  split; [done|]. intros a b Ha Hb. unfold mul_column.
  rewrite Hg by done.
  destruct (decide (b = i)) as [->|Hne].
  - by rewrite decide_True by lia.
  - by rewrite decide_False by lia.
Qed.

Lemma mul_row_spec (m : gsl_matrix) (i : nat) (d : gsl_vector) :
  valid m → i < size1 m →
  shape (mul_row m i d) = shape m ∧
  ∀ a b, a < size1 m → b < size2 m →
    gsl_matrix_get (mul_row m i d) a b
    = if decide (a = i)
      then (gsl_matrix_get m i b * gsl_vector_get d b)%float
      else gsl_matrix_get m a b.
Proof.
  intros Hv Hi.
  destruct (set_row_steps_val m i
              (λ m' k, (gsl_matrix_get m' i k * gsl_vector_get d k)%float)
              (size2 m) Hv Hi (le_n _)) as [Hs Hg].
  { intros m' k Hs Hk Hsame. f_equal. apply Hsame; [done|lia]. }
  split; [done|]. intros a b Ha Hb. unfold mul_row.
  rewrite Hg by done.
  destruct (decide (a = i)) as [->|Hne].
  - by rewrite decide_True by lia.
  - by rewrite decide_False by lia.
Qed.

Section svd.
Variable pow : double → double → double.

Lemma root_diagonal_steps (v : gsl_vector) (m : nat) :
  m ≤ length v →
  foldl (λ d i, <[i := pow (gsl_vector_get d i) 0.5%float]> d) v (seq 0 m)
  = ((λ x, pow x 0.5%float) <$> take m v) ++ drop m v.
Proof.
  induction m as [|m IH]; intros Hm.
  { simpl. by rewrite drop_0. }
  rewrite seq_S, foldl_app, IH by lia. simpl.
  destruct (lookup_lt_is_Some_2 v m) as [x Hx]; [lia|].
  set (done_ := (λ x, pow x 0.5%float) <$> take m v).
  assert (length done_ = m) as Hlen.
  { unfold done_. rewrite length_fmap, length_take. lia. }
  rewrite (drop_S _ _ _ Hx). unfold gsl_vector_get, gsl_vector in *.
  assert ((done_ ++ x :: drop (S m) v) !!! m = x) as ->.
  { by apply list_lookup_total_middle. }
  rewrite insert_app_r_alt by lia. rewrite Hlen, Nat.sub_diag. simpl.
  rewrite (take_S_r _ _ _ Hx), fmap_app. simpl.
  by rewrite <- app_assoc.
Qed.

Lemma root_diagonal_lookup (in_ : gsl_matrix) (k : nat) :
  k < size1 in_ →
  gsl_vector_get
    (root_diagonal pow ((λ k, gsl_matrix_get in_ k k) <$> seq 0 (size1 in_)))
    k
  = pow (gsl_matrix_get in_ k k) 0.5%float.
Proof.
  intros Hk. unfold root_diagonal, gsl_vector_get.
  rewrite root_diagonal_steps by done.
  rewrite take_ge, drop_ge, app_nil_r by done.
  apply list_lookup_total_correct.
  by rewrite !list_lookup_fmap, lookup_seq_lt.
Qed.

Lemma normalize_steps (in_ : gsl_matrix) (d : gsl_vector) (c : nat) :
  valid in_ → size1 in_ = size2 in_ → c ≤ size1 in_ →
  let r := foldl (λ m i, mul_row (mul_column m i d) i d) in_ (seq 0 c) in
  shape r = shape in_ ∧
  ∀ a b, a < size1 in_ → b < size2 in_ →
    gsl_matrix_get r a b
    = scaled_entry c a b (gsl_matrix_get in_ a b) (gsl_vector_get d a)
        (gsl_vector_get d b).
Proof.
  intros Hv Hsq. induction c as [|c IH]; intros Hc; cbv zeta.
  { simpl. split; [done|]. intros a b Ha Hb. unfold scaled_entry.
    by rewrite !decide_False by lia. }
  destruct IH as [Hs Hg]; [lia|]. rewrite seq_S, foldl_app. simpl.
  set (r := foldl _ in_ (seq 0 c)) in *.
  pose proof (shape_valid in_ r Hs Hv) as Hvr.
  pose proof Hs as Hs'. injection Hs' as E1 E2 E3 E4.
  destruct (mul_column_spec r c d Hvr) as [Hs1 Hg1]; [lia|].
  pose proof (shape_valid r _ Hs1 Hvr) as Hv1.
  pose proof Hs1 as Hs1'. injection Hs1' as F1 F2 F3 F4.
  destruct (mul_row_spec (mul_column r c d) c d Hv1) as [Hs2 Hg2]; [lia|].
  split; [by rewrite Hs2, Hs1|]. intros a b Ha Hb.
  rewrite Hg2 by lia. rewrite !Hg1 by lia. rewrite !Hg by lia.
  unfold scaled_entry.
  destruct (decide (a = c)) as [->|Ha'], (decide (b = c)) as [->|Hb'];
    repeat (case_decide; try lia); done.
Qed.

(** X24: on a square matrix [apop_normalize_for_svd] multiplies every entry
    (a, b) by the square roots of the diagonal entries of row [a] and of
    column [b], one after the other (the root of row [a] first when [b] is
    at most [a]); nothing is divided by them. *)
Theorem apop_normalize_for_svd_entries (in_ : gsl_matrix) (a b : nat) :
  valid in_ → size1 in_ = size2 in_ → a < size1 in_ → b < size1 in_ →
  let root k := pow (gsl_matrix_get in_ k k) 0.5%float in
  gsl_matrix_get (apop_normalize_for_svd pow in_) a b
  = if decide (b ≤ a)
    then (gsl_matrix_get in_ a b * root a * root b)%float
    else (gsl_matrix_get in_ a b * root b * root a)%float.
Proof.
  intros Hv Hsq Ha Hb root. unfold apop_normalize_for_svd.
  set (v := (λ k, gsl_matrix_get in_ k k) <$> seq 0 (size1 in_)).
  assert (length (root_diagonal pow v) = size1 in_) as Hlen.
  { unfold root_diagonal. rewrite root_diagonal_steps by done.
    rewrite take_ge, drop_ge, app_nil_r, length_fmap by done.
    unfold v. by rewrite length_fmap, length_seq. }
  rewrite Hlen.
  destruct (normalize_steps in_ (root_diagonal pow v) (size1 in_) Hv Hsq
              (le_n _)) as [_ Hg].
  rewrite Hg by lia. unfold v. rewrite !root_diagonal_lookup by done.
  unfold scaled_entry. by rewrite !decide_True by lia.
Qed.

End svd.

Lemma apop_normalize_for_svd_entries_witness :
  let in_ := {| size1 := 2; size2 := 2; tda := 2;
                data := [4; 1; 1; 9]%float |} in
  let root k := (λ x _, PrimFloat.sqrt x) (gsl_matrix_get in_ k k)
                  0.5%float in
  gsl_matrix_get (apop_normalize_for_svd (λ x _, PrimFloat.sqrt x) in_)
    0 1
  = if decide (1 ≤ 0)
    then (gsl_matrix_get in_ 0%nat 1%nat * root 0%nat * root 1%nat)%float
    else (gsl_matrix_get in_ 0%nat 1%nat * root 1%nat * root 0%nat)%float.
Proof.
  intros in_.
  apply (apop_normalize_for_svd_entries (λ x _, PrimFloat.sqrt x) in_
           0 1).
  - unfold valid. simpl. lia.
  - reflexivity.
  - simpl. lia.
  - simpl. lia.
Defined.

End MatrixFacts.

(** ** The draw from the generalized hypergeometric B3 *)

Module RngFacts.
Import Double DoubleFacts Rng.

(** X25: [apop_rng_GHgB3] rejects a parameter that is NaN like one that is
    not positive: when one of the three parameters is NaN or not greater
    than zero, NaN is returned and nothing is drawn from the generator. *)
Theorem apop_rng_GHgB3_rejects (gsl_rng : Type)
    (gsl_ran_gamma : gsl_rng → double → double → double * gsl_rng)
    (gsl_ran_poisson : gsl_rng → double → Z * gsl_rng)
    (r : gsl_rng) (a : list double) (i : nat) :
  i < 3 → isnan (a !!! i) = true ∨ lt 0%float (a !!! i) = false →
  apop_rng_GHgB3 gsl_rng gsl_ran_gamma gsl_ran_poisson r a = (GSL_NAN, r).
Proof.
  intros Hi Hbad.
  assert (lt 0%float (a !!! i) = false) as Hlt.
  { destruct Hbad as [Hnan|Hle]; [by apply lt_nan_r|done]. }
  unfold apop_rng_GHgB3.
  assert (lt 0%float (a !!! 0) && lt 0%float (a !!! 1)
          && lt 0%float (a !!! 2) = false) as ->; [|done].
  destruct i as [|[|[|i]]]; [| | |lia]; rewrite Hlt.
  - done.
  - by rewrite andb_false_r.
  - by rewrite andb_false_r.
Qed.

Lemma apop_rng_GHgB3_rejects_witness :
  apop_rng_GHgB3 nat (λ r _ _, (1%float, S r)) (λ r _, (0%Z, S r)) 0
    [1%float; GSL_NAN; 2%float]
  = (GSL_NAN, 0).
Proof.
  apply (apop_rng_GHgB3_rejects nat (λ r _ _, (1%float, S r))
           (λ r _, (0%Z, S r)) 0 [1%float; GSL_NAN; 2%float] 1).
  - lia.
  - left. reflexivity.
Defined.

(** A draw above [INT_MAX] comes back negative, after four draws from the
    generator. *)
Example apop_rng_GHgB3_narrowed :
  apop_rng_GHgB3 nat (λ r _ _, (1%float, S r))
    (λ r _, (4294967295%Z, S r)) 0 [1%float; 1%float; 1%float]
  = ((-1)%float, 4).
Proof. reflexivity. Qed.

End RngFacts.
